(** * image-tiny: batch image crop and compression scripts

    A shallow embedding of the two command-line scripts of the repository
    (the squoosh-only script and the sharp + squoosh script) together with
    the part of Node's [path] module they call, and the properties of the
    path mirroring, crop geometry, byte accounting and batch driver. *)

From Stdlib Require Import List String Ascii ZArith QArith Qround Qabs Bool Lia Lqa.
Import ListNotations.

Local Open Scope string_scope.
Local Open Scope Z_scope.

(** ** Node's POSIX [path] module

    Paths are JavaScript strings.  The functions below follow Node's
    [path.posix] implementation; its character scans are expressed over the
    list of ['/']-separated segments of the string. *)

Module NodePath.

Definition isSlash (c : ascii) : bool := Ascii.eqb c "/".
Definition isDot (c : ascii) : bool := Ascii.eqb c ".".

(** [split s]: the pieces of [s] between ['/'] characters
    ([s.split('/')]); never the empty list. *)
Fixpoint split (s : string) : list string :=
  match s with
  | EmptyString => [""]
  | String c s' =>
      if isSlash c then "" :: split s'
      else match split s' with
           | h :: t => String c h :: t
           | [] => [String c ""]
           end
  end.

Definition isAbsolute (p : string) : bool :=
  match p with
  | String c _ => isSlash c
  | EmptyString => false
  end.

Fixpoint endsWithSlash (p : string) : bool :=
  match p with
  | EmptyString => false
  | String c EmptyString => isSlash c
  | String _ p' => endsWithSlash p'
  end.

Definition nonEmpty (s : string) : bool :=
  match s with EmptyString => false | _ => true end.

(** One step of [normalizeString]: [res] is the stack of segments kept
    so far (first segment first). *)
Definition normStep (allowAboveRoot : bool) (res : list string)
  (seg : string) : list string :=
  if (seg =? "")%string || (seg =? ".")%string then res
  else if (seg =? "..")%string then
    match rev res with
    | [] => if allowAboveRoot then [".."] else []
    | l :: before =>
        if (l =? "..")%string
        then (if allowAboveRoot then res ++ [".."] else res)
        else rev before
    end
  else res ++ [seg].

Definition normalizeSegs (allowAboveRoot : bool) (segs : list string)
  : list string :=
  fold_left (normStep allowAboveRoot) segs [].

Definition normalizeString (path : string) (allowAboveRoot : bool) : string :=
  String.concat "/" (normalizeSegs allowAboveRoot (split path)).

Definition normalize (path : string) : string :=
  if negb (nonEmpty path) then "."
  else
    let isAbs := isAbsolute path in
    let trailingSeparator := endsWithSlash path in
    let p := normalizeString path (negb isAbs) in
    if negb (nonEmpty p) then
      (if isAbs then "/" else if trailingSeparator then "./" else ".")
    else
      let p := if trailingSeparator then p ++ "/" else p in
      if isAbs then "/" ++ p else p.

Definition join (args : list string) : string :=
  match filter nonEmpty args with
  | [] => "."
  | parts => normalize (String.concat "/" parts)
  end.

(** [path.resolve(p)] with one argument; [cwd] is [process.cwd()]. *)
Definition resolveInput (cwd p : string) : string * bool :=
  let r0 := if nonEmpty p then p ++ "/" else "" in
  if isAbsolute p then (r0, true)
  else if nonEmpty cwd then (cwd ++ "/" ++ r0, isAbsolute cwd)
  else (r0, false).

Definition resolveSegs (cwd p : string) : list string :=
  let '(resolvedPath, resolvedAbsolute) := resolveInput cwd p in
  normalizeSegs (negb resolvedAbsolute) (split resolvedPath).

Definition resolve (cwd p : string) : string :=
  let '(_, resolvedAbsolute) := resolveInput cwd p in
  let resolvedPath := String.concat "/" (resolveSegs cwd p) in
  if resolvedAbsolute then "/" ++ resolvedPath
  else if nonEmpty resolvedPath then resolvedPath else ".".

(** Drop the longest common prefix of two segment lists. *)
Fixpoint stripCommon (xs ys : list string) : list string * list string :=
  match xs, ys with
  | x :: xs', y :: ys' =>
      if (x =? y)%string then stripCommon xs' ys' else (xs, ys)
  | _, _ => (xs, ys)
  end.

(** [path.relative(from, to)]: one [".."] for every segment of the
    resolved [from] below the common ancestor, then the rest of the
    resolved [to]. *)
Definition relative (cwd from to : string) : string :=
  if (from =? to)%string then ""
  else
    let rfrom := resolve cwd from in
    let rto := resolve cwd to in
    if (rfrom =? rto)%string then ""
    else
      let '(up, down) := stripCommon (resolveSegs cwd from) (resolveSegs cwd to) in
      String.concat "/" (map (fun _ => "..") up ++ down).

(** Index-free form of the scan for the extension of one path component:
    [splitLastDot b] is [Some (name, ext)] where [ext] starts at the last
    ['.'] of [b]. *)
Fixpoint splitLastDot (b : string) : option (string * string) :=
  match b with
  | EmptyString => None
  | String c b' =>
      match splitLastDot b' with
      | Some (n, e) => Some (String c n, e)
      | None => if isDot c then Some ("", b) else None
      end
  end.

(** [splitExt dotdotIsPlain b] = (name, ext) of the component [b]: no
    extension when there is no dot, when the last dot is the first
    character, or when the component is [".."] (the last case only when
    [dotdotIsPlain]). *)
Definition splitExt (dotdotIsPlain : bool) (b : string) : string * string :=
  match splitLastDot b with
  | None => (b, "")
  | Some (n, e) =>
      if negb (nonEmpty n) then (b, "")
      else if dotdotIsPlain && (b =? "..")%string then (b, "")
      else (n, e)
  end.

(** Remove the empty segments that trailing slashes leave at the end. *)
Definition dropTrailingEmpty (segs : list string) : list string :=
  rev (let fix go (l : list string) : list string :=
         match l with
         | s :: l' => if nonEmpty s then l else go l'
         | [] => []
         end
       in go (rev segs)).

Definition extname (path : string) : string :=
  match rev (dropTrailingEmpty (split path)) with
  | [] => ""
  | b :: _ => snd (splitExt true b)
  end.

Record ParsedPath : Type := mkParsed
  { root : string; dir : string; base : string; ext : string; name : string }.

Definition parse (path : string) : ParsedPath :=
  if negb (nonEmpty path) then mkParsed "" "" "" "" ""
  else
    let isAbs := isAbsolute path in
    let rt := if isAbs then "/" else "" in
    (* the scan stops at index [start]: the root slash is not visited *)
    let body := if isAbs then tl (split path) else split path in
    match rev (dropTrailingEmpty body) with
    | [] => mkParsed rt rt "" "" ""
    | b :: before =>
        let startPartIsZero := match before with [] => true | _ => false end in
        let '(n, e) := splitExt (negb (isAbs && startPartIsZero)) b in
        let d := if startPartIsZero then rt
                 else rt ++ String.concat "/" (rev before) in
        mkParsed rt d b e n
    end.

Definition dirname (path : string) : string :=
  if negb (nonEmpty path) then "."
  else
    let hasRoot := isAbsolute path in
    let body := if hasRoot then tl (split path) else split path in
    match rev (dropTrailingEmpty body) with
    | [] => if hasRoot then "/" else "."
    | _ :: before =>
        match before with
        | [] => if hasRoot then "/" else "."
        | _ =>
            let d := String.concat "/" (rev before) in
            if hasRoot then (if nonEmpty d then "/" ++ d else "//") else d
        end
    end.

End NodePath.


(** ** JavaScript values used by the scripts *)

Definition bytes : Type := list Byte.byte.

(** [buffer.length] *)
Definition bufferLength (b : bytes) : Z := Z.of_nat (List.length b).

(** A JavaScript number as the size arithmetic of the scripts uses it:
    finite values are kept exact (the binary64 rounding of a finite
    quotient is not represented), the three non-finite values are the
    IEEE ones. *)
Inductive JSNumber : Type :=
| Finite (q : Q)
| PosInfinity
| NegInfinity
| NaN.

Definition ofZ (z : Z) : JSNumber := Finite (inject_Z z).

Definition Qsign (q : Q) : comparison := (Qnum q ?= 0)%Z.

Definition jsNeg (x : JSNumber) : JSNumber :=
  match x with
  | Finite q => Finite (- q)
  | PosInfinity => NegInfinity
  | NegInfinity => PosInfinity
  | NaN => NaN
  end.

(** [a / b] *)
Definition jsDiv (a b : JSNumber) : JSNumber :=
  match a, b with
  | NaN, _ | _, NaN => NaN
  | Finite x, Finite y =>
      match Qsign y with
      | Eq => match Qsign x with
              | Eq => NaN
              | Gt => PosInfinity
              | Lt => NegInfinity
              end
      | _ => Finite (x / y)
      end
  | Finite _, _ => Finite 0
  | _, Finite y =>
      match Qsign y, a with
      | Lt, _ => jsNeg a
      | _, _ => a
      end
  | _, _ => NaN
  end.

(** [a - b] *)
Definition jsSub (a b : JSNumber) : JSNumber :=
  match a, b with
  | NaN, _ | _, NaN => NaN
  | Finite x, Finite y => Finite (x - y)
  | Finite _, _ => jsNeg b
  | _, Finite _ => a
  | PosInfinity, NegInfinity => PosInfinity
  | NegInfinity, PosInfinity => NegInfinity
  | _, _ => NaN
  end.

(** [a * b] *)
Definition jsMul (a b : JSNumber) : JSNumber :=
  match a, b with
  | NaN, _ | _, NaN => NaN
  | Finite x, Finite y => Finite (x * y)
  | Finite x, PosInfinity | PosInfinity, Finite x =>
      match Qsign x with
      | Eq => NaN
      | Gt => PosInfinity
      | Lt => NegInfinity
      end
  | Finite x, NegInfinity | NegInfinity, Finite x =>
      match Qsign x with
      | Eq => NaN
      | Gt => NegInfinity
      | Lt => PosInfinity
      end
  | PosInfinity, PosInfinity | NegInfinity, NegInfinity => PosInfinity
  | PosInfinity, NegInfinity | NegInfinity, PosInfinity => NegInfinity
  end.

(** The text [x.toFixed(2)] produces: a sign and a number of hundredths,
    or the name of a non-finite value. *)
Inductive Fixed2 : Type :=
| Hundredths (negative : bool) (n : Z)
| FixedInfinity
| FixedNegInfinity
| FixedNaN.

(** [Number.prototype.toFixed(2)]: the sign is split off, then the nearest
    integer number of hundredths is taken, the larger one on a tie. *)
Definition toFixed2 (x : JSNumber) : Fixed2 :=
  match x with
  | NaN => FixedNaN
  | PosInfinity => FixedInfinity
  | NegInfinity => FixedNegInfinity
  | Finite q =>
      let negative := match Qsign q with Lt => true | _ => false end in
      Hundredths negative (Qfloor (Qabs q * 100 + (1 # 2)))
  end.

(** The rational a [Hundredths] text denotes. *)
Definition fixed2Value (neg : bool) (n : Z) : Q :=
  if neg then - (inject_Z n / 100) else inject_Z n / 100.

(** [((1 - outputSize / inputSize) * 100).toFixed(2)] *)
Definition reductionNumber (inputSize outputSize : Z) : JSNumber :=
  jsMul (jsSub (ofZ 1) (jsDiv (ofZ outputSize) (ofZ inputSize))) (ofZ 100).

Definition reductionText (inputSize outputSize : Z) : Fixed2 :=
  toFixed2 (reductionNumber inputSize outputSize).

(** ** Configuration ([CONFIG]) *)

Record ResizeConfig : Type := mkResizeConfig
  { resize_enabled : bool; resize_width : Z; resize_height : Z }.

Record QuantConfig : Type := mkQuantConfig
  { quant_enabled : bool; quant_numColors : Z; quant_dither : Q }.

Record PreprocessConfig : Type := mkPreprocessConfig
  { cfg_resize : ResizeConfig; cfg_quant : QuantConfig }.

Inductive Encoder : Type := mozjpeg | oxipng | webp.

Inductive EncoderOptions : Type :=
| OxipngOptions (level : Z)
| MozjpegOptions (quality : Z) (progressive : bool)
| WebpOptions (quality : Z) (method : Z).

Record EncodeConfig : Type := mkEncodeConfig
  { enc_oxipng : EncoderOptions; enc_mozjpeg : EncoderOptions;
    enc_webp : EncoderOptions }.

(** [CONFIG.encodeOptions[encoder]] *)
Definition encodeOptionsFor (c : EncodeConfig) (e : Encoder) : EncoderOptions :=
  match e with
  | mozjpeg => enc_mozjpeg c
  | oxipng => enc_oxipng c
  | webp => enc_webp c
  end.

(** The fields both scripts share; [outputFormat] is [null] or a string. *)
Record BaseConfig : Type := mkBaseConfig
  { inputDir : string;
    outputDir : string;
    encodeOptions : EncodeConfig;
    preprocessOptions : PreprocessConfig;
    formats : list string;
    outputFormat : option string;
    maxConcurrent : Z }.

Definition defaultEncodeOptions : EncodeConfig :=
  mkEncodeConfig (OxipngOptions 2) (MozjpegOptions 80 true) (WebpOptions 80 4).

(** ** Utility functions shared by the two scripts *)

Definition lowerAscii (c : ascii) : ascii :=
  let n := nat_of_ascii c in
  if (65 <=? n)%nat && (n <=? 90)%nat then ascii_of_nat (n + 32) else c.

Fixpoint toLowerCase (s : string) : string :=
  match s with
  | EmptyString => EmptyString
  | String c s' => String (lowerAscii c) (toLowerCase s')
  end.

(** JavaScript truthiness of a value that is [null] or a string. *)
Definition truthy (v : option string) : bool :=
  match v with
  | Some s => NodePath.nonEmpty s
  | None => false
  end.

(** [customFormat || fallback] *)
Definition orElse (v : option string) (fallback : string) : string :=
  match v with
  | Some s => if NodePath.nonEmpty s then s else fallback
  | None => fallback
  end.

Definition getEncoder (filePath : string) (customFormat : option string) : Encoder :=
  let ext := toLowerCase (orElse customFormat (NodePath.extname filePath)) in
  if (ext =? ".jpg")%string || (ext =? ".jpeg")%string then mozjpeg
  else if (ext =? ".png")%string then oxipng
  else if (ext =? ".webp")%string then webp
  else oxipng.

(** [getOutputPath(inputPath, customFormat)]; [cwd] is the working
    directory [path.relative] resolves against. *)
Definition getOutputPath (cwd : string) (cfg : BaseConfig)
  (inputPath : string) (customFormat : option string) : string :=
  let relativePath := NodePath.relative cwd (inputDir cfg) inputPath in
  let parsed := NodePath.parse relativePath in
  let parsed_base :=
    match customFormat with
    | Some fmt =>
        if NodePath.nonEmpty fmt then NodePath.name parsed ++ fmt
        else NodePath.base parsed
    | None => NodePath.base parsed
    end in
  NodePath.join [outputDir cfg; NodePath.dir parsed; parsed_base].

(** [CONFIG.formats.includes(ext)] *)
Definition includes (l : list string) (x : string) : bool :=
  existsb (String.eqb x) l.

(** ** Crop geometry *)

(** [sharp(...).metadata()]: both dimensions may be [undefined]. *)
Record Metadata : Type := mkMetadata
  { md_width : option Z; md_height : option Z }.

(** The argument of sharp's [extract]. *)
Record ExtractRegion : Type := mkExtractRegion
  { left : Z; top : Z; width : Z; height : option Z }.

(** [image.bitmap] of a decoded squoosh image. *)
Record Bitmap : Type := mkBitmap { bm_width : Z; bm_height : Z }.

(** The [resize] entry of squoosh's preprocess options; the fields after
    [rs_height] are present only in the object the crop branch builds. *)
Record ResizeOptions : Type := mkResizeOptions
  { rs_enabled : bool;
    rs_width : Z;
    rs_height : Z;
    rs_method : option string;
    rs_fitMethod : option string;
    rs_premultiply : option bool;
    rs_linearRGB : option bool }.

Record QuantOptions : Type := mkQuantOptions
  { q_enabled : bool; q_numColors : Z; q_dither : Q }.

(** [preprocessOpts]: each key is present or absent. *)
Record PreprocessOpts : Type := mkPreprocessOpts
  { po_resize : option ResizeOptions; po_quant : option QuantOptions }.

(** [Object.keys(preprocessOpts).length > 0] *)
Definition hasKeys (o : PreprocessOpts) : bool :=
  match po_resize o, po_quant o with
  | None, None => false
  | _, _ => true
  end.

(** [Math.floor((a - b) / 2)] on integers. *)
Definition centerOffset (originalWidth targetWidth : Z) : Z :=
  (originalWidth - targetWidth) / 2.

(** ** Effects: file system, console, codec

    A thrown JavaScript error is its [message]. *)

Inductive Fallible (A : Type) : Type :=
| Returns (a : A)
| Throws (message : string).
Arguments Returns {A} a.
Arguments Throws {A} message.

(** Everything the scripts take from outside: Node's [fs], the squoosh
    image pool and sharp.  [World] is the state of the file system, the
    only state there is: the codec and sharp are functions of the bytes
    and options they are given.  [cwd] is [process.cwd()] and [stackDepth]
    the depth of recursion the engine allows before it throws a
    [RangeError]. *)
Class Externals : Type := mkExternals
  { World : Type;
    Image : Type;
    cwd : string;
    stackDepth : nat;
    fs_existsSync : string -> World -> bool;
    fs_mkdirSync : string -> World -> Fallible unit * World;
    fs_readdirSync : string -> World -> Fallible (list string);
    fs_statIsDirectory : string -> World -> Fallible bool;
    fs_readFileSync : string -> World -> Fallible bytes;
    fs_writeFileSync : string -> bytes -> World -> Fallible unit * World;
    ingestImage : bytes -> Image;
    decoded : Image -> Fallible Bitmap;
    preprocess : PreprocessOpts -> Image -> Fallible Image;
    encode : Encoder -> EncoderOptions -> Image -> Fallible Image;
    encodedWith : Encoder -> Image -> Fallible bytes;
    sharp_metadata : bytes -> Fallible Metadata;
    sharp_extract : ExtractRegion -> bytes -> Fallible bytes }.

Record Stats : Type := mkStats
  { total : Z;
    success : Z;
    failed : Z;
    totalInputSize : Z;
    totalOutputSize : Z }.

(** What the scripts print; each constructor carries the values the
    template string interpolates.  Sizes are carried as byte counts:
    [formatBytes], which turns them into text with [Math.log], cannot
    throw and is not embedded. *)
Inductive LogLine : Type :=
| LBanner
| LConfigInfo (inputDir outputDir : string) (cropWidth : option Z)
| LInputDirMissing (inputDir : string)
| LScanning (inputDir : string)
| LNoImages
| LFound (n : Z)
| LStart (n : Z)
| LProgress (i n : Z) (relativePath : string)
| LOriginalSize (w h : Z)
| LCrop (cropWidth left : Z)
| LFileDone (inputSize outputSize : Z) (reduction : Fixed2)
| LSavedTo (outputPath : string)
| LFailed (message : string) (relativePath : option string)
| LSummary (success failed totalInputSize totalOutputSize : Z)
| LSaving (savedBytes : Z) (totalReduction : Fixed2)
| LUncaught (message : string).

(** Observable actions, in the order they happen.  [PoolOpen] and
    [PoolClose] are [new ImagePool(n)] and [imagePool.close()], which are
    taken not to throw. *)
Inductive Event : Type :=
| ConsoleLog (l : LogLine)
| ConsoleError (l : LogLine)
| PoolOpen (workers : Z)
| PoolClose
| FsExists (p : string)
| FsMkdir (p : string)
| FsReaddir (p : string)
| FsStat (p : string)
| FsRead (p : string)
| FsWrite (p : string) (size : Z)
| SharpMetadata
| SharpExtract (region : ExtractRegion)
| CodecDecode
| CodecPreprocess (opts : PreprocessOpts)
| CodecEncode (encoder : Encoder) (opts : EncoderOptions).

(** ** The monad of the scripts

    A computation runs on the state of the world, the [stats] object and
    the trace of events so far.  It returns, throws, or ends the process
    ([process.exit]); what it did to the state before throwing stays. *)

Inductive Outcome (A : Type) : Type :=
| Ok (a : A)
| Throw (message : string)
| Exit (code : Z).
Arguments Ok {A} a.
Arguments Throw {A} message.
Arguments Exit {A} code.

Section Monad.
Context {E : Externals}.

Record St : Type := mkSt
  { st_world : World; st_stats : Stats; st_trace : list Event }.

Definition M (A : Type) : Type := St -> Outcome A * St.

Definition ret {A} (a : A) : M A := fun s => (Ok a, s).

Definition bind {A B} (m : M A) (k : A -> M B) : M B :=
  fun s =>
    match m s with
    | (Ok a, s') => k a s'
    | (Throw msg, s') => (Throw msg, s')
    | (Exit c, s') => (Exit c, s')
    end.

Definition throw {A} (msg : string) : M A := fun s => (Throw msg, s).

(** [process.exit(code)] *)
Definition processExit {A} (code : Z) : M A := fun s => (Exit code, s).

(** [try { body } catch (error) { handler(error.message) }] *)
Definition tryCatch {A} (body : M A) (handler : string -> M A) : M A :=
  fun s =>
    match body s with
    | (Throw msg, s') => handler msg s'
    | r => r
    end.

(** [try { .. } catch { .. } finally { fin }] *)
Definition tryCatchFinally {A} (body : M A) (handler : string -> M A)
  (fin : M unit) : M A :=
  fun s =>
    match tryCatch body handler s with
    | (Exit c, s') => (Exit c, s')
    | (r, s') =>
        match fin s' with
        | (Ok _, s'') => (r, s'')
        | (Throw msg, s'') => (Throw msg, s'')
        | (Exit c, s'') => (Exit c, s'')
        end
    end.

Definition emit (e : Event) : M unit :=
  fun s => (Ok tt, mkSt (st_world s) (st_stats s) (st_trace s ++ [e])).

Definition liftF {A} (r : Fallible A) : M A :=
  fun s => match r with
           | Returns a => (Ok a, s)
           | Throws msg => (Throw msg, s)
           end.

(** A call that only reads the world. *)
Definition readWorld {A} (f : World -> Fallible A) : M A :=
  fun s => liftF (f (st_world s)) s.

(** A call that changes the world. *)
Definition updateWorld {A} (f : World -> Fallible A * World) : M A :=
  fun s =>
    let '(r, w) := f (st_world s) in
    liftF r (mkSt w (st_stats s) (st_trace s)).

Definition getStats : M Stats := fun s => (Ok (st_stats s), s).

Definition modifyStats (f : Stats -> Stats) : M unit :=
  fun s => (Ok tt, mkSt (st_world s) (f (st_stats s)) (st_trace s)).

End Monad.

Declare Scope script_scope.
Delimit Scope script_scope with script.
Notation "x <- m ;; k" := (bind m (fun x => k))
  (at level 61, m at next level, right associativity) : script_scope.
Notation "m ;; k" := (bind m (fun _ => k))
  (at level 61, right associativity) : script_scope.
Local Open Scope script_scope.

(** ** Node and codec calls, as computations *)

Section Primitives.
Context {E : Externals}.

Definition consoleLog (l : LogLine) : M unit := emit (ConsoleLog l).
Definition consoleError (l : LogLine) : M unit := emit (ConsoleError l).

Definition existsSync (p : string) : M bool :=
  emit (FsExists p) ;; readWorld (fun w => Returns (fs_existsSync p w)).

Definition mkdirSync (p : string) : M unit :=
  emit (FsMkdir p) ;; updateWorld (fs_mkdirSync p).

Definition readdirSync (p : string) : M (list string) :=
  emit (FsReaddir p) ;; readWorld (fs_readdirSync p).

Definition statIsDirectory (p : string) : M bool :=
  emit (FsStat p) ;; readWorld (fs_statIsDirectory p).

Definition readFileSync (p : string) : M bytes :=
  emit (FsRead p) ;; readWorld (fs_readFileSync p).

Definition writeFileSync (p : string) (data : bytes) : M unit :=
  emit (FsWrite p (bufferLength data)) ;; updateWorld (fs_writeFileSync p data).

(** [await image.decoded] *)
Definition awaitDecoded (image : Image) : M Bitmap :=
  emit CodecDecode ;; liftF (decoded image).

(** [await image.preprocess(opts)] *)
Definition awaitPreprocess (opts : PreprocessOpts) (image : Image) : M Image :=
  emit (CodecPreprocess opts) ;; liftF (preprocess opts image).

(** [await image.encode({ [encoder]: opts })] *)
Definition awaitEncode (e : Encoder) (opts : EncoderOptions) (image : Image)
  : M Image :=
  emit (CodecEncode e opts) ;; liftF (encode e opts image).

(** [(await image.encodedWith[encoder]).binary] *)
Definition awaitEncodedWith (e : Encoder) (image : Image) : M bytes :=
  liftF (encodedWith e image).

(** [ensureDir(dir)] *)
Definition ensureDir (dir : string) : M unit :=
  ex <- existsSync dir ;;
  if negb ex then mkdirSync dir else ret tt.

(** [items.forEach(item => ...)] threading the [files] array. *)
Fixpoint forEach {A B} (f : A -> B -> M B) (items : list A) (acc : B) : M B :=
  match items with
  | [] => ret acc
  | item :: items' => acc' <- f item acc ;; forEach f items' acc'
  end.

(** The inner [readDir(currentPath)] of [getImageFiles]; [depth] is what
    is left of the call stack. *)
Fixpoint readDir (formats : list string) (depth : nat) (currentPath : string)
  (files : list string) : M (list string) :=
  match depth with
  | O => throw "Maximum call stack size exceeded"
  | S depth' =>
      items <- readdirSync currentPath ;;
      forEach
        (fun item files =>
           let fullPath := NodePath.join [currentPath; item] in
           isDir <- statIsDirectory fullPath ;;
           if isDir then readDir formats depth' fullPath files
           else
             let ext := toLowerCase (NodePath.extname item) in
             if includes formats ext then ret (files ++ [fullPath])%list
             else ret files)
        items files
  end.

(** [getImageFiles(dir)] *)
Definition getImageFiles (cfg : BaseConfig) (dir : string) : M (list string) :=
  readDir (formats cfg) stackDepth dir [].

Definition incSuccess (st : Stats) : Stats :=
  mkStats (total st) (success st + 1) (failed st)
    (totalInputSize st) (totalOutputSize st).

Definition incFailed (st : Stats) : Stats :=
  mkStats (total st) (success st) (failed st + 1)
    (totalInputSize st) (totalOutputSize st).

Definition addInputSize (n : Z) (st : Stats) : Stats :=
  mkStats (total st) (success st) (failed st)
    (totalInputSize st + n) (totalOutputSize st).

Definition addOutputSize (n : Z) (st : Stats) : Stats :=
  mkStats (total st) (success st) (failed st)
    (totalInputSize st) (totalOutputSize st + n).

(** The number of bytes [readFileSync] yields for [inputPath] in state [s];
    0 when it throws. *)
Definition readSize (inputPath : string) (s : St) : Z :=
  match fs_readFileSync inputPath (st_world s) with
  | Returns data => bufferLength data
  | Throws _ => 0
  end.

(** The [stats] object [compressImages] starts from. *)
Definition newStats (imageFiles : list string) : Stats :=
  mkStats (Z.of_nat (List.length imageFiles)) 0 0 0 0.

(** [main().catch(error => { console.error(..); process.exit(1) })]:
    the exit code of the process and the final state. *)
Definition runScript (main : M unit) (s : St) : Z * St :=
  match main s with
  | (Ok _, s') => (0, s')
  | (Exit code, s') => (code, s')
  | (Throw msg, s') =>
      (1, snd (consoleError (LUncaught msg) s'))
  end.

End Primitives.

(** ** The squoosh-only script *)

Module SquooshOnly.

Record CropOptions : Type := mkCropOptions
  { crop_enabled : bool; crop_width : Z; keepHeight : bool }.

Record Config : Type := mkConfig
  { common : BaseConfig; cropOptions : CropOptions }.

(** The literal [CONFIG] of the script. *)
Definition CONFIG : Config :=
  mkConfig
    (mkBaseConfig "./jump" "./jumpCompress" defaultEncodeOptions
       (mkPreprocessConfig (mkResizeConfig true 338 280)
          (mkQuantConfig true 128 1))
       [".jpg"; ".jpeg"; ".png"] None 4)
    (mkCropOptions true 338 true).

(** The three constants of the crop branch of [compressImages]. *)
Record CropPlan : Type := mkCropPlan
  { cropWidth : Z; cropHeight : Z; cropLeft : Z }.

(** The test and the constants of
    [if (CONFIG.cropOptions.enabled && originalWidth > CONFIG.cropOptions.width)]. *)
Definition cropPlan (cfg : Config) (originalWidth originalHeight : Z)
  : option CropPlan :=
  if crop_enabled (cropOptions cfg)
     && (originalWidth >? crop_width (cropOptions cfg))
  then
    let cropWidth := crop_width (cropOptions cfg) in
    let cropHeight :=
      if keepHeight (cropOptions cfg) then originalHeight
      else resize_height (cfg_resize (preprocessOptions (common cfg))) in
    let left := centerOffset originalWidth cropWidth in
    Some (mkCropPlan cropWidth cropHeight left)
  else None.

(** [CONFIG.preprocessOptions.resize] used as the [resize] entry. *)
Definition resizeOfConfig (r : ResizeConfig) : ResizeOptions :=
  mkResizeOptions (resize_enabled r) (resize_width r) (resize_height r)
    None None None None.

(** The [preprocessOpts] object [compressImages] builds for one image. *)
Definition buildPreprocessOpts (cfg : Config) (originalWidth originalHeight : Z)
  : PreprocessOpts :=
  let pre := preprocessOptions (common cfg) in
  mkPreprocessOpts
    (match cropPlan cfg originalWidth originalHeight with
     | Some plan =>
         Some (mkResizeOptions true (cropWidth plan) (cropHeight plan)
                 (Some "lanczos3") (Some "stretch") (Some true) (Some true))
     | None =>
         if resize_enabled (cfg_resize pre)
         then Some (resizeOfConfig (cfg_resize pre))
         else None
     end)
    (if quant_enabled (cfg_quant pre)
     then Some (mkQuantOptions true (quant_numColors (cfg_quant pre))
                  (quant_dither (cfg_quant pre)))
     else None).

(** The same configuration with [cropOptions.enabled] set to [false]. *)
Definition withoutCrop (cfg : Config) : Config :=
  mkConfig (common cfg)
    (mkCropOptions false (crop_width (cropOptions cfg))
       (keepHeight (cropOptions cfg))).

Section Script.
Context {E : Externals}.
Variable cfg : Config.

(** The body of the [try] block for the file at index [i]. *)
Definition processFile (i n : Z) (inputPath relativePath : string) : M unit :=
  consoleLog (LProgress (i + 1) n relativePath) ;;
  inputBuffer <- readFileSync inputPath ;;
  let inputSize := bufferLength inputBuffer in
  modifyStats (addInputSize inputSize) ;;
  let image := ingestImage inputBuffer in
  bitmap <- awaitDecoded image ;;
  let originalWidth := bm_width bitmap in
  let originalHeight := bm_height bitmap in
  consoleLog (LOriginalSize originalWidth originalHeight) ;;
  match cropPlan cfg originalWidth originalHeight with
  | Some plan => consoleLog (LCrop (cropWidth plan) (cropLeft plan))
  | None => ret tt
  end ;;
  let preprocessOpts := buildPreprocessOpts cfg originalWidth originalHeight in
  image <- (if hasKeys preprocessOpts
            then awaitPreprocess preprocessOpts image
            else ret image) ;;
  let encoder := getEncoder inputPath (outputFormat (common cfg)) in
  let encodeOptions := encodeOptionsFor (encodeOptions (common cfg)) encoder in
  image <- awaitEncode encoder encodeOptions image ;;
  outputBuffer <- awaitEncodedWith encoder image ;;
  let outputSize := bufferLength outputBuffer in
  modifyStats (addOutputSize outputSize) ;;
  let outputPath :=
    getOutputPath cwd (common cfg) inputPath (outputFormat (common cfg)) in
  ensureDir (NodePath.dirname outputPath) ;;
  writeFileSync outputPath outputBuffer ;;
  let reduction := reductionText inputSize outputSize in
  consoleLog (LFileDone inputSize outputSize reduction) ;;
  consoleLog (LSavedTo outputPath) ;;
  modifyStats incSuccess.

(** The state in which the [try] block of an iteration starts. *)
Definition beforeTry (s : St) : St :=
  snd (emit (PoolOpen (maxConcurrent (common cfg))) s).

(** One iteration of the [for] loop. *)
Definition iteration (i n : Z) (inputPath : string) : M unit :=
  emit (PoolOpen (maxConcurrent (common cfg))) ;;
  let relativePath := NodePath.relative cwd (inputDir (common cfg)) inputPath in
  tryCatchFinally
    (processFile i n inputPath relativePath)
    (fun message => consoleError (LFailed message None) ;; modifyStats incFailed)
    (emit PoolClose).

Fixpoint loop (i n : Z) (rest : list string) : M unit :=
  match rest with
  | [] => ret tt
  | inputPath :: rest' => iteration i n inputPath ;; loop (i + 1) n rest'
  end.

Definition compressImages (imageFiles : list string) : M Stats :=
  let n := Z.of_nat (List.length imageFiles) in
  modifyStats (fun _ => newStats imageFiles) ;;
  consoleLog (LStart n) ;;
  loop 0 n imageFiles ;;
  getStats.

(** [main], up to and including the call of [getImageFiles]. *)
Definition mainDiscover : M (list string) :=
  consoleLog LBanner ;;
  consoleLog (LConfigInfo (inputDir (common cfg)) (outputDir (common cfg))
                (if crop_enabled (cropOptions cfg)
                 then Some (crop_width (cropOptions cfg)) else None)) ;;
  ex <- existsSync (inputDir (common cfg)) ;;
  (if negb ex
   then consoleError (LInputDirMissing (inputDir (common cfg))) ;; processExit 1
   else ret tt) ;;
  ensureDir (outputDir (common cfg)) ;;
  consoleLog (LScanning (inputDir (common cfg))) ;;
  getImageFiles (common cfg) (inputDir (common cfg)).

(** [main], from the test of [imageFiles.length] on. *)
Definition mainProcess (imageFiles : list string) : M unit :=
  (if Z.of_nat (List.length imageFiles) =? 0
   then consoleLog LNoImages ;; processExit 0
   else ret tt) ;;
  consoleLog (LFound (Z.of_nat (List.length imageFiles))) ;;
  stats <- compressImages imageFiles ;;
  consoleLog (LSummary (success stats) (failed stats)
                (totalInputSize stats) (totalOutputSize stats)) ;;
  if totalInputSize stats >? 0
  then consoleLog (LSaving (totalInputSize stats - totalOutputSize stats)
                     (reductionText (totalInputSize stats) (totalOutputSize stats)))
  else ret tt.

Definition main : M unit :=
  imageFiles <- mainDiscover ;; mainProcess imageFiles.

(** Whether the [try] block of the iteration for [inputPath], started
    in state [s], ends in the [catch] clause. *)
Definition fileFails (i n : Z) (inputPath : string) (s : St) : bool :=
  match fst (processFile i n inputPath
               (NodePath.relative cwd (inputDir (common cfg)) inputPath)
               (beforeTry s)) with
  | Throw _ => true
  | _ => false
  end.

(** For each file of the batch started in [s], whether it fails. *)
Fixpoint failures (i n : Z) (rest : list string) (s : St) : list bool :=
  match rest with
  | [] => []
  | inputPath :: rest' =>
      fileFails i n inputPath s
      :: failures (i + 1) n rest' (snd (iteration i n inputPath s))
  end.

(** For each file of the batch started in [s], the bytes read from it. *)
Fixpoint inputSizes (i n : Z) (rest : list string) (s : St) : list Z :=
  match rest with
  | [] => []
  | inputPath :: rest' =>
      readSize inputPath s
      :: inputSizes (i + 1) n rest' (snd (iteration i n inputPath s))
  end.

(** The state in which the loop of [compressImages] starts. *)
Definition loopStart (imageFiles : list string) (s : St) : St :=
  snd ((modifyStats (fun _ => newStats imageFiles) ;;
        consoleLog (LStart (Z.of_nat (List.length imageFiles)))) s).

(** For each file of a batch started in [s], whether it fails. *)
Definition batchFailures (imageFiles : list string) (s : St) : list bool :=
  failures 0 (Z.of_nat (List.length imageFiles)) imageFiles
    (loopStart imageFiles s).

End Script.

End SquooshOnly.

(** ** The sharp + squoosh script *)

Module SharpSquoosh.

Record CropConfig : Type := mkCropConfig
  { crop_enabled : bool; crop_width : Z }.

Record Config : Type := mkConfig
  { common : BaseConfig; crop : CropConfig }.

(** The literal [CONFIG] of the script. *)
Definition CONFIG : Config :=
  mkConfig
    (mkBaseConfig "./jump" "./jumpCompress" defaultEncodeOptions
       (mkPreprocessConfig (mkResizeConfig true 338 280)
          (mkQuantConfig true 64 1))
       [".jpg"; ".jpeg"; ".png"] None 4)
    (mkCropConfig true 1305).

(** [!metadata.width || metadata.width <= CONFIG.crop.width] *)
Definition noCropNeeded (cfg : Config) (metadata : Metadata) : bool :=
  match md_width metadata with
  | None => true
  | Some w => (w =? 0) || (w <=? crop_width (crop cfg))
  end.

(** The rectangle [cropImage] hands to [extract], when it does. *)
Definition extractRegion (cfg : Config) (metadata : Metadata)
  : option ExtractRegion :=
  if noCropNeeded cfg metadata then None
  else
    match md_width metadata with
    | Some w =>
        let xOffset := centerOffset w (crop_width (crop cfg)) in
        Some (mkExtractRegion xOffset 0 (crop_width (crop cfg))
                (md_height metadata))
    | None => None
    end.

(** [preprocessOpts] of this script: no crop entry. *)
Definition buildPreprocessOpts (cfg : Config) : PreprocessOpts :=
  let pre := preprocessOptions (common cfg) in
  mkPreprocessOpts
    (if resize_enabled (cfg_resize pre)
     then Some (SquooshOnly.resizeOfConfig (cfg_resize pre))
     else None)
    (if quant_enabled (cfg_quant pre)
     then Some (mkQuantOptions true (quant_numColors (cfg_quant pre))
                  (quant_dither (cfg_quant pre)))
     else None).

Definition cropFailed : string := "裁剪失败: ".

Section Script.
Context {E : Externals}.
Variable cfg : Config.

(** [cropImage(inputBuffer)] *)
Definition cropImage (inputBuffer : bytes) : M bytes :=
  tryCatch
    (metadata <- (emit SharpMetadata ;; liftF (sharp_metadata inputBuffer)) ;;
     match extractRegion cfg metadata with
     | None => ret inputBuffer
     | Some region =>
         emit (SharpExtract region) ;;
         liftF (sharp_extract region inputBuffer)
     end)
    (fun message => throw (cropFailed ++ message)).

(** The body of the [try] block for the file at index [i]. *)
Definition processFile (i n : Z) (inputPath relativePath : string) : M unit :=
  consoleLog (LProgress (i + 1) n relativePath) ;;
  inputBuffer <- readFileSync inputPath ;;
  let inputSize := bufferLength inputBuffer in
  modifyStats (addInputSize inputSize) ;;
  processedBuffer <- (if crop_enabled (crop cfg)
                      then cropImage inputBuffer
                      else ret inputBuffer) ;;
  let image := ingestImage processedBuffer in
  let preprocessOpts := buildPreprocessOpts cfg in
  image <- (if hasKeys preprocessOpts
            then awaitPreprocess preprocessOpts image
            else ret image) ;;
  let encoder := getEncoder inputPath (outputFormat (common cfg)) in
  let encodeOptions := encodeOptionsFor (encodeOptions (common cfg)) encoder in
  image <- awaitEncode encoder encodeOptions image ;;
  outputBuffer <- awaitEncodedWith encoder image ;;
  let outputSize := bufferLength outputBuffer in
  modifyStats (addOutputSize outputSize) ;;
  let outputPath :=
    getOutputPath cwd (common cfg) inputPath (outputFormat (common cfg)) in
  ensureDir (NodePath.dirname outputPath) ;;
  writeFileSync outputPath outputBuffer ;;
  let reduction := reductionText inputSize outputSize in
  consoleLog (LFileDone inputSize outputSize reduction) ;;
  consoleLog (LSavedTo outputPath) ;;
  modifyStats incSuccess.

(** The state in which the [try] block of an iteration starts. *)
Definition beforeTry (s : St) : St := s.

(** One iteration of the [for] loop. *)
Definition iteration (i n : Z) (inputPath : string) : M unit :=
  let relativePath := NodePath.relative cwd (inputDir (common cfg)) inputPath in
  tryCatch
    (processFile i n inputPath relativePath)
    (fun message =>
       consoleError (LFailed message (Some relativePath)) ;;
       modifyStats incFailed).

Fixpoint loop (i n : Z) (rest : list string) : M unit :=
  match rest with
  | [] => ret tt
  | inputPath :: rest' => iteration i n inputPath ;; loop (i + 1) n rest'
  end.

Definition compressImages (imageFiles : list string) : M Stats :=
  let n := Z.of_nat (List.length imageFiles) in
  modifyStats (fun _ => newStats imageFiles) ;;
  consoleLog (LStart n) ;;
  emit (PoolOpen (maxConcurrent (common cfg))) ;;
  loop 0 n imageFiles ;;
  emit PoolClose ;;
  getStats.

(** [main], up to and including the call of [getImageFiles]. *)
Definition mainDiscover : M (list string) :=
  consoleLog LBanner ;;
  ex <- existsSync (inputDir (common cfg)) ;;
  (if negb ex
   then consoleError (LInputDirMissing (inputDir (common cfg))) ;; processExit 1
   else ret tt) ;;
  ensureDir (outputDir (common cfg)) ;;
  consoleLog (LScanning (inputDir (common cfg))) ;;
  getImageFiles (common cfg) (inputDir (common cfg)).

(** [main], from the test of [imageFiles.length] on. *)
Definition mainProcess (imageFiles : list string) : M unit :=
  (if Z.of_nat (List.length imageFiles) =? 0
   then consoleLog LNoImages ;; processExit 0
   else ret tt) ;;
  consoleLog (LFound (Z.of_nat (List.length imageFiles))) ;;
  stats <- compressImages imageFiles ;;
  consoleLog (LSummary (success stats) (failed stats)
                (totalInputSize stats) (totalOutputSize stats)) ;;
  if totalInputSize stats >? 0
  then consoleLog (LSaving (totalInputSize stats - totalOutputSize stats)
                     (reductionText (totalInputSize stats) (totalOutputSize stats)))
  else ret tt.

Definition main : M unit :=
  imageFiles <- mainDiscover ;; mainProcess imageFiles.

(** Whether the [try] block of the iteration for [inputPath], started
    in state [s], ends in the [catch] clause. *)
Definition fileFails (i n : Z) (inputPath : string) (s : St) : bool :=
  match fst (processFile i n inputPath
               (NodePath.relative cwd (inputDir (common cfg)) inputPath)
               (beforeTry s)) with
  | Throw _ => true
  | _ => false
  end.

(** For each file of the batch started in [s], whether it fails. *)
Fixpoint failures (i n : Z) (rest : list string) (s : St) : list bool :=
  match rest with
  | [] => []
  | inputPath :: rest' =>
      fileFails i n inputPath s
      :: failures (i + 1) n rest' (snd (iteration i n inputPath s))
  end.

(** For each file of the batch started in [s], the bytes read from it. *)
Fixpoint inputSizes (i n : Z) (rest : list string) (s : St) : list Z :=
  match rest with
  | [] => []
  | inputPath :: rest' =>
      readSize inputPath s
      :: inputSizes (i + 1) n rest' (snd (iteration i n inputPath s))
  end.

(** The state in which the loop of [compressImages] starts. *)
Definition loopStart (imageFiles : list string) (s : St) : St :=
  snd ((modifyStats (fun _ => newStats imageFiles) ;;
        consoleLog (LStart (Z.of_nat (List.length imageFiles))) ;;
        emit (PoolOpen (maxConcurrent (common cfg)))) s).

(** For each file of a batch started in [s], whether it fails. *)
Definition batchFailures (imageFiles : list string) (s : St) : list bool :=
  failures 0 (Z.of_nat (List.length imageFiles)) imageFiles
    (loopStart imageFiles s).

End Script.

End SharpSquoosh.

(** ** A small concrete world

    Directories are listed by name, files carry their bytes, and the paths
    in [locked] cannot be written.  The toy codec reads an image as two
    header bytes (width, height) followed by pixel data; it rejects
    anything shorter unless it is [lenient], and its encoders reject an
    image whose first pixel byte is 255. *)

Module Demo.

Record FS : Type := mkFS
  { dirs : list (string * list string);
    files : list (string * bytes);
    locked : list string }.

Fixpoint lookup {A} (k : string) (l : list (string * A)) : option A :=
  match l with
  | [] => None
  | (k', v) :: l' => if (k =? k')%string then Some v else lookup k l'
  end.

Definition isSome {A} (o : option A) : bool :=
  match o with Some _ => true | None => false end.

Definition exists_ (p : string) (w : FS) : bool :=
  isSome (lookup p (dirs w)) || isSome (lookup p (files w)).

Definition mkdir (p : string) (w : FS) : Fallible unit * FS :=
  (Returns tt, mkFS ((p, []) :: dirs w) (files w) (locked w)).

Definition readdir (p : string) (w : FS) : Fallible (list string) :=
  match lookup p (dirs w) with
  | Some items => Returns items
  | None => Throws "ENOENT: no such file or directory, scandir"
  end.

Definition statIsDirectory (p : string) (w : FS) : Fallible bool :=
  if isSome (lookup p (dirs w)) then Returns true
  else if isSome (lookup p (files w)) then Returns false
  else Throws "ENOENT: no such file or directory, stat".

Definition readFile (p : string) (w : FS) : Fallible bytes :=
  match lookup p (files w) with
  | Some data => Returns data
  | None => Throws "ENOENT: no such file or directory, open"
  end.

Definition writeFile (p : string) (data : bytes) (w : FS) : Fallible unit * FS :=
  if includes (locked w) p then (Throws "EACCES: permission denied, open", w)
  else (Returns tt, mkFS (dirs w) ((p, data) :: files w) (locked w)).

Definition byteZ (b : Byte.byte) : Z := Z.of_N (Byte.to_N b).

Definition header (lenient : bool) (img : bytes) : Fallible Bitmap :=
  match img with
  | w :: h :: _ => Returns (mkBitmap (byteZ w) (byteZ h))
  | _ => if lenient then Returns (mkBitmap 0 0)
         else Throws "Binary blob has an unsupported format"
  end.

Definition metadata (lenient : bool) (img : bytes) : Fallible Metadata :=
  match header lenient img with
  | Returns bm => Returns (mkMetadata (Some (bm_width bm)) (Some (bm_height bm)))
  | Throws msg => Throws msg
  end.

(** The toy codec keeps the bytes; preprocessing and encoding need a
    decodable image. *)
Definition checked (lenient : bool) (img : bytes) : Fallible bytes :=
  match header lenient img with
  | Returns _ => Returns img
  | Throws msg => Throws msg
  end.

Definition toyEncode (lenient : bool) (img : bytes) : Fallible bytes :=
  match img with
  | _ :: _ :: px :: _ =>
      if byteZ px =? 255 then Throws "encoder: unsupported pixel"
      else checked lenient img
  | _ => checked lenient img
  end.

(** The encoded file: the bytes of the image, and in the lenient codec a
    one-byte container for an image without bytes. *)
Definition container (lenient : bool) (img : bytes) : bytes :=
  match img with
  | [] => if lenient then [Byte.x00] else []
  | _ => img
  end.

Definition extract (region : ExtractRegion) (img : bytes) : Fallible bytes :=
  match img with
  | _ :: h :: px => Returns (Byte.x00 :: h :: px)
  | _ => Throws "extract_area: bad extract area"
  end.

Definition externals (lenient : bool) : Externals :=
  mkExternals FS bytes "/home/user" 64%nat
    exists_ mkdir readdir statIsDirectory readFile writeFile
    (fun b => b)
    (header lenient)
    (fun _ img => checked lenient img)
    (fun _ _ img => toyEncode lenient img)
    (fun _ img => Returns (container lenient img))
    (metadata lenient)
    extract.

Definition b (n : N) : Byte.byte :=
  match Byte.of_N n with Some x => x | None => Byte.x00 end.

(** [jump/a/photo.png] is a 200x100 image of 6 bytes, [jump/b/icon.jpg]
    a 20x15 image of 4 bytes, [jump/broken.png] is one stray byte,
    [jump/odd.png] is a 30x30 image the encoders reject and
    [jump/empty.png] has no bytes at all. *)
Definition world : FS :=
  mkFS
    [("./jump", ["a"; "b"; "broken.png"; "notes.txt"]);
     ("jump/a", ["photo.png"]);
     ("jump/b", ["icon.jpg"])]
    [("jump/a/photo.png", [b 200; b 100; b 1; b 2; b 3; b 4]);
     ("jump/b/icon.jpg", [b 20; b 15; b 7; b 7]);
     ("jump/broken.png", [b 9]);
     ("jump/odd.png", [b 30; b 30; b 255]);
     ("jump/empty.png", []);
     ("jump/notes.txt", [b 1])]
    ["jumpCompress/b/icon.jpg"].

(** The same files, all of them writable. *)
Definition openWorld : FS := mkFS (dirs world) (files world) [].

(** No input directory. *)
Definition bareWorld : FS := mkFS [] [] [].

(** An input directory without images. *)
Definition textWorld : FS :=
  mkFS [("./jump", ["notes.txt"])] [("jump/notes.txt", [b 1])] [].

(** An input directory that lists an entry which is not there. *)
Definition staleWorld : FS := mkFS [("./jump", ["gone.png"])] [] [].

Definition start (w : FS) : @St (externals false) :=
  @mkSt (externals false) w (mkStats 0 0 0 0 0) [].

Definition startLenient (w : FS) : @St (externals true) :=
  @mkSt (externals true) w (mkStats 0 0 0 0 0) [].

(** Configurations with smaller crop widths than the literal ones, to fit
    the one-byte dimensions of the toy codec. *)
Definition squooshConfig : SquooshOnly.Config :=
  SquooshOnly.mkConfig (SquooshOnly.common SquooshOnly.CONFIG)
    (SquooshOnly.mkCropOptions true 50 true).

Definition sharpConfig : SharpSquoosh.Config :=
  SharpSquoosh.mkConfig (SharpSquoosh.common SharpSquoosh.CONFIG)
    (SharpSquoosh.mkCropConfig true 50).

(** The sharp script with cropping switched off. *)
Definition sharpNoCrop : SharpSquoosh.Config :=
  SharpSquoosh.mkConfig (SharpSquoosh.common SharpSquoosh.CONFIG)
    (SharpSquoosh.mkCropConfig false 50).

End Demo.

(** ** Vocabulary of the statements *)

Fixpoint hasSlash (s : string) : bool :=
  match s with
  | EmptyString => false
  | String c s' => NodePath.isSlash c || hasSlash s'
  end.

Fixpoint hasDot (s : string) : bool :=
  match s with
  | EmptyString => false
  | String c s' => NodePath.isDot c || hasDot s'
  end.

(** A file or directory name: not empty, no ['/'], neither ["."] nor [".."]. *)
Definition isName (s : string) : bool :=
  NodePath.nonEmpty s && negb (hasSlash s)
  && negb (s =? ".")%string && negb (s =? "..")%string.

(** An extension as [path.extname] returns them: a dot followed by at least
    one character, none of them a dot or a slash. *)
Definition isExtension (fmt : string) : bool :=
  match fmt with
  | String c e =>
      NodePath.isDot c && NodePath.nonEmpty e && negb (hasSlash e) && negb (hasDot e)
  | EmptyString => false
  end.

(** Segments [normalizeString] keeps as they are, and segments that can
    stand on its stack. *)
Definition regular (s : string) : Prop := s <> "" /\ s <> "." /\ s <> "..".
Definition clean (s : string) : Prop := s <> "" /\ s <> ".".

(** [p] lies below [root]: resolved against [cwd], it is the resolved
    [root] followed by the names [names], of which there is at least one. *)
Definition descendantBy (cwd root p : string) (names : list string) : Prop :=
  names <> []
  /\ Forall (fun s => isName s = true) names
  /\ NodePath.resolveSegs cwd p = (NodePath.resolveSegs cwd root ++ names)%list.

(** The file name [getOutputPath] writes for the input file name [b]. *)
Definition overrideBase (customFormat : option string) (b : string) : string :=
  match customFormat with
  | Some fmt =>
      if NodePath.nonEmpty fmt then fst (NodePath.splitExt true b) ++ fmt else b
  | None => b
  end.

(** The names of a relative path with the extension of the last one
    replaced by [customFormat], when that is a non-empty string. *)
Definition withExtension (customFormat : option string) (names : list string)
  : list string :=
  match customFormat with
  | Some fmt =>
      if NodePath.nonEmpty fmt
      then (removelast names
              ++ [(fst (NodePath.splitExt true (last names "")) ++ fmt)%string])%list
      else names
  | None => names
  end.

(** An override [getOutputPath] can be given: none, or an extension. *)
Definition wellFormedOverride (customFormat : option string) : bool :=
  match customFormat with
  | Some fmt => negb (NodePath.nonEmpty fmt) || isExtension fmt
  | None => true
  end.

(** ** Vocabulary for the runs of the scripts *)

Section RunVocabulary.
Context {E : Externals}.

Definition noExit {A} (r : Outcome A * St) : Prop :=
  match fst r with Exit _ => False | _ => True end.

(** [m] never ends the process, and relates every state to the state it
    leaves by [R]. *)
Definition preserves (R : St -> St -> Prop) {A} (m : M A) : Prop :=
  forall s, noExit (m s) /\ R s (snd (m s)).

(** The three counters of [stats] are the same in both states. *)
Definition sameCounts (s s' : St) : Prop :=
  total (st_stats s') = total (st_stats s)
  /\ success (st_stats s') = success (st_stats s)
  /\ failed (st_stats s') = failed (st_stats s).

(** The trace of [s'] is the trace of [s] followed by events in [P]. *)
Definition traceGrows (P : Event -> Prop) (s s' : St) : Prop :=
  exists l, st_trace s' = (st_trace s ++ l)%list /\ Forall P l.

(** What a relation needs for [preserves] to follow the structure of a
    computation: [okE] are the events and [okF] the updates of [stats]
    it admits. *)
Class Frame (R : St -> St -> Prop) (okE : Event -> Prop)
  (okF : (Stats -> Stats) -> Prop) : Prop :=
  { frame_refl : forall s, R s s;
    frame_trans : forall s1 s2 s3, R s1 s2 -> R s2 s3 -> R s1 s3;
    frame_world : forall s w, R s (mkSt w (st_stats s) (st_trace s));
    frame_emit : forall s e, okE e ->
                   R s (mkSt (st_world s) (st_stats s) (st_trace s ++ [e]));
    frame_stats : forall s f, okF f ->
                    R s (mkSt (st_world s) (f (st_stats s)) (st_trace s)) }.

Definition keepsCounts (f : Stats -> Stats) : Prop :=
  forall st, total (f st) = total st /\ success (f st) = success st
             /\ failed (f st) = failed st.

(** A [try] block: it returns having counted one success, or throws with
    the counters as they were. *)
Definition countsSuccess (m : M unit) : Prop :=
  forall s,
    match m s with
    | (Ok _, s') =>
        total (st_stats s') = total (st_stats s)
        /\ success (st_stats s') = success (st_stats s) + 1
        /\ failed (st_stats s') = failed (st_stats s)
    | (Throw _, s') => sameCounts s s'
    | (Exit _, _) => False
    end.

Definition notExtract (e : Event) : Prop :=
  match e with SharpExtract _ => False | _ => True end.

(** [totalInputSize] is the same in both states. *)
Definition sameInputTotal (s s' : St) : Prop :=
  totalInputSize (st_stats s') = totalInputSize (st_stats s).

Definition keepsInputTotal (f : Stats -> Stats) : Prop :=
  forall st, totalInputSize (f st) = totalInputSize st.

End RunVocabulary.

(** The sum of a list of sizes. *)
Definition sumZ (l : list Z) : Z := fold_right Z.add 0 l.

(** The number of [true] in a list. *)
Fixpoint countTrue (l : list bool) : Z :=
  match l with
  | [] => 0
  | b :: l' => (if b then 1 else 0) + countTrue l'
  end.

(** ** Vocabulary of the further properties *)

Definition isPoolEvent (e : Event) : bool :=
  match e with
  | PoolOpen _ | PoolClose => true
  | _ => false
  end.

(** The events of the directory walk. *)
Definition scanEvent (e : Event) : Prop :=
  match e with
  | FsReaddir _ | FsStat _ => True
  | _ => False
  end.




Definition notPreprocess (e : Event) : Prop :=
  match e with
  | CodecPreprocess _ => False
  | _ => True
  end.

(** The path an event reads, the pool event it is, the path it writes:
    each as a list of none or one, to project a trace with [flat_map]. *)
Definition readOf (e : Event) : list string :=
  match e with
  | FsRead p => [p]
  | _ => []
  end.

Definition poolOf (e : Event) : list Event :=
  if isPoolEvent e then [e] else [].


Section FurtherRunVocabulary.
Context {E : Externals}.

(** [m] leaves the file system and [stats] as they are and does nothing
    but list directories and stat entries. *)
Definition onlyScans {A} (m : M A) : Prop :=
  forall s,
    st_world (snd (m s)) = st_world s
    /\ st_stats (snd (m s)) = st_stats s
    /\ exists l, st_trace (snd (m s)) = (st_trace s ++ l)%list
                 /\ Forall scanEvent l.

(** Every listing [readdirSync] gives in [w] consists of names, as Node's
    does: no entry is empty, ["."] or [".."], or contains a ['/']. *)
Definition listsNames (w : World) : Prop :=
  forall p items,
    fs_readdirSync p w = Returns items ->
    Forall (fun x => isName x = true) items.

(** The directories of the tree below [root] in [w]: [root], and every
    entry of a listed directory that [statSync] reports as one. *)
Inductive reaches (w : World) (root : string) : string -> Prop :=
| reaches_root : reaches w root root
| reaches_sub (cur : string) (items : list string) (item : string) :
    reaches w root cur ->
    fs_readdirSync cur w = Returns items ->
    In item items ->
    fs_statIsDirectory (NodePath.join [cur; item]) w = Returns true ->
    reaches w root (NodePath.join [cur; item]).

(** [f] is an entry of a directory of the tree below [root] that is not a
    directory and whose lower-cased extension is one of [formats]. *)
Definition matchingFile (formats : list string) (w : World) (root f : string)
  : Prop :=
  exists cur items item,
    reaches w root cur
    /\ fs_readdirSync cur w = Returns items
    /\ In item items
    /\ f = NodePath.join [cur; item]
    /\ fs_statIsDirectory f w = Returns false
    /\ includes formats (toLowerCase (NodePath.extname item)) = true.

(** The events [s'] has after those of [s] project to [xs] under [g]. *)
Definition tracePart {X} (g : Event -> list X) (xs : list X) (s s' : St)
  : Prop :=
  exists l, st_trace s' = (st_trace s ++ l)%list /\ flat_map g l = xs.

(** [m] always returns. *)
Definition returns {A} (m : M A) : Prop :=
  forall s, exists a, fst (m s) = Ok a.

End FurtherRunVocabulary.

(** [n] copies of [l], one after the other. *)
Fixpoint repeatList {A} (n : nat) (l : list A) : list A :=
  match n with
  | O => []
  | S n' => (l ++ repeatList n' l)%list
  end.

(* ================================================================= *)
(** * Properties *)

(** ** Strings and segments *)

Section PathFacts.
Import NodePath.

Lemma append_assoc (a b c : string) : (a ++ b) ++ c = a ++ (b ++ c).
Proof. induction a as [|x a IH]; simpl; [reflexivity | now rewrite IH]. Qed.

Lemma length_append (a b : string) :
  String.length (a ++ b) = (String.length a + String.length b)%nat.
Proof. induction a as [|x a IH]; simpl; [reflexivity | now rewrite IH]. Qed.

Lemma split_not_nil (s : string) : split s <> [].
Proof.
  destruct s as [|c s]; simpl; [discriminate|].
  destruct (isSlash c); [discriminate|].
  destruct (split s); discriminate.
Qed.

Lemma split_app_slash (a b : string) :
  split (a ++ String "/" b) = (split a ++ split b)%list.
Proof.
  induction a as [|c a IH]; simpl; [reflexivity|].
  destruct (isSlash c); [now rewrite IH|].
  rewrite IH. destruct (split a) as [|h t] eqn:Hs; [|reflexivity].
  now apply split_not_nil in Hs.
Qed.

Lemma split_noSlash (s : string) : hasSlash s = false -> split s = [s].
Proof.
  induction s as [|c s IH]; simpl; [reflexivity|].
  intros H. apply orb_false_iff in H as [Hc Hs].
  rewrite Hc, (IH Hs). reflexivity.
Qed.

Lemma split_all_noSlash (s : string) :
  Forall (fun x => hasSlash x = false) (split s).
Proof.
  induction s as [|c s IH]; simpl; [repeat constructor|].
  destruct (isSlash c) eqn:Hc; [constructor; [reflexivity | exact IH]|].
  destruct (split s) as [|h t]; [repeat constructor; simpl; now rewrite Hc|].
  inversion IH; subst. constructor; [simpl; now rewrite Hc | assumption].
Qed.

Lemma concat_cons (x : string) (xs : list string) :
  xs <> [] -> String.concat "/" (x :: xs) = x ++ String "/" (String.concat "/" xs).
Proof. destruct xs; [congruence | reflexivity]. Qed.

Lemma concat_app (xs ys : list string) :
  xs <> [] -> ys <> [] ->
  String.concat "/" (xs ++ ys)
  = String.concat "/" xs ++ String "/" (String.concat "/" ys).
Proof.
  induction xs as [|x xs IH]; [congruence|]. intros _ Hy.
  destruct xs as [|x' xs].
  - simpl app. now rewrite concat_cons.
  - change ((x :: x' :: xs) ++ ys)%list with (x :: ((x' :: xs) ++ ys))%list.
    rewrite concat_cons by discriminate.
    rewrite IH by (discriminate || assumption).
    rewrite (concat_cons x (x' :: xs)) by discriminate.
    now rewrite append_assoc.
Qed.

Lemma split_concat (segs : list string) :
  segs <> [] -> Forall (fun x => hasSlash x = false) segs ->
  split (String.concat "/" segs) = segs.
Proof.
  induction segs as [|x xs IH]; [congruence|]. intros _ H.
  inversion H as [|? ? Hx Hxs]; subst.
  destruct xs as [|x' xs]; [now apply split_noSlash|].
  rewrite concat_cons by discriminate.
  rewrite split_app_slash, (split_noSlash _ Hx), IH by (discriminate || assumption).
  reflexivity.
Qed.

(** *** Normalisation of segment lists *)

Lemma isName_inv (s : string) :
  isName s = true ->
  nonEmpty s = true /\ hasSlash s = false /\ s <> "." /\ s <> "..".
Proof.
  unfold isName. intros H.
  repeat (apply andb_true_iff in H as [H ?]).
  repeat split; try assumption.
  - now apply negb_true_iff.
  - apply String.eqb_neq. now apply negb_true_iff.
  - apply String.eqb_neq. now apply negb_true_iff.
Qed.

Lemma isName_regular (s : string) : isName s = true -> regular s.
Proof.
  intros H. destruct (isName_inv s H) as (Hn & _ & Hd & Hdd).
  repeat split; try assumption. intros ->. discriminate.
Qed.

Lemma names_regular (l : list string) :
  Forall (fun s => isName s = true) l -> Forall regular l.
Proof. intros H. eapply Forall_impl; [|exact H]. apply isName_regular. Qed.

Lemma names_noSlash (l : list string) :
  Forall (fun s => isName s = true) l -> Forall (fun x => hasSlash x = false) l.
Proof.
  intros H. eapply Forall_impl; [|exact H].
  intros s Hs. now destruct (isName_inv s Hs) as (_ & ? & _).
Qed.

Lemma normStep_skip (a : bool) (res : list string) (x : string) :
  x = "" \/ x = "." -> normStep a res x = res.
Proof. intros [-> | ->]; reflexivity. Qed.

Lemma normStep_regular (a : bool) (res : list string) (x : string) :
  regular x -> normStep a res x = (res ++ [x])%list.
Proof.
  intros (H1 & H2 & H3). unfold normStep.
  apply String.eqb_neq in H1, H2, H3. now rewrite H1, H2, H3.
Qed.

Lemma normStep_dotdot_pop (a : bool) (res : list string) (l : string) :
  l <> ".." -> normStep a (res ++ [l]) ".." = res.
Proof.
  intros H. unfold normStep. simpl.
  rewrite rev_app_distr. simpl.
  apply String.eqb_neq in H. rewrite H. apply rev_involutive.
Qed.

Lemma fold_regular (a : bool) (xs acc : list string) :
  Forall regular xs -> fold_left (normStep a) xs acc = (acc ++ xs)%list.
Proof.
  revert acc. induction xs as [|x xs IH]; intros acc H; simpl.
  - now rewrite app_nil_r.
  - inversion H; subst. rewrite normStep_regular, IH by assumption.
    now rewrite <- app_assoc.
Qed.

Lemma normStep_clean (a : bool) (res : list string) (x : string) :
  Forall clean res -> Forall clean (normStep a res x).
Proof.
  intros H. unfold normStep.
  destruct (x =? "")%string eqn:H1; [exact H|].
  destruct (x =? ".")%string eqn:H2; [exact H|]. simpl.
  assert (Hdd : clean "..") by (split; discriminate).
  destruct (x =? "..")%string eqn:H3.
  - destruct (rev res) as [|l before] eqn:Hr.
    + destruct a; repeat constructor; apply Hdd.
    + destruct (l =? "..")%string.
      * destruct a; [|exact H]. apply Forall_app; split; [exact H|].
        repeat constructor; apply Hdd.
      * apply Forall_rev in H. rewrite Hr in H. inversion H; subst.
        now apply Forall_rev.
  - apply Forall_app; split; [exact H|]. repeat constructor.
    + now apply String.eqb_neq.
    + now apply String.eqb_neq.
Qed.

Lemma fold_clean (a : bool) (xs acc : list string) :
  Forall clean acc -> Forall clean (fold_left (normStep a) xs acc).
Proof.
  revert acc. induction xs as [|x xs IH]; intros acc H; simpl; [exact H|].
  apply IH. now apply normStep_clean.
Qed.

Lemma normStep_false_regular (res : list string) (x : string) :
  Forall regular res -> Forall regular (normStep false res x).
Proof.
  intros H. unfold normStep.
  destruct (x =? "")%string eqn:H1; [exact H|].
  destruct (x =? ".")%string eqn:H2; [exact H|]. simpl.
  destruct (x =? "..")%string eqn:H3.
  - destruct (rev res) as [|l before] eqn:Hr; [constructor|].
    destruct (l =? "..")%string; [exact H|].
    apply Forall_rev in H. rewrite Hr in H. inversion H; subst.
    now apply Forall_rev.
  - apply Forall_app; split; [exact H|]. repeat constructor;
      now apply String.eqb_neq.
Qed.

Lemma normalizeSegs_false_regular (xs : list string) :
  Forall regular (normalizeSegs false xs).
Proof.
  unfold normalizeSegs. generalize (@nil string) (@Forall_nil string regular).
  induction xs as [|x xs IH]; intros acc H; simpl; [exact H|].
  apply IH. now apply normStep_false_regular.
Qed.

(** Folding a list that is already normalised (relative to nothing) gives
    what folding the original list gives. *)
Lemma fold_normalized (a : bool) (xs acc : list string) :
  fold_left (normStep a) (normalizeSegs true xs) acc
  = fold_left (normStep a) xs acc.
Proof.
  induction xs as [|x xs IH] using rev_ind; [reflexivity|].
  unfold normalizeSegs in *. rewrite !fold_left_app. simpl.
  rewrite <- IH.
  set (R := fold_left (normStep true) xs []).
  assert (HR : Forall clean R) by (apply fold_clean; constructor).
  clearbody R. clear IH.
  destruct (String.eqb_spec x "") as [->|H1]; [reflexivity|].
  destruct (String.eqb_spec x ".") as [->|H2]; [reflexivity|].
  destruct (String.eqb_spec x "..") as [->|H3].
  - destruct R as [|r R'] using rev_ind; [reflexivity|]. clear IHR'.
    destruct (String.eqb_spec r "..") as [->|Hr].
    + replace (normStep true (R' ++ [".."]) "..") with (R' ++ [".."; ".."])%list.
      * change [".."; ".."] with ([".."] ++ [".."])%list.
        rewrite app_assoc, fold_left_app. reflexivity.
      * unfold normStep. simpl. rewrite rev_app_distr. simpl.
        now rewrite <- app_assoc.
    + rewrite normStep_dotdot_pop by assumption.
      rewrite fold_left_app. simpl.
      apply Forall_app in HR as [_ HR]. inversion HR as [|? ? [Hr1 Hr2] _]; subst.
      rewrite (normStep_regular a _ r) by (repeat split; assumption).
      now rewrite normStep_dotdot_pop.
  - rewrite (normStep_regular true) by (repeat split; assumption).
    rewrite fold_left_app. reflexivity.
Qed.

Lemma normStep_noSlash (a : bool) (res : list string) (x : string) :
  hasSlash x = false -> Forall (fun s => hasSlash s = false) res ->
  Forall (fun s => hasSlash s = false) (normStep a res x).
Proof.
  intros Hx H. unfold normStep.
  destruct ((x =? "")%string || (x =? ".")%string); [exact H|].
  destruct (x =? "..")%string.
  - destruct (rev res) as [|l before] eqn:Hr.
    + destruct a; repeat constructor.
    + destruct (l =? "..")%string.
      * destruct a; [|exact H]. apply Forall_app; split; [exact H|].
        repeat constructor.
      * apply Forall_rev in H. rewrite Hr in H. inversion H; subst.
        now apply Forall_rev.
  - apply Forall_app; split; [exact H|]. now repeat constructor.
Qed.

Lemma fold_noSlash (a : bool) (xs acc : list string) :
  Forall (fun s => hasSlash s = false) xs ->
  Forall (fun s => hasSlash s = false) acc ->
  Forall (fun s => hasSlash s = false) (fold_left (normStep a) xs acc).
Proof.
  revert acc. induction xs as [|x xs IH]; intros acc Hx H; simpl; [exact H|].
  inversion Hx; subst. apply IH; [assumption|]. now apply normStep_noSlash.
Qed.

Lemma fold_snoc_empty (a : bool) (xs acc : list string) :
  fold_left (normStep a) (xs ++ [""]) acc = fold_left (normStep a) xs acc.
Proof. now rewrite fold_left_app. Qed.

(** *** The strings of segment lists *)

Lemma nonEmpty_append_l (a b : string) : nonEmpty a = true -> nonEmpty (a ++ b) = true.
Proof. destruct a; [discriminate | reflexivity]. Qed.

Lemma nonEmpty_append_r (a b : string) : nonEmpty b = true -> nonEmpty (a ++ b) = true.
Proof. destruct a; [simpl; trivial | reflexivity]. Qed.

Lemma clean_nonEmpty (s : string) : clean s -> nonEmpty s = true.
Proof. intros [H _]. destruct s; [congruence | reflexivity]. Qed.

Lemma concat_nonEmpty (l : list string) :
  l <> [] -> Forall (fun s => nonEmpty s = true) l ->
  nonEmpty (String.concat "/" l) = true.
Proof.
  destruct l as [|x l]; [congruence|]. intros _ H. inversion H; subst.
  destruct l; [assumption|]. rewrite concat_cons by discriminate.
  now apply nonEmpty_append_l.
Qed.

Lemma isAbsolute_append (a b : string) :
  nonEmpty a = true -> isAbsolute (a ++ b) = isAbsolute a.
Proof. destruct a; [discriminate | reflexivity]. Qed.

Lemma noSlash_not_absolute (a : string) : hasSlash a = false -> isAbsolute a = false.
Proof.
  destruct a; [reflexivity|]. simpl. intros H.
  now apply orb_false_iff in H as [H _].
Qed.

Lemma concat_not_absolute (l : list string) :
  Forall (fun s => nonEmpty s = true) l ->
  Forall (fun s => hasSlash s = false) l ->
  isAbsolute (String.concat "/" l) = false.
Proof.
  destruct l as [|x l]; [reflexivity|]. intros Hn Hs.
  inversion Hn; inversion Hs; subst.
  destruct l; [now apply noSlash_not_absolute|].
  rewrite concat_cons by discriminate.
  rewrite isAbsolute_append by assumption. now apply noSlash_not_absolute.
Qed.

Lemma endsWithSlash_append (a b : string) :
  nonEmpty b = true -> endsWithSlash (a ++ b) = endsWithSlash b.
Proof.
  intros Hb. induction a as [|c a IH]; [reflexivity|].
  simpl. rewrite IH. destruct (a ++ b) eqn:Hab; [|reflexivity].
  apply (nonEmpty_append_r a) in Hb. rewrite Hab in Hb. discriminate.
Qed.

Lemma noSlash_endsWithSlash (a : string) : hasSlash a = false -> endsWithSlash a = false.
Proof.
  induction a as [|c a IH]; [reflexivity|]. simpl. intros H.
  apply orb_false_iff in H as [Hc Ha]. destruct a; [exact Hc | now apply IH].
Qed.

(** *** [normalize], [resolve] and [join] on segments *)

Lemma normalizeSegs_noSlash (a : bool) (p : string) :
  Forall (fun s => hasSlash s = false) (normalizeSegs a (split p)).
Proof. apply fold_noSlash; [apply split_all_noSlash | constructor]. Qed.

Lemma normalizeSegs_nonEmpty (a : bool) (xs : list string) :
  Forall (fun s => nonEmpty s = true) (normalizeSegs a xs).
Proof.
  eapply Forall_impl; [apply clean_nonEmpty|].
  apply fold_clean. constructor.
Qed.

Lemma split_slash_cons (q : string) : split (String "/" q) = "" :: split q.
Proof. reflexivity. Qed.

Lemma split_snoc_slash (q : string) : split (q ++ "/") = (split q ++ [""])%list.
Proof. apply (split_app_slash q ""). Qed.

(** Normalising a path first does not change what a later fold over its
    segments produces. *)
Lemma fold_split_normalize (a : bool) (acc : list string) (p : string) :
  (isAbsolute p = true -> a = false /\ acc = []) ->
  fold_left (normStep a) (split (normalize p)) acc
  = fold_left (normStep a) (split p) acc.
Proof.
  intros Habs. destruct p as [|c p']; [reflexivity|].
  remember (String c p') as p eqn:Ep.
  assert (Hp : nonEmpty p = true) by (subst; reflexivity).
  clear Ep c p'.
  assert (Htarget : fold_left (normStep a) (split p) acc
                    = fold_left (normStep a)
                        (normalizeSegs (negb (isAbsolute p)) (split p)) acc).
  { destruct (isAbsolute p) eqn:Hab.
    - destruct (Habs eq_refl) as [-> ->]. simpl negb.
      rewrite (fold_regular false (normalizeSegs false (split p)))
        by apply normalizeSegs_false_regular.
      reflexivity.
    - simpl negb. now rewrite fold_normalized. }
  rewrite Htarget. clear Htarget.
  unfold normalize, normalizeString. rewrite Hp. simpl negb at 1.
  cbv iota.
  pose proof (normalizeSegs_noSlash (negb (isAbsolute p)) p) as Hns.
  pose proof (normalizeSegs_nonEmpty (negb (isAbsolute p)) (split p)) as Hne.
  destruct (normalizeSegs (negb (isAbsolute p)) (split p)) as [|r R'] eqn:HR.
  - simpl. destruct (isAbsolute p); [reflexivity|].
    destruct (endsWithSlash p); reflexivity.
  - rewrite concat_nonEmpty by (discriminate || assumption). simpl negb. cbv iota.
    assert (Hq : forall t : bool,
               fold_left (normStep a)
                 (split (if t then String.concat "/" (r :: R') ++ "/"
                         else String.concat "/" (r :: R'))) acc
               = fold_left (normStep a) (r :: R') acc).
    { intros [|].
      - rewrite split_snoc_slash, fold_snoc_empty.
        now rewrite split_concat by (discriminate || assumption).
      - now rewrite split_concat by (discriminate || assumption). }
    destruct (isAbsolute p).
    + change ("/" ++ ?q) with (String "/" q).
      rewrite split_slash_cons. cbn [fold_left].
      rewrite (normStep_skip a acc "") by now left.
      apply Hq.
    + apply Hq.
Qed.

Lemma isAbsolute_normalize (p : string) :
  nonEmpty p = true -> isAbsolute (normalize p) = isAbsolute p.
Proof.
  intros Hp. unfold normalize, normalizeString. rewrite Hp. simpl negb. cbv iota.
  pose proof (normalizeSegs_noSlash (negb (isAbsolute p)) p) as Hns.
  pose proof (normalizeSegs_nonEmpty (negb (isAbsolute p)) (split p)) as Hne.
  destruct (normalizeSegs (negb (isAbsolute p)) (split p)) as [|r R'] eqn:HR.
  - simpl. destruct (isAbsolute p); [reflexivity|].
    destruct (endsWithSlash p); reflexivity.
  - rewrite concat_nonEmpty by (discriminate || assumption). simpl negb. cbv iota.
    destruct (isAbsolute p); [reflexivity|].
    destruct (endsWithSlash p).
    + rewrite isAbsolute_append
        by (apply concat_nonEmpty; (discriminate || assumption)).
      now apply concat_not_absolute.
    + now apply concat_not_absolute.
Qed.

Section AbsoluteCwd.
Variable cwd : string.
Hypothesis cwd_absolute : isAbsolute cwd = true.

Lemma cwd_nonEmpty : nonEmpty cwd = true.
Proof. destruct cwd; [discriminate | reflexivity]. Qed.

(** The segments [path.resolve] ends with. *)
Lemma resolveSegs_spec (p : string) :
  resolveSegs cwd p
  = if isAbsolute p then normalizeSegs false (split p)
    else fold_left (normStep false) (split p) (normalizeSegs false (split cwd)).
Proof.
  unfold resolveSegs, resolveInput.
  destruct (isAbsolute p) eqn:Hp.
  - destruct p; [discriminate|]. change (nonEmpty (String a p)) with true.
    cbv iota. simpl negb. unfold normalizeSegs.
    now rewrite split_snoc_slash, fold_snoc_empty.
  - rewrite cwd_nonEmpty, cwd_absolute. simpl negb. unfold normalizeSegs.
    change ("/" ++ ?q) with (String "/" q).
    rewrite split_app_slash, fold_left_app.
    destruct p; [reflexivity|]. change (nonEmpty (String a p)) with true.
    cbv iota. now rewrite split_snoc_slash, fold_snoc_empty.
Qed.

Lemma resolve_spec (p : string) :
  resolve cwd p = "/" ++ String.concat "/" (resolveSegs cwd p).
Proof.
  unfold resolve. unfold resolveInput at 1.
  destruct (isAbsolute p); [reflexivity|].
  now rewrite cwd_nonEmpty, cwd_absolute.
Qed.

Lemma resolveSegs_normalize (p : string) :
  resolveSegs cwd (normalize p) = resolveSegs cwd p.
Proof.
  rewrite !resolveSegs_spec.
  destruct p as [|c p']; [reflexivity|].
  rewrite isAbsolute_normalize by reflexivity.
  destruct (isAbsolute (String c p')) eqn:Hp.
  - apply fold_split_normalize. now intros _.
  - apply fold_split_normalize. rewrite Hp. discriminate.
Qed.

Lemma names_nonEmpty (l : list string) :
  Forall (fun s => isName s = true) l -> Forall (fun s => nonEmpty s = true) l.
Proof.
  intros H. eapply Forall_impl; [|exact H].
  intros s Hs. now destruct (isName_inv s Hs) as (? & _).
Qed.

(** [path.join(a, n1/n2/...)] resolves to [a] followed by the names. *)
Lemma resolveSegs_join (a : string) (names : list string) :
  names <> [] -> Forall (fun s => isName s = true) names ->
  resolveSegs cwd (join [a; String.concat "/" names])
  = (resolveSegs cwd a ++ names)%list.
Proof.
  intros Hne Hnames.
  pose proof (names_noSlash _ Hnames) as Hns.
  pose proof (names_nonEmpty _ Hnames) as Hnn.
  pose proof (names_regular _ Hnames) as Hreg.
  unfold join. simpl filter.
  rewrite (concat_nonEmpty names) by assumption.
  destruct a as [|c a'].
  - simpl. rewrite resolveSegs_normalize, !resolveSegs_spec.
    rewrite concat_not_absolute by assumption. simpl.
    rewrite split_concat by assumption.
    rewrite (normStep_skip false _ "") by now left.
    now apply fold_regular.
  - remember (String c a') as a eqn:Ea.
    assert (Ha : nonEmpty a = true) by (subst; reflexivity).
    rewrite Ha. clear Ea c a'.
    change (String.concat "/" [a; String.concat "/" names])
      with (a ++ String "/" (String.concat "/" names)).
    rewrite resolveSegs_normalize, !resolveSegs_spec.
    rewrite isAbsolute_append by assumption.
    rewrite split_app_slash, split_concat by assumption.
    destruct (isAbsolute a); unfold normalizeSegs;
      rewrite fold_left_app; now apply fold_regular.
Qed.

(** The three-argument call of [getOutputPath]. *)
Lemma join_dir_base (a : string) (ds : list string) (b : string) :
  Forall (fun s => isName s = true) ds -> nonEmpty b = true ->
  join [a; String.concat "/" ds; b] = join [a; String.concat "/" (ds ++ [b])].
Proof.
  intros Hds Hb. pose proof (names_nonEmpty _ Hds) as Hnn. unfold join.
  destruct ds as [|d ds].
  - simpl. rewrite Hb. reflexivity.
  - assert (H1 : nonEmpty (String.concat "/" (d :: ds)) = true)
      by (apply concat_nonEmpty; [discriminate | assumption]).
    assert (H2 : nonEmpty (String.concat "/" ((d :: ds) ++ [b])) = true).
    { rewrite concat_app by discriminate. now apply nonEmpty_append_l. }
    cbn [filter]. rewrite H1, H2, Hb.
    rewrite (concat_app (d :: ds) [b]) by discriminate.
    destruct (nonEmpty a); cbn [String.concat];
      change ("/" ++ ?q) with (String "/" q); reflexivity.
Qed.

Lemma stripCommon_prefix (xs ys : list string) :
  ys <> [] -> stripCommon xs (xs ++ ys) = ([], ys).
Proof.
  intros Hy. induction xs as [|x xs IH]; simpl.
  - destruct ys; [congruence | reflexivity].
  - now rewrite String.eqb_refl.
Qed.

Lemma concat_longer (xs ys : list string) :
  ys <> [] -> Forall (fun s => nonEmpty s = true) ys ->
  String.concat "/" xs <> String.concat "/" (xs ++ ys).
Proof.
  intros Hy Hn Heq. apply (f_equal String.length) in Heq.
  destruct xs as [|x xs].
  - simpl in Heq. pose proof (concat_nonEmpty ys Hy Hn) as H.
    destruct (String.concat "/" ys); [discriminate | simpl in Heq; discriminate].
  - rewrite concat_app in Heq by (discriminate || assumption).
    rewrite length_append in Heq. simpl in Heq. lia.
Qed.

(** A path that resolves to [root] followed by names has exactly those
    names as its path relative to [root]. *)
Lemma relative_descendant (root p : string) (names : list string) :
  descendantBy cwd root p names ->
  relative cwd root p = String.concat "/" names.
Proof.
  intros (Hne & Hnames & Hseg). unfold relative.
  pose proof (names_nonEmpty _ Hnames) as Hnn.
  assert (Hres : resolve cwd root <> resolve cwd p).
  { rewrite !resolve_spec, Hseg. intros H. injection H as H.
    now apply concat_longer in H. }
  destruct (String.eqb_spec root p) as [->|_]; [congruence|].
  destruct (String.eqb_spec (resolve cwd root) (resolve cwd p)) as [|_];
    [congruence|].
  rewrite Hseg, stripCommon_prefix by assumption. reflexivity.
Qed.

End AbsoluteCwd.

(** *** [parse] and extensions *)

Lemma dropTrailingEmpty_snoc (ds : list string) (b : string) :
  nonEmpty b = true -> dropTrailingEmpty (ds ++ [b]) = (ds ++ [b])%list.
Proof.
  intros Hb. unfold dropTrailingEmpty. rewrite rev_app_distr. simpl.
  rewrite Hb. simpl. now rewrite rev_involutive.
Qed.

Lemma parse_names (ds : list string) (b : string) :
  Forall (fun s => isName s = true) ds -> isName b = true ->
  parse (String.concat "/" (ds ++ [b]))
  = mkParsed "" (String.concat "/" ds) b
      (snd (splitExt true b)) (fst (splitExt true b)).
Proof.
  intros Hds Hb.
  assert (Hall : Forall (fun s => isName s = true) (ds ++ [b]))
    by (apply Forall_app; split; [assumption | now repeat constructor]).
  assert (Hne : (ds ++ [b])%list <> []) by (now destruct ds).
  destruct (isName_inv b Hb) as (Hbn & _).
  unfold parse.
  rewrite concat_nonEmpty by (assumption || now apply names_nonEmpty).
  rewrite concat_not_absolute by (now apply names_nonEmpty || now apply names_noSlash).
  simpl negb. cbv iota.
  rewrite split_concat by (assumption || now apply names_noSlash).
  rewrite dropTrailingEmpty_snoc by assumption.
  rewrite rev_app_distr. simpl.
  destruct (splitExt true b) as [n e]. simpl.
  destruct ds as [|d ds] using rev_ind; [reflexivity|].
  rewrite rev_involutive, rev_app_distr. reflexivity.
Qed.

Lemma hasSlash_append (a b : string) : hasSlash (a ++ b) = hasSlash a || hasSlash b.
Proof.
  induction a as [|c a IH]; [reflexivity|]. simpl. now rewrite IH, orb_assoc.
Qed.

Lemma noDot_splitLastDot (b : string) : hasDot b = false -> splitLastDot b = None.
Proof.
  induction b as [|c b IH]; [reflexivity|]. simpl. intros H.
  apply orb_false_iff in H as [Hc Hb]. now rewrite (IH Hb), Hc.
Qed.

Lemma splitLastDot_some (b n e : string) :
  splitLastDot b = Some (n, e) -> b = n ++ e.
Proof.
  revert n e. induction b as [|c b IH]; [discriminate|]. simpl. intros n e.
  destruct (splitLastDot b) as [[n' e']|].
  - intros H. injection H as <- <-. simpl. now rewrite <- (IH n' e').
  - destruct (isDot c); [|discriminate]. intros H. now injection H as <- <-.
Qed.

Lemma splitLastDot_append (n e : string) :
  hasDot e = false ->
  splitLastDot (n ++ String "." e) = Some (n, String "." e).
Proof.
  intros He. induction n as [|c n IH]; simpl.
  - now rewrite (noDot_splitLastDot e He).
  - now rewrite IH.
Qed.

Lemma splitExt_name (b : string) :
  nonEmpty b = true -> hasSlash b = false ->
  nonEmpty (fst (splitExt true b)) = true
  /\ hasSlash (fst (splitExt true b)) = false.
Proof.
  intros Hb Hs. unfold splitExt.
  destruct (splitLastDot b) as [[n e]|] eqn:Hd; [|now split].
  destruct (nonEmpty n) eqn:Hn; simpl; [|now split].
  destruct (b =? "..")%string; simpl; [now split|].
  split; [assumption|]. apply splitLastDot_some in Hd. subst b.
  rewrite hasSlash_append in Hs. now apply orb_false_iff in Hs as [? _].
Qed.

Lemma isExtension_inv (fmt : string) :
  isExtension fmt = true ->
  exists e, fmt = String "." e /\ nonEmpty e = true
            /\ hasSlash e = false /\ hasDot e = false.
Proof.
  destruct fmt as [|c e]; [discriminate|]. simpl. intros H.
  repeat (apply andb_true_iff in H as [H ?]).
  exists e. unfold isDot in H. apply Ascii.eqb_eq in H. subst c.
  repeat split; try assumption; now apply negb_true_iff.
Qed.

Lemma long_not_dots (s : string) :
  (3 <= String.length s)%nat -> s <> "." /\ s <> "..".
Proof. intros H; split; intros ->; simpl in H; lia. Qed.

Lemma length_nonEmpty (s : string) : nonEmpty s = true -> (1 <= String.length s)%nat.
Proof. destruct s; [discriminate | simpl; lia]. Qed.

Lemma isName_with_extension (n fmt : string) :
  nonEmpty n = true -> hasSlash n = false -> isExtension fmt = true ->
  isName (n ++ fmt) = true.
Proof.
  intros Hn Hs Hf. destruct (isExtension_inv fmt Hf) as (e & -> & He & Hes & _).
  assert (Hlen : (3 <= String.length (n ++ String "." e))%nat).
  { rewrite length_append. simpl.
    apply length_nonEmpty in Hn, He. lia. }
  destruct (long_not_dots _ Hlen) as [H1 H2].
  unfold isName. rewrite nonEmpty_append_l, hasSlash_append, Hs by assumption.
  simpl. rewrite Hes. apply String.eqb_neq in H1, H2. now rewrite H1, H2.
Qed.

Lemma splitExt_with_extension (n fmt : string) :
  nonEmpty n = true -> isExtension fmt = true ->
  splitExt true (n ++ fmt) = (n, fmt).
Proof.
  intros Hn Hf. destruct (isExtension_inv fmt Hf) as (e & -> & He & _ & Hed).
  unfold splitExt. rewrite splitLastDot_append, Hn by assumption. simpl.
  assert (Hlen : (3 <= String.length (n ++ String "." e))%nat).
  { rewrite length_append. simpl.
    apply length_nonEmpty in Hn, He. lia. }
  destruct (long_not_dots _ Hlen) as [_ H2].
  apply String.eqb_neq in H2. now rewrite H2.
Qed.

Lemma extname_shape (pre : string) (rb : list string) (b : string) :
  pre = "" \/ pre = "/" ->
  Forall (fun s => hasSlash s = false) rb ->
  hasSlash b = false -> nonEmpty b = true ->
  extname (pre ++ String.concat "/" (rb ++ [b])) = snd (splitExt true b).
Proof.
  intros Hpre Hrb Hbs Hbn.
  assert (Hall : Forall (fun s => hasSlash s = false) (rb ++ [b]))
    by (apply Forall_app; split; [assumption | now repeat constructor]).
  assert (Hne : (rb ++ [b])%list <> []) by (now destruct rb).
  unfold extname. destruct Hpre as [-> | ->].
  - simpl append. rewrite split_concat, dropTrailingEmpty_snoc by assumption.
    rewrite rev_app_distr. reflexivity.
  - change ("/" ++ ?q) with (String "/" q).
    rewrite split_slash_cons, split_concat by assumption.
    change ("" :: rb ++ [b])%list with (("" :: rb) ++ [b])%list.
    rewrite dropTrailingEmpty_snoc by assumption.
    rewrite rev_app_distr. reflexivity.
Qed.

(** The string [path.join(a, n1/n2/...)] returns: the normalised segments
    of [a], then the names, with a leading slash when [a] is absolute. *)
Lemma join_shape (a : string) (names : list string) :
  names <> [] -> Forall (fun s => isName s = true) names ->
  exists pre ra,
    join [a; String.concat "/" names] = pre ++ String.concat "/" (ra ++ names)
    /\ (pre = "" \/ pre = "/")
    /\ Forall (fun s => hasSlash s = false) ra.
Proof.
  intros Hne Hnames.
  pose proof (names_noSlash _ Hnames) as Hns.
  pose proof (names_nonEmpty _ Hnames) as Hnn.
  pose proof (names_regular _ Hnames) as Hreg.
  assert (Hlast : endsWithSlash (String.concat "/" names) = false).
  { destruct names as [|d ds] using rev_ind; [congruence|]. clear IHds.
    apply Forall_app in Hns as [_ Hb]. apply Forall_app in Hnn as [_ Hb'].
    inversion Hb; inversion Hb'; subst.
    destruct ds as [|d' ds]; [now apply noSlash_endsWithSlash|].
    rewrite concat_app by discriminate.
    change (String "/" ?q) with ("/" ++ q). rewrite <- append_assoc.
    rewrite endsWithSlash_append by assumption.
    now apply noSlash_endsWithSlash. }
  assert (Shape : forall x : string,
             nonEmpty x = true -> endsWithSlash x = false ->
             forall ra, normalizeSegs (negb (isAbsolute x)) (split x)
                        = (ra ++ names)%list ->
             Forall (fun s => hasSlash s = false) ra ->
             exists pre ra0,
               normalize x = pre ++ String.concat "/" (ra0 ++ names)
               /\ (pre = "" \/ pre = "/")
               /\ Forall (fun s => hasSlash s = false) ra0).
  { intros x Hx Hend ra HR Hra. unfold normalize, normalizeString.
    rewrite Hx, Hend, HR. simpl negb. cbv iota.
    rewrite concat_nonEmpty.
    - simpl negb. cbv iota. destruct (isAbsolute x).
      + exists "/", ra. auto.
      + exists "", ra. auto.
    - now destruct ra.
    - rewrite <- HR. apply normalizeSegs_nonEmpty. }
  unfold join. simpl filter.
  rewrite (concat_nonEmpty names) by assumption.
  destruct (nonEmpty a) eqn:Ha.
  - change (String.concat "/" [a; String.concat "/" names])
      with (a ++ String "/" (String.concat "/" names)).
    apply (Shape _ (nonEmpty_append_l _ _ Ha)) with
      (ra := normalizeSegs (negb (isAbsolute a)) (split a)).
    + change (String "/" ?q) with ("/" ++ q). rewrite <- append_assoc.
      now rewrite endsWithSlash_append by (now apply concat_nonEmpty).
    + rewrite isAbsolute_append by assumption.
      rewrite split_app_slash, split_concat by assumption.
      unfold normalizeSegs. rewrite fold_left_app. now apply fold_regular.
    + apply normalizeSegs_noSlash.
  - change (String.concat "/" [String.concat "/" names])
      with (String.concat "/" names).
    apply (Shape _ (concat_nonEmpty _ Hne Hnn) Hlast) with (ra := []).
    + rewrite split_concat by assumption. unfold normalizeSegs.
      now apply fold_regular.
    + constructor.
Qed.

Lemma extname_join (a : string) (ds : list string) (b : string) :
  Forall (fun s => isName s = true) ds -> isName b = true ->
  extname (join [a; String.concat "/" (ds ++ [b])]) = snd (splitExt true b).
Proof.
  intros Hds Hb.
  assert (Hall : Forall (fun s => isName s = true) (ds ++ [b]))
    by (apply Forall_app; split; [assumption | now repeat constructor]).
  assert (Hne : (ds ++ [b])%list <> []) by (now destruct ds).
  destruct (join_shape a _ Hne Hall) as (pre & ra & -> & Hpre & Hra).
  destruct (isName_inv b Hb) as (Hbn & Hbs & _).
  rewrite app_assoc. apply extname_shape; try assumption.
  apply Forall_app; split; [assumption | now apply names_noSlash].
Qed.

(** *** [getOutputPath] *)

Lemma withExtension_snoc (customFormat : option string) (ds : list string)
  (b : string) :
  withExtension customFormat (ds ++ [b])
  = (ds ++ [overrideBase customFormat b])%list.
Proof.
  unfold withExtension, overrideBase.
  destruct customFormat as [fmt|]; [|reflexivity].
  destruct (nonEmpty fmt); [|reflexivity].
  now rewrite removelast_last, last_last.
Qed.

Lemma getOutputPath_join (cwd : string) (cfg : BaseConfig) (p : string)
  (customFormat : option string) (names : list string) :
  isAbsolute cwd = true ->
  descendantBy cwd (inputDir cfg) p names ->
  wellFormedOverride customFormat = true ->
  getOutputPath cwd cfg p customFormat
  = join [outputDir cfg; String.concat "/" (withExtension customFormat names)]
  /\ withExtension customFormat names <> []
  /\ Forall (fun s => isName s = true) (withExtension customFormat names).
Proof.
  intros Hcwd Hdesc Hfmt. unfold getOutputPath.
  rewrite (relative_descendant cwd Hcwd _ _ _ Hdesc).
  destruct Hdesc as (Hne & Hnames & _).
  destruct names as [|b ds] using rev_ind; [congruence|]. clear IHds.
  apply Forall_app in Hnames as [Hds Hb]. inversion Hb as [|? ? Hb' _]; subst.
  rewrite parse_names by assumption. cbn [dir base name].
  rewrite withExtension_snoc.
  assert (Hb'' : isName (overrideBase customFormat b) = true).
  { unfold overrideBase. destruct customFormat as [fmt|]; [|assumption].
    destruct (nonEmpty fmt) eqn:Hf; [|assumption].
    simpl in Hfmt. rewrite Hf in Hfmt. simpl in Hfmt.
    destruct (isName_inv b Hb') as (Hbn & Hbs & _).
    destruct (splitExt_name b Hbn Hbs) as [Hn Hs].
    now apply isName_with_extension. }
  repeat split.
  - rewrite <- join_dir_base;
      [| assumption | now destruct (isName_inv _ Hb'')].
    unfold overrideBase. destruct customFormat as [fmt|]; reflexivity.
  - now destruct ds.
  - apply Forall_app; split; [assumption | now repeat constructor].
Qed.

End PathFacts.

(** ** Path mirroring *)

(** C7: for every file path [p] below the input root (resolved, it is the
    input root followed by one or more names) and every output root, the
    path [getOutputPath] returns lies below the output root, and its path
    relative to the output root is the path of [p] relative to the input
    root, the extension of the last name replaced when an override is
    given; the number of names, one or several, plays no role. *)
Theorem output_path_mirrors_input_path
  (cwd : string) (cfg : BaseConfig) (p : string) (names : list string)
  (customFormat : option string) :
  NodePath.isAbsolute cwd = true ->
  descendantBy cwd (inputDir cfg) p names ->
  wellFormedOverride customFormat = true ->
  descendantBy cwd (outputDir cfg) (getOutputPath cwd cfg p customFormat)
    (withExtension customFormat names)
  /\ NodePath.relative cwd (inputDir cfg) p = String.concat "/" names
  /\ NodePath.relative cwd (outputDir cfg) (getOutputPath cwd cfg p customFormat)
     = String.concat "/" (withExtension customFormat names)
  /\ (truthy customFormat = false ->
      NodePath.relative cwd (outputDir cfg) (getOutputPath cwd cfg p customFormat)
      = NodePath.relative cwd (inputDir cfg) p).
Proof.
  intros Hcwd Hdesc Hfmt.
  destruct (getOutputPath_join cwd cfg p customFormat names Hcwd Hdesc Hfmt)
    as (Hout & Hne & Hnames).
  assert (Hd : descendantBy cwd (outputDir cfg)
                 (getOutputPath cwd cfg p customFormat)
                 (withExtension customFormat names)).
  { repeat split; try assumption.
    rewrite Hout. now apply resolveSegs_join. }
  pose proof (relative_descendant cwd Hcwd _ _ _ Hdesc) as Hin.
  pose proof (relative_descendant cwd Hcwd _ _ _ Hd) as Hrel.
  repeat split; try assumption; try apply Hd.
  intros Hno. rewrite Hrel, Hin. f_equal.
  unfold withExtension. destruct customFormat as [fmt|]; [|reflexivity].
  simpl in Hno. now rewrite Hno.
Qed.

Lemma output_path_mirrors_input_path_witness :
  descendantBy "/home/user" "./jumpCompress"
    (getOutputPath "/home/user" (SquooshOnly.common SquooshOnly.CONFIG)
       "jump/a/b/photo.png" (Some ".webp"))
    ["a"; "b"; "photo.webp"]
  /\ NodePath.relative "/home/user" "./jumpCompress"
       (getOutputPath "/home/user" (SquooshOnly.common SquooshOnly.CONFIG)
          "jump/icon.jpg" None)
     = "icon.jpg".
Proof.
  split.
  - refine (proj1 (output_path_mirrors_input_path "/home/user"
                     (SquooshOnly.common SquooshOnly.CONFIG)
                     "jump/a/b/photo.png" ["a"; "b"; "photo.png"] (Some ".webp")
                     eq_refl _ eq_refl)).
    split; [discriminate|]. split; [repeat constructor | reflexivity].
  - refine (proj1 (proj2 (proj2 (output_path_mirrors_input_path "/home/user"
                     (SquooshOnly.common SquooshOnly.CONFIG)
                     "jump/icon.jpg" ["icon.jpg"] None
                     eq_refl _ eq_refl)))).
    split; [discriminate|]. split; [repeat constructor | reflexivity].
Defined.

(** C8, as stated, fails: an override without a leading dot is appended to
    the name as it is and the result has no extension at all; of an
    override with two dots only the part from the last dot on is the
    extension of the result. *)
Lemma extension_override_counterexample :
  NodePath.nonEmpty "webp" = true
  /\ getOutputPath "/home/user" (SquooshOnly.common SquooshOnly.CONFIG)
       "jump/a/photo.png" (Some "webp")
     = "jumpCompress/a/photowebp"
  /\ NodePath.extname
       (getOutputPath "/home/user" (SquooshOnly.common SquooshOnly.CONFIG)
          "jump/a/photo.png" (Some "webp"))
     <> "webp"
  /\ NodePath.extname
       (getOutputPath "/home/user" (SquooshOnly.common SquooshOnly.CONFIG)
          "jump/a/photo.png" (Some ".tar.gz"))
     = ".gz".
Proof. repeat split; vm_compute; discriminate. Qed.

(** C8, amended: for every input file path below the input root and every
    override that is an extension (a dot followed by one or more characters
    other than dot and slash), the extension of the mapped output path is
    the override, whatever the extension of the input file. *)
Theorem output_extension_is_override
  (cwd : string) (cfg : BaseConfig) (p : string) (names : list string)
  (fmt : string) :
  NodePath.isAbsolute cwd = true ->
  descendantBy cwd (inputDir cfg) p names ->
  isExtension fmt = true ->
  NodePath.extname (getOutputPath cwd cfg p (Some fmt)) = fmt.
Proof.
  intros Hcwd Hdesc Hfmt.
  assert (Hne : NodePath.nonEmpty fmt = true) by (now destruct fmt).
  assert (Hwf : wellFormedOverride (Some fmt) = true)
    by (simpl; rewrite Hfmt; apply orb_true_r).
  destruct (getOutputPath_join cwd cfg p (Some fmt) names Hcwd Hdesc Hwf)
    as (-> & _ & Hnames).
  destruct Hdesc as (Hnn & Hin & _).
  destruct names as [|b ds] using rev_ind; [congruence|]. clear IHds.
  rewrite withExtension_snoc in *.
  apply Forall_app in Hnames as [Hds Hb']. inversion Hb' as [|? ? Hb _]; subst.
  rewrite extname_join by assumption.
  unfold overrideBase. rewrite Hne.
  apply Forall_app in Hin as [_ Hb0]. inversion Hb0 as [|? ? Hbn _]; subst.
  destruct (isName_inv b Hbn) as (H1 & H2 & _).
  destruct (splitExt_name b H1 H2) as [Hn _].
  now rewrite splitExt_with_extension.
Qed.

Lemma output_extension_is_override_witness :
  NodePath.extname
    (getOutputPath "/home/user" (SquooshOnly.common SquooshOnly.CONFIG)
       "jump/a/photo.png" (Some ".webp"))
  = ".webp".
Proof.
  refine (output_extension_is_override "/home/user"
            (SquooshOnly.common SquooshOnly.CONFIG)
            "jump/a/photo.png" ["a"; "photo.png"] ".webp" eq_refl _ eq_refl).
  split; [discriminate|]. split; [repeat constructor | reflexivity].
Defined.

(** ** Crop geometry *)




(** ** Reasoning about runs *)

Section RunFacts.
Context {E : Externals}.

Section Framed.
Context {R : St -> St -> Prop} {okE : Event -> Prop}
  {okF : (Stats -> Stats) -> Prop} {F : Frame R okE okF}.

Lemma preserves_ret {A} (a : A) : preserves R (ret a).
Proof. intros s. split; [exact I | apply frame_refl]. Qed.

Lemma preserves_throw {A} (msg : string) : preserves R (@throw E A msg).
Proof. intros s. split; [exact I | apply frame_refl]. Qed.

Lemma preserves_liftF {A} (r : Fallible A) : preserves R (liftF r).
Proof. intros s. destruct r; (split; [exact I | apply frame_refl]). Qed.

Lemma preserves_bind {A B} (m : M A) (k : A -> M B) :
  preserves R m -> (forall a, preserves R (k a)) -> preserves R (bind m k).
Proof.
  intros Hm Hk s. unfold bind. specialize (Hm s).
  destruct (m s) as [[a | msg | c] s1]; simpl in Hm.
  - destruct Hm as [_ H1]. destruct (Hk a s1) as [Hn H2].
    split; [exact Hn | exact (frame_trans _ _ _ H1 H2)].
  - exact Hm.
  - destruct Hm as [[] _].
Qed.

Lemma preserves_tryCatch {A} (body : M A) (handler : string -> M A) :
  preserves R body -> (forall msg, preserves R (handler msg)) ->
  preserves R (tryCatch body handler).
Proof.
  intros Hb Hh s. unfold tryCatch. specialize (Hb s).
  destruct (body s) as [[a | msg | c] s1]; simpl in Hb.
  - exact Hb.
  - destruct Hb as [_ H1]. destruct (Hh msg s1) as [Hn H2].
    split; [exact Hn | exact (frame_trans _ _ _ H1 H2)].
  - destruct Hb as [[] _].
Qed.

Lemma preserves_tryCatchFinally {A} (body : M A) (handler : string -> M A)
  (fin : M unit) :
  preserves R body -> (forall msg, preserves R (handler msg)) ->
  preserves R fin -> preserves R (tryCatchFinally body handler fin).
Proof.
  intros Hb Hh Hf s. unfold tryCatchFinally.
  destruct (preserves_tryCatch body handler Hb Hh s) as [Hn H1].
  destruct (tryCatch body handler s) as [[a | msg | c] s1];
    try (destruct Hn); simpl in H1;
    destruct (Hf s1) as [Hn2 H2];
    destruct (fin s1) as [[[] | msg2 | c2] s2]; try (destruct Hn2); simpl in H2;
    (split; [exact I | exact (frame_trans _ _ _ H1 H2)]).
Qed.

Lemma preserves_emit (e : Event) : okE e -> preserves R (emit e).
Proof. intros He s. split; [exact I | now apply frame_emit]. Qed.

Lemma preserves_readWorld {A} (f : World -> Fallible A) : preserves R (readWorld f).
Proof. intros s. unfold readWorld. apply preserves_liftF. Qed.

Lemma preserves_updateWorld {A} (f : World -> Fallible A * World) :
  preserves R (updateWorld f).
Proof.
  intros s. unfold updateWorld. destruct (f (st_world s)) as [r w].
  destruct r; (split; [exact I | apply frame_world]).
Qed.

Lemma preserves_getStats : preserves R getStats.
Proof. intros s. split; [exact I | apply frame_refl]. Qed.

Lemma preserves_modifyStats (f : Stats -> Stats) : okF f -> preserves R (modifyStats f).
Proof. intros Hf s. split; [exact I | now apply frame_stats]. Qed.

End Framed.

#[export] Instance sameCounts_frame : Frame sameCounts (fun _ => True) keepsCounts.
Proof.
  split.
  - intros s. now repeat split.
  - intros s1 s2 s3 (A1 & B1 & C1) (A2 & B2 & C2). unfold sameCounts.
    rewrite A2, B2, C2. now repeat split.
  - intros s w. now repeat split.
  - intros s e _. now repeat split.
  - intros s f Hf. exact (Hf (st_stats s)).
Qed.

#[export] Instance traceGrows_frame (P : Event -> Prop) :
  Frame (traceGrows P) P (fun _ => True).
Proof.
  split.
  - intros s. exists []. split; [now rewrite app_nil_r | constructor].
  - intros s1 s2 s3 (l1 & H1 & P1) (l2 & H2 & P2). exists (l1 ++ l2)%list.
    split; [now rewrite H2, H1, app_assoc | now apply Forall_app].
  - intros s w. exists []. split; [simpl; now rewrite app_nil_r | constructor].
  - intros s e He. exists [e]. split; [reflexivity | now repeat constructor].
  - intros s f _. exists []. split; [simpl; now rewrite app_nil_r | constructor].
Qed.

End RunFacts.

Ltac run_unfold :=
  unfold ensureDir;
  unfold consoleLog, consoleError, existsSync, mkdirSync, readdirSync,
    statIsDirectory, readFileSync, writeFileSync, awaitDecoded,
    awaitPreprocess, awaitEncode, awaitEncodedWith.

Ltac preserves_step :=
  lazymatch goal with
  | |- preserves _ (ret _) => apply preserves_ret
  | |- preserves _ (throw _) => apply preserves_throw
  | |- preserves _ (liftF _) => apply preserves_liftF
  | |- preserves _ (readWorld _) => apply preserves_readWorld
  | |- preserves _ (updateWorld _) => apply preserves_updateWorld
  | |- preserves _ getStats => apply preserves_getStats
  | |- preserves _ (emit _) => apply preserves_emit
  | |- preserves _ (modifyStats _) => apply preserves_modifyStats
  | |- preserves _ (bind _ _) => apply preserves_bind; [| intros ?]
  | |- preserves _ (tryCatch _ _) => apply preserves_tryCatch; [| intros ?]
  | |- preserves _ (tryCatchFinally _ _ _) =>
      apply preserves_tryCatchFinally; [| intros ? |]
  | |- preserves _ (if ?b then _ else _) => destruct b
  | |- preserves _ (match ?x with _ => _ end) => destruct x
  end.

Ltac preserves_tac :=
  run_unfold; cbv zeta; repeat preserves_step;
  try exact I; try (intros ?; repeat split; reflexivity).

Section CountFacts.
Context {E : Externals}.

Lemma countsSuccess_bind {A} (m : M A) (k : A -> M unit) :
  preserves sameCounts m -> (forall a, countsSuccess (k a)) ->
  countsSuccess (bind m k).
Proof.
  intros Hm Hk s. unfold bind. specialize (Hm s).
  destruct (m s) as [[a | msg | c] s1]; simpl in Hm.
  - destruct Hm as [_ (A1 & B1 & C1)]. specialize (Hk a s1).
    destruct (k a s1) as [[[] | msg | c] s2].
    + destruct Hk as (A2 & B2 & C2). rewrite A2, B2, C2, A1, B1, C1. auto.
    + destruct Hk as (A2 & B2 & C2). unfold sameCounts.
      rewrite A2, B2, C2, A1, B1, C1. auto.
    + exact Hk.
  - exact (proj2 Hm).
  - destruct Hm as [[] _].
Qed.

Lemma countsSuccess_incSuccess : countsSuccess (modifyStats incSuccess).
Proof. intros s. simpl. auto. Qed.

Ltac counts_tac :=
  cbv zeta;
  repeat (apply countsSuccess_bind; [preserves_tac | intros ?]);
  apply countsSuccess_incSuccess.

Lemma squoosh_processFile_counts (cfg : SquooshOnly.Config) (i n : Z)
  (inputPath relativePath : string) :
  countsSuccess (SquooshOnly.processFile cfg i n inputPath relativePath).
Proof. unfold SquooshOnly.processFile. counts_tac. Qed.

Lemma sharp_processFile_counts (cfg : SharpSquoosh.Config) (i n : Z)
  (inputPath relativePath : string) :
  countsSuccess (SharpSquoosh.processFile cfg i n inputPath relativePath).
Proof. unfold SharpSquoosh.processFile, SharpSquoosh.cropImage. counts_tac. Qed.

Lemma countTrue_cons (b : bool) (l : list bool) :
  countTrue (b :: l) = (if b then 1 else 0) + countTrue l.
Proof. reflexivity. Qed.

(** One iteration returns, and counts the file once: as a failure when its
    [try] block throws, as a success otherwise. *)
Lemma squoosh_iteration_counts (cfg : SquooshOnly.Config) (i n : Z)
  (inputPath : string) (s : St) :
  exists s',
    SquooshOnly.iteration cfg i n inputPath s = (Ok tt, s')
    /\ total (st_stats s') = total (st_stats s)
    /\ success (st_stats s')
       = success (st_stats s)
         + (if SquooshOnly.fileFails cfg i n inputPath s then 0 else 1)
    /\ failed (st_stats s')
       = failed (st_stats s)
         + (if SquooshOnly.fileFails cfg i n inputPath s then 1 else 0).
Proof.
  unfold SquooshOnly.iteration, SquooshOnly.fileFails, SquooshOnly.beforeTry.
  cbv zeta. unfold bind at 1. unfold tryCatchFinally, tryCatch. cbn [emit snd].
  match goal with
  | |- context [SquooshOnly.processFile ?c ?i ?n ?p ?r ?st] =>
      pose proof (squoosh_processFile_counts c i n p r st) as Hc;
      destruct (SquooshOnly.processFile c i n p r st) as [[[] | msg | c'] s1]
  end; simpl in *.
  - eexists. split; [reflexivity|]. simpl.
    unfold sameCounts in Hc. cbn in Hc. destruct Hc as (A & B & C).
    rewrite A, B, C. repeat split; lia.
  - eexists. split; [reflexivity|]. simpl.
    unfold sameCounts in Hc. cbn in Hc. destruct Hc as (A & B & C).
    rewrite A, B, C. repeat split; lia.
  - destruct Hc.
Qed.

Lemma sharp_iteration_counts (cfg : SharpSquoosh.Config) (i n : Z)
  (inputPath : string) (s : St) :
  exists s',
    SharpSquoosh.iteration cfg i n inputPath s = (Ok tt, s')
    /\ total (st_stats s') = total (st_stats s)
    /\ success (st_stats s')
       = success (st_stats s)
         + (if SharpSquoosh.fileFails cfg i n inputPath s then 0 else 1)
    /\ failed (st_stats s')
       = failed (st_stats s)
         + (if SharpSquoosh.fileFails cfg i n inputPath s then 1 else 0).
Proof.
  unfold SharpSquoosh.iteration, SharpSquoosh.fileFails, SharpSquoosh.beforeTry.
  cbv zeta.
  pose proof (sharp_processFile_counts cfg i n inputPath
                (NodePath.relative cwd (inputDir (SharpSquoosh.common cfg)) inputPath)
                s) as Hc.
  unfold tryCatch.
  destruct (SharpSquoosh.processFile cfg i n inputPath _ s) as [[[] | msg | c] s1];
    simpl in *.
  - eexists. split; [reflexivity|]. simpl.
    unfold sameCounts in Hc. cbn in Hc. destruct Hc as (A & B & C).
    rewrite A, B, C. repeat split; lia.
  - eexists. split; [reflexivity|]. simpl.
    unfold sameCounts in Hc. cbn in Hc. destruct Hc as (A & B & C).
    rewrite A, B, C. repeat split; lia.
  - destruct Hc.
Qed.

(** The loop returns; it adds the number of failing files to [failed] and
    the number of the others to [success]. *)
Lemma squoosh_loop_counts (cfg : SquooshOnly.Config) (n : Z)
  (files : list string) :
  forall (i : Z) (s : St),
  exists s',
    SquooshOnly.loop cfg i n files s = (Ok tt, s')
    /\ total (st_stats s') = total (st_stats s)
    /\ success (st_stats s')
       = success (st_stats s) + Z.of_nat (List.length files)
         - countTrue (SquooshOnly.failures cfg i n files s)
    /\ failed (st_stats s')
       = failed (st_stats s) + countTrue (SquooshOnly.failures cfg i n files s).
Proof.
  induction files as [|f files IH]; intros i s.
  - exists s. simpl. repeat split; lia.
  - destruct (squoosh_iteration_counts cfg i n f s) as (s1 & H1 & A1 & B1 & C1).
    destruct (IH (i + 1) s1) as (s2 & H2 & A2 & B2 & C2).
    exists s2. cbn [SquooshOnly.loop SquooshOnly.failures]. unfold bind at 1.
    rewrite H1. cbn [snd]. rewrite countTrue_cons.
    split; [exact H2|]. rewrite A2, B2, C2, A1, B1, C1.
    cbn [List.length]. destruct (SquooshOnly.fileFails cfg i n f s);
      repeat split; lia.
Qed.

Lemma sharp_loop_counts (cfg : SharpSquoosh.Config) (n : Z)
  (files : list string) :
  forall (i : Z) (s : St),
  exists s',
    SharpSquoosh.loop cfg i n files s = (Ok tt, s')
    /\ total (st_stats s') = total (st_stats s)
    /\ success (st_stats s')
       = success (st_stats s) + Z.of_nat (List.length files)
         - countTrue (SharpSquoosh.failures cfg i n files s)
    /\ failed (st_stats s')
       = failed (st_stats s) + countTrue (SharpSquoosh.failures cfg i n files s).
Proof.
  induction files as [|f files IH]; intros i s.
  - exists s. simpl. repeat split; lia.
  - destruct (sharp_iteration_counts cfg i n f s) as (s1 & H1 & A1 & B1 & C1).
    destruct (IH (i + 1) s1) as (s2 & H2 & A2 & B2 & C2).
    exists s2. cbn [SharpSquoosh.loop SharpSquoosh.failures]. unfold bind at 1.
    rewrite H1. cbn [snd]. rewrite countTrue_cons.
    split; [exact H2|]. rewrite A2, B2, C2, A1, B1, C1.
    cbn [List.length]. destruct (SharpSquoosh.fileFails cfg i n f s);
      repeat split; lia.
Qed.

Lemma squoosh_compressImages_counts (cfg : SquooshOnly.Config)
  (files : list string) (s : St) :
  exists st s',
    SquooshOnly.compressImages cfg files s = (Ok st, s')
    /\ total st = Z.of_nat (List.length files)
    /\ success st = Z.of_nat (List.length files)
                    - countTrue (SquooshOnly.batchFailures cfg files s)
    /\ failed st = countTrue (SquooshOnly.batchFailures cfg files s).
Proof.
  set (n := Z.of_nat (List.length files)).
  destruct (squoosh_loop_counts cfg n files 0 (SquooshOnly.loopStart files s))
    as (s1 & H1 & A & B & C).
  exists (st_stats s1), s1. split.
  - change (SquooshOnly.compressImages cfg files s)
      with (bind (SquooshOnly.loop cfg 0 n files) (fun _ => getStats)
              (SquooshOnly.loopStart files s)).
    unfold bind. now rewrite H1.
  - unfold SquooshOnly.batchFailures. fold n. cbn in A, B, C.
    rewrite A, B, C. fold n. repeat split; lia.
Qed.

Lemma sharp_compressImages_counts (cfg : SharpSquoosh.Config)
  (files : list string) (s : St) :
  exists st s',
    SharpSquoosh.compressImages cfg files s = (Ok st, s')
    /\ total st = Z.of_nat (List.length files)
    /\ success st = Z.of_nat (List.length files)
                    - countTrue (SharpSquoosh.batchFailures cfg files s)
    /\ failed st = countTrue (SharpSquoosh.batchFailures cfg files s).
Proof.
  set (n := Z.of_nat (List.length files)).
  destruct (sharp_loop_counts cfg n files 0 (SharpSquoosh.loopStart cfg files s))
    as (s1 & H1 & A & B & C).
  exists (st_stats s1), (snd (emit PoolClose s1)). split.
  - change (SharpSquoosh.compressImages cfg files s)
      with (bind (SharpSquoosh.loop cfg 0 n files)
              (fun _ => bind (emit PoolClose) (fun _ => getStats))
              (SharpSquoosh.loopStart cfg files s)).
    unfold bind at 1. now rewrite H1.
  - unfold SharpSquoosh.batchFailures. fold n. cbn in A, B, C.
    rewrite A, B, C. fold n. repeat split; lia.
Qed.

End CountFacts.

(** ** The batch *)

(** C10: for every list of input files, [compressImages] of either script
    returns stats with [total] the length of the list and
    [success + failed = total]; every iteration of its loop returns and
    adds one to exactly one of the two counters. *)
Theorem stats_count_every_file_once {E : Externals}
  (cfgA : SquooshOnly.Config) (cfgB : SharpSquoosh.Config)
  (imageFiles : list string) (s : St) :
  (exists st s',
      SquooshOnly.compressImages cfgA imageFiles s = (Ok st, s')
      /\ total st = Z.of_nat (List.length imageFiles)
      /\ success st + failed st = total st)
  /\ (exists st s',
        SharpSquoosh.compressImages cfgB imageFiles s = (Ok st, s')
        /\ total st = Z.of_nat (List.length imageFiles)
        /\ success st + failed st = total st)
  /\ (forall i n inputPath s0, exists s1,
        SquooshOnly.iteration cfgA i n inputPath s0 = (Ok tt, s1)
        /\ ((success (st_stats s1) = success (st_stats s0) + 1
             /\ failed (st_stats s1) = failed (st_stats s0))
            \/ (success (st_stats s1) = success (st_stats s0)
                /\ failed (st_stats s1) = failed (st_stats s0) + 1)))
  /\ (forall i n inputPath s0, exists s1,
        SharpSquoosh.iteration cfgB i n inputPath s0 = (Ok tt, s1)
        /\ ((success (st_stats s1) = success (st_stats s0) + 1
             /\ failed (st_stats s1) = failed (st_stats s0))
            \/ (success (st_stats s1) = success (st_stats s0)
                /\ failed (st_stats s1) = failed (st_stats s0) + 1))).
Proof.
  repeat split.
  - destruct (squoosh_compressImages_counts cfgA imageFiles s)
      as (st & s' & H & A & B & C).
    exists st, s'. repeat split; [exact H | exact A | lia].
  - destruct (sharp_compressImages_counts cfgB imageFiles s)
      as (st & s' & H & A & B & C).
    exists st, s'. repeat split; [exact H | exact A | lia].
  - intros i n inputPath s0.
    destruct (squoosh_iteration_counts cfgA i n inputPath s0)
      as (s1 & H & _ & B & C).
    exists s1. split; [exact H|].
    destruct (SquooshOnly.fileFails cfgA i n inputPath s0); [right | left]; lia.
  - intros i n inputPath s0.
    destruct (sharp_iteration_counts cfgB i n inputPath s0)
      as (s1 & H & _ & B & C).
    exists s1. split; [exact H|].
    destruct (SharpSquoosh.fileFails cfgB i n inputPath s0); [right | left]; lia.
Qed.

(** C5: for every list of N files of which exactly one fails (the [try]
    block of its iteration throws, at whatever stage), [compressImages] of
    either script still returns, having gone through all N iterations, and
    its stats report N-1 successes and 1 failure. *)
Theorem one_failure_does_not_abort_batch {E : Externals}
  (cfgA : SquooshOnly.Config) (cfgB : SharpSquoosh.Config)
  (imageFiles : list string) (s : St) :
  (countTrue (SquooshOnly.batchFailures cfgA imageFiles s) = 1 ->
   exists st s',
     SquooshOnly.compressImages cfgA imageFiles s = (Ok st, s')
     /\ total st = Z.of_nat (List.length imageFiles)
     /\ success st = Z.of_nat (List.length imageFiles) - 1
     /\ failed st = 1)
  /\ (countTrue (SharpSquoosh.batchFailures cfgB imageFiles s) = 1 ->
      exists st s',
        SharpSquoosh.compressImages cfgB imageFiles s = (Ok st, s')
        /\ total st = Z.of_nat (List.length imageFiles)
        /\ success st = Z.of_nat (List.length imageFiles) - 1
        /\ failed st = 1).
Proof.
  split; intros H1.
  - destruct (squoosh_compressImages_counts cfgA imageFiles s)
      as (st & s' & H & A & B & C).
    exists st, s'. rewrite H1 in B, C. auto.
  - destruct (sharp_compressImages_counts cfgB imageFiles s)
      as (st & s' & H & A & B & C).
    exists st, s'. rewrite H1 in B, C. auto.
Qed.

Lemma one_failure_does_not_abort_batch_witness :
  (exists st s',
      @SquooshOnly.compressImages (Demo.externals false) Demo.squooshConfig
        ["jump/a/photo.png"; "jump/broken.png"; "jump/b/icon.jpg"]
        (Demo.start Demo.openWorld) = (Ok st, s')
      /\ total st = 3 /\ success st = 3 - 1 /\ failed st = 1)
  /\ (exists st s',
        @SharpSquoosh.compressImages (Demo.externals false) Demo.sharpConfig
          ["jump/broken.png"; "jump/a/photo.png"; "jump/b/icon.jpg"]
          (Demo.start Demo.openWorld) = (Ok st, s')
        /\ total st = 3 /\ success st = 3 - 1 /\ failed st = 1).
Proof.
  split.
  - exact (proj1 (@one_failure_does_not_abort_batch (Demo.externals false)
                    Demo.squooshConfig Demo.sharpConfig
                    ["jump/a/photo.png"; "jump/broken.png"; "jump/b/icon.jpg"]
                    (Demo.start Demo.openWorld)) eq_refl).
  - exact (proj2 (@one_failure_does_not_abort_batch (Demo.externals false)
                    Demo.squooshConfig Demo.sharpConfig
                    ["jump/broken.png"; "jump/a/photo.png"; "jump/b/icon.jpg"]
                    (Demo.start Demo.openWorld)) eq_refl).
Defined.

(** The failing file of such a batch may fail at any stage: reading (a
    file that is gone), decoding or cropping (a stray byte), preprocessing
    (the same, with cropping off), encoding (a pixel the encoder rejects),
    writing (a locked output path). *)
Example failure_stages_squoosh :
  @SquooshOnly.batchFailures (Demo.externals false) Demo.squooshConfig
    ["jump/missing.png"; "jump/a/photo.png"] (Demo.start Demo.openWorld)
  = [true; false]
  /\ @SquooshOnly.batchFailures (Demo.externals false) Demo.squooshConfig
       ["jump/a/photo.png"; "jump/broken.png"] (Demo.start Demo.openWorld)
     = [false; true]
  /\ @SquooshOnly.batchFailures (Demo.externals false) Demo.squooshConfig
       ["jump/odd.png"; "jump/a/photo.png"] (Demo.start Demo.openWorld)
     = [true; false]
  /\ @SquooshOnly.batchFailures (Demo.externals false) Demo.squooshConfig
       ["jump/b/icon.jpg"; "jump/a/photo.png"] (Demo.start Demo.world)
     = [true; false].
Proof. repeat split; vm_compute; reflexivity. Qed.

Example failure_stages_sharp :
  @SharpSquoosh.batchFailures (Demo.externals false) Demo.sharpConfig
    ["jump/missing.png"; "jump/a/photo.png"] (Demo.start Demo.openWorld)
  = [true; false]
  /\ @SharpSquoosh.batchFailures (Demo.externals false) Demo.sharpConfig
       ["jump/a/photo.png"; "jump/broken.png"] (Demo.start Demo.openWorld)
     = [false; true]
  /\ @SharpSquoosh.batchFailures (Demo.externals false) Demo.sharpNoCrop
       ["jump/a/photo.png"; "jump/broken.png"] (Demo.start Demo.openWorld)
     = [false; true]
  /\ @SharpSquoosh.batchFailures (Demo.externals false) Demo.sharpConfig
       ["jump/odd.png"; "jump/a/photo.png"] (Demo.start Demo.openWorld)
     = [true; false]
  /\ @SharpSquoosh.batchFailures (Demo.externals false) Demo.sharpConfig
       ["jump/b/icon.jpg"; "jump/a/photo.png"] (Demo.start Demo.world)
     = [true; false].
Proof. repeat split; vm_compute; reflexivity. Qed.

(** ** The process *)

Section MainFacts.
Context {E : Externals}.

Lemma bind_Ok {A B} (m : M A) (k : A -> M B) (s s1 : St) (a : A) :
  m s = (Ok a, s1) -> bind m k s = k a s1.
Proof. intros H. unfold bind. now rewrite H. Qed.

Lemma fst_bind {A B} (m : M A) (k : A -> M B) (s : St) :
  fst (bind m k s)
  = match fst (m s) with
    | Ok a => fst (k a (snd (m s)))
    | Throw msg => Throw msg
    | Exit c => Exit c
    end.
Proof. unfold bind. now destruct (m s) as [[a | msg | c] s1]. Qed.

Lemma consoleLog_run (l : LogLine) (s : St) :
  consoleLog l s
  = (Ok tt, mkSt (st_world s) (st_stats s) (st_trace s ++ [ConsoleLog l])).
Proof. reflexivity. Qed.

Lemma consoleError_run (l : LogLine) (s : St) :
  consoleError l s
  = (Ok tt, mkSt (st_world s) (st_stats s) (st_trace s ++ [ConsoleError l])).
Proof. reflexivity. Qed.

Lemma existsSync_run (p : string) (s : St) :
  existsSync p s
  = (Ok (fs_existsSync p (st_world s)),
     mkSt (st_world s) (st_stats s) (st_trace s ++ [FsExists p])).
Proof. reflexivity. Qed.

Lemma preserves_forEach {A B} (f : A -> B -> M B) (items : list A) :
  (forall a b, preserves sameCounts (f a b)) ->
  forall acc, preserves sameCounts (forEach f items acc).
Proof.
  intros Hf. induction items as [|x items IH]; intros acc; simpl.
  - apply preserves_ret.
  - apply preserves_bind; [apply Hf | exact IH].
Qed.

Lemma preserves_readDir (formats : list string) (depth : nat) :
  forall currentPath files,
    preserves sameCounts (readDir formats depth currentPath files).
Proof.
  induction depth as [|depth IH]; intros currentPath files; simpl.
  - apply preserves_throw.
  - apply preserves_bind; [preserves_tac | intros items].
    apply preserves_forEach. intros item acc.
    apply preserves_bind; [preserves_tac | intros isDir].
    destruct isDir; [apply IH | preserves_tac].
Qed.

(** After discovery [main] ends normally: it leaves through
    [process.exit(0)] when there is no image and returns otherwise. *)
Lemma squoosh_mainProcess_ends (cfg : SquooshOnly.Config)
  (imageFiles : list string) (s : St) :
  fst (SquooshOnly.mainProcess cfg imageFiles s) = Ok tt
  \/ (imageFiles = [] /\ fst (SquooshOnly.mainProcess cfg imageFiles s) = Exit 0).
Proof.
  unfold SquooshOnly.mainProcess. destruct imageFiles as [|f files].
  - right. split; reflexivity.
  - left. set (l := f :: files).
    assert (Hl : (Z.of_nat (List.length l) =? 0) = false)
      by (apply Z.eqb_neq; subst l; simpl List.length; lia).
    rewrite Hl. rewrite fst_bind. cbn [ret fst snd].
    rewrite fst_bind. unfold consoleLog at 1. cbn [emit fst snd].
    rewrite fst_bind.
    match goal with
    | |- context [SquooshOnly.compressImages cfg l ?st] =>
        destruct (squoosh_compressImages_counts cfg l st) as (stats & s1 & H & _)
    end.
    rewrite H. cbn [fst snd]. rewrite fst_bind. unfold consoleLog. cbn [emit fst snd].
    now destruct (totalInputSize stats >? 0).
Qed.

Lemma sharp_mainProcess_ends (cfg : SharpSquoosh.Config)
  (imageFiles : list string) (s : St) :
  fst (SharpSquoosh.mainProcess cfg imageFiles s) = Ok tt
  \/ (imageFiles = [] /\ fst (SharpSquoosh.mainProcess cfg imageFiles s) = Exit 0).
Proof.
  unfold SharpSquoosh.mainProcess. destruct imageFiles as [|f files].
  - right. split; reflexivity.
  - left. set (l := f :: files).
    assert (Hl : (Z.of_nat (List.length l) =? 0) = false)
      by (apply Z.eqb_neq; subst l; simpl List.length; lia).
    rewrite Hl. rewrite fst_bind. cbn [ret fst snd].
    rewrite fst_bind. unfold consoleLog at 1. cbn [emit fst snd].
    rewrite fst_bind.
    match goal with
    | |- context [SharpSquoosh.compressImages cfg l ?st] =>
        destruct (sharp_compressImages_counts cfg l st) as (stats & s1 & H & _)
    end.
    rewrite H. cbn [fst snd]. rewrite fst_bind. unfold consoleLog. cbn [emit fst snd].
    now destruct (totalInputSize stats >? 0).
Qed.

Lemma runScript_exit_code (main : M unit) (s : St) :
  fst (runScript main s)
  = match fst (main s) with
    | Ok _ => 0
    | Throw _ => 1
    | Exit code => code
    end.
Proof. unfold runScript. now destruct (main s) as [[[] | msg | c] s1]. Qed.

Lemma getImageFiles_preserves (cfg : BaseConfig) (dir : string) :
  preserves sameCounts (getImageFiles cfg dir).
Proof. unfold getImageFiles. apply preserves_readDir. Qed.

(** When the input directory exists, the first part of [main] does not end
    the process: it returns the list of files or throws. *)
Lemma squoosh_mainDiscover_noExit (cfg : SquooshOnly.Config) (s : St) :
  fs_existsSync (inputDir (SquooshOnly.common cfg)) (st_world s) = true ->
  noExit (SquooshOnly.mainDiscover cfg s).
Proof.
  intros Hex.
  assert (Htail : preserves sameCounts
            (ensureDir (outputDir (SquooshOnly.common cfg)) ;;
             consoleLog (LScanning (inputDir (SquooshOnly.common cfg))) ;;
             getImageFiles (SquooshOnly.common cfg)
               (inputDir (SquooshOnly.common cfg)))).
  { apply preserves_bind; [preserves_tac | intros _].
    apply preserves_bind; [preserves_tac | intros _].
    apply getImageFiles_preserves. }
  unfold SquooshOnly.mainDiscover.
  erewrite bind_Ok by apply consoleLog_run.
  erewrite bind_Ok by apply consoleLog_run.
  erewrite bind_Ok by apply existsSync_run.
  cbn [st_world]. rewrite Hex. cbn [negb].
  erewrite bind_Ok by reflexivity.
  apply Htail.
Qed.

Lemma sharp_mainDiscover_noExit (cfg : SharpSquoosh.Config) (s : St) :
  fs_existsSync (inputDir (SharpSquoosh.common cfg)) (st_world s) = true ->
  noExit (SharpSquoosh.mainDiscover cfg s).
Proof.
  intros Hex.
  assert (Htail : preserves sameCounts
            (ensureDir (outputDir (SharpSquoosh.common cfg)) ;;
             consoleLog (LScanning (inputDir (SharpSquoosh.common cfg))) ;;
             getImageFiles (SharpSquoosh.common cfg)
               (inputDir (SharpSquoosh.common cfg)))).
  { apply preserves_bind; [preserves_tac | intros _].
    apply preserves_bind; [preserves_tac | intros _].
    apply getImageFiles_preserves. }
  unfold SharpSquoosh.mainDiscover.
  erewrite bind_Ok by apply consoleLog_run.
  erewrite bind_Ok by apply existsSync_run.
  cbn [st_world]. rewrite Hex. cbn [negb].
  erewrite bind_Ok by reflexivity.
  apply Htail.
Qed.

Lemma bind_Exit {A B} (m : M A) (k : A -> M B) (s s1 : St) (c : Z) :
  m s = (Exit c, s1) -> bind m k s = (Exit c, s1).
Proof. intros H. unfold bind. now rewrite H. Qed.

Lemma squoosh_missing_dir (cfg : SquooshOnly.Config) (s : St) :
  fs_existsSync (inputDir (SquooshOnly.common cfg)) (st_world s) = false ->
  SquooshOnly.mainDiscover cfg s
  = (Exit 1,
     mkSt (st_world s) (st_stats s)
       (st_trace s
        ++ [ConsoleLog LBanner;
            ConsoleLog
              (LConfigInfo (inputDir (SquooshOnly.common cfg))
                 (outputDir (SquooshOnly.common cfg))
                 (if SquooshOnly.crop_enabled (SquooshOnly.cropOptions cfg)
                  then Some (SquooshOnly.crop_width (SquooshOnly.cropOptions cfg))
                  else None));
            FsExists (inputDir (SquooshOnly.common cfg));
            ConsoleError (LInputDirMissing (inputDir (SquooshOnly.common cfg)))])).
Proof.
  intros Hex. unfold SquooshOnly.mainDiscover.
  erewrite bind_Ok by apply consoleLog_run.
  erewrite bind_Ok by apply consoleLog_run.
  erewrite bind_Ok by apply existsSync_run.
  cbn [st_world]. rewrite Hex. cbn [negb].
  apply bind_Exit. unfold bind. rewrite consoleError_run. unfold processExit.
  cbn [st_world st_stats st_trace]. now rewrite <- !app_assoc.
Qed.

Lemma sharp_missing_dir (cfg : SharpSquoosh.Config) (s : St) :
  fs_existsSync (inputDir (SharpSquoosh.common cfg)) (st_world s) = false ->
  SharpSquoosh.mainDiscover cfg s
  = (Exit 1,
     mkSt (st_world s) (st_stats s)
       (st_trace s
        ++ [ConsoleLog LBanner;
            FsExists (inputDir (SharpSquoosh.common cfg));
            ConsoleError (LInputDirMissing (inputDir (SharpSquoosh.common cfg)))])).
Proof.
  intros Hex. unfold SharpSquoosh.mainDiscover.
  erewrite bind_Ok by apply consoleLog_run.
  erewrite bind_Ok by apply existsSync_run.
  cbn [st_world]. rewrite Hex. cbn [negb].
  apply bind_Exit. unfold bind. rewrite consoleError_run. unfold processExit.
  cbn [st_world st_stats st_trace]. now rewrite <- !app_assoc.
Qed.

(** The exit code of either script, by what the first part of [main] does. *)
Lemma squoosh_exit_code (cfg : SquooshOnly.Config) (s : St) :
  fst (runScript (SquooshOnly.main cfg) s)
  = match fst (SquooshOnly.mainDiscover cfg s) with
    | Ok _ => 0
    | Throw _ => 1
    | Exit code => code
    end.
Proof.
  rewrite runScript_exit_code. unfold SquooshOnly.main. rewrite fst_bind.
  destruct (fst (SquooshOnly.mainDiscover cfg s)) as [files | msg | c];
    try reflexivity.
  destruct (squoosh_mainProcess_ends cfg files
              (snd (SquooshOnly.mainDiscover cfg s))) as [H | [_ H]];
    now rewrite H.
Qed.

Lemma sharp_exit_code (cfg : SharpSquoosh.Config) (s : St) :
  fst (runScript (SharpSquoosh.main cfg) s)
  = match fst (SharpSquoosh.mainDiscover cfg s) with
    | Ok _ => 0
    | Throw _ => 1
    | Exit code => code
    end.
Proof.
  rewrite runScript_exit_code. unfold SharpSquoosh.main. rewrite fst_bind.
  destruct (fst (SharpSquoosh.mainDiscover cfg s)) as [files | msg | c];
    try reflexivity.
  destruct (sharp_mainProcess_ends cfg files
              (snd (SharpSquoosh.mainDiscover cfg s))) as [H | [_ H]];
    now rewrite H.
Qed.

End MainFacts.

(** C9: either script exits with code 0 whenever the first part of [main]
    hands a list of files to the rest, be the list empty or not and
    whatever happens to the files; it exits with code 1 when the input
    directory does not exist, having done nothing but print and test for
    the directory (no directory is read or created, no file is read or
    written, the file system is as it was), and when an error escapes
    [main]; and it exits with code 1 in no other case. *)
Theorem exit_code_of_the_process {E : Externals}
  (cfgA : SquooshOnly.Config) (cfgB : SharpSquoosh.Config) (s : St) :
  let inA := inputDir (SquooshOnly.common cfgA) in
  let inB := inputDir (SharpSquoosh.common cfgB) in
  ((forall files, fst (SquooshOnly.mainDiscover cfgA s) = Ok files ->
      fst (runScript (SquooshOnly.main cfgA) s) = 0)
   /\ (fs_existsSync inA (st_world s) = false ->
       fst (runScript (SquooshOnly.main cfgA) s) = 1
       /\ st_world (snd (runScript (SquooshOnly.main cfgA) s)) = st_world s
       /\ st_trace (snd (runScript (SquooshOnly.main cfgA) s))
          = (st_trace s
             ++ [ConsoleLog LBanner;
                 ConsoleLog
                   (LConfigInfo inA (outputDir (SquooshOnly.common cfgA))
                      (if SquooshOnly.crop_enabled (SquooshOnly.cropOptions cfgA)
                       then Some (SquooshOnly.crop_width
                                    (SquooshOnly.cropOptions cfgA))
                       else None));
                 FsExists inA;
                 ConsoleError (LInputDirMissing inA)])%list)
   /\ (forall msg, fst (SquooshOnly.main cfgA s) = Throw msg ->
       fst (runScript (SquooshOnly.main cfgA) s) = 1)
   /\ (fst (runScript (SquooshOnly.main cfgA) s) = 0
       \/ (fst (runScript (SquooshOnly.main cfgA) s) = 1
           /\ (fs_existsSync inA (st_world s) = false
               \/ exists msg, fst (SquooshOnly.main cfgA s) = Throw msg))))
  /\ ((forall files, fst (SharpSquoosh.mainDiscover cfgB s) = Ok files ->
       fst (runScript (SharpSquoosh.main cfgB) s) = 0)
      /\ (fs_existsSync inB (st_world s) = false ->
          fst (runScript (SharpSquoosh.main cfgB) s) = 1
          /\ st_world (snd (runScript (SharpSquoosh.main cfgB) s)) = st_world s
          /\ st_trace (snd (runScript (SharpSquoosh.main cfgB) s))
             = (st_trace s
                ++ [ConsoleLog LBanner;
                    FsExists inB;
                    ConsoleError (LInputDirMissing inB)])%list)
      /\ (forall msg, fst (SharpSquoosh.main cfgB s) = Throw msg ->
          fst (runScript (SharpSquoosh.main cfgB) s) = 1)
      /\ (fst (runScript (SharpSquoosh.main cfgB) s) = 0
          \/ (fst (runScript (SharpSquoosh.main cfgB) s) = 1
              /\ (fs_existsSync inB (st_world s) = false
                  \/ exists msg, fst (SharpSquoosh.main cfgB s) = Throw msg)))).
Proof.
  intros inA inB. split.
  - repeat apply conj.
    + intros files H. now rewrite squoosh_exit_code, H.
    + intros Hex. pose proof (squoosh_missing_dir cfgA s Hex) as Hd.
      unfold runScript, SquooshOnly.main.
      rewrite (bind_Exit _ _ _ _ _ Hd). repeat split.
    + intros msg H. now rewrite runScript_exit_code, H.
    + rewrite runScript_exit_code.
      destruct (fs_existsSync inA (st_world s)) eqn:Hex.
      * pose proof (squoosh_mainDiscover_noExit cfgA s Hex) as Hn.
        unfold noExit in Hn. unfold SquooshOnly.main. rewrite fst_bind.
        destruct (fst (SquooshOnly.mainDiscover cfgA s)) as [files | msg | c].
        -- left.
           destruct (squoosh_mainProcess_ends cfgA files
                       (snd (SquooshOnly.mainDiscover cfgA s))) as [H | [_ H]];
             now rewrite H.
        -- right. split; [reflexivity|]. right. now exists msg.
        -- destruct Hn.
      * right. pose proof (squoosh_missing_dir cfgA s Hex) as Hd.
        unfold SquooshOnly.main. rewrite (bind_Exit _ _ _ _ _ Hd).
        split; [reflexivity | now left].
  - repeat apply conj.
    + intros files H. now rewrite sharp_exit_code, H.
    + intros Hex. pose proof (sharp_missing_dir cfgB s Hex) as Hd.
      unfold runScript, SharpSquoosh.main.
      rewrite (bind_Exit _ _ _ _ _ Hd). repeat split.
    + intros msg H. now rewrite runScript_exit_code, H.
    + rewrite runScript_exit_code.
      destruct (fs_existsSync inB (st_world s)) eqn:Hex.
      * pose proof (sharp_mainDiscover_noExit cfgB s Hex) as Hn.
        unfold noExit in Hn. unfold SharpSquoosh.main. rewrite fst_bind.
        destruct (fst (SharpSquoosh.mainDiscover cfgB s)) as [files | msg | c].
        -- left.
           destruct (sharp_mainProcess_ends cfgB files
                       (snd (SharpSquoosh.mainDiscover cfgB s))) as [H | [_ H]];
             now rewrite H.
        -- right. split; [reflexivity|]. right. now exists msg.
        -- destruct Hn.
      * right. pose proof (sharp_missing_dir cfgB s Hex) as Hd.
        unfold SharpSquoosh.main. rewrite (bind_Exit _ _ _ _ _ Hd).
        split; [reflexivity | now left].
Qed.

Lemma exit_code_of_the_process_witness :
  fst (runScript (@SquooshOnly.main (Demo.externals false) Demo.squooshConfig)
         (Demo.start Demo.world)) = 0
  /\ fst (runScript (@SharpSquoosh.main (Demo.externals false) Demo.sharpConfig)
            (Demo.start Demo.textWorld)) = 0
  /\ fst (runScript (@SquooshOnly.main (Demo.externals false) Demo.squooshConfig)
            (Demo.start Demo.bareWorld)) = 1
  /\ fst (runScript (@SharpSquoosh.main (Demo.externals false) Demo.sharpConfig)
            (Demo.start Demo.staleWorld)) = 1.
Proof.
  pose proof (@exit_code_of_the_process (Demo.externals false)
                Demo.squooshConfig Demo.sharpConfig (Demo.start Demo.world))
    as [(HA & _) _].
  pose proof (@exit_code_of_the_process (Demo.externals false)
                Demo.squooshConfig Demo.sharpConfig (Demo.start Demo.textWorld))
    as [_ (HB & _)].
  pose proof (@exit_code_of_the_process (Demo.externals false)
                Demo.squooshConfig Demo.sharpConfig (Demo.start Demo.bareWorld))
    as [(_ & HC & _) _].
  pose proof (@exit_code_of_the_process (Demo.externals false)
                Demo.squooshConfig Demo.sharpConfig (Demo.start Demo.staleWorld))
    as [_ (_ & _ & HD & _)].
  split; [|split; [|split]].
  - exact (HA ["jump/a/photo.png"; "jump/b/icon.jpg"; "jump/broken.png"] eq_refl).
  - exact (HB [] eq_refl).
  - exact (proj1 (HC eq_refl)).
  - exact (HD "ENOENT: no such file or directory, stat" eq_refl).
Defined.

(** ** The cropping stage *)

Section CropFacts.
Context {E : Externals}.

Lemma cropPlan_some (cfg : SquooshOnly.Config) (W H : Z) (plan : SquooshOnly.CropPlan) :
  SquooshOnly.cropPlan cfg W H = Some plan ->
  SquooshOnly.crop_enabled (SquooshOnly.cropOptions cfg) = true
  /\ W > SquooshOnly.crop_width (SquooshOnly.cropOptions cfg).
Proof.
  unfold SquooshOnly.cropPlan.
  destruct (SquooshOnly.crop_enabled (SquooshOnly.cropOptions cfg)); [|discriminate].
  destruct (W >? SquooshOnly.crop_width (SquooshOnly.cropOptions cfg)) eqn:Hw;
    [|discriminate].
  intros _. split; [reflexivity|]. apply Z.gtb_lt in Hw. lia.
Qed.

Lemma cropPlan_none (cfg : SquooshOnly.Config) (W H : Z) :
  W <= SquooshOnly.crop_width (SquooshOnly.cropOptions cfg) ->
  SquooshOnly.cropPlan cfg W H = None.
Proof.
  intros Hle. unfold SquooshOnly.cropPlan.
  assert (Hb : (W >? SquooshOnly.crop_width (SquooshOnly.cropOptions cfg)) = false)
    by (rewrite Z.gtb_ltb; apply Z.ltb_ge; lia).
  now rewrite Hb, andb_false_r.
Qed.

Lemma extractRegion_some (cfg : SharpSquoosh.Config) (md : Metadata)
  (region : ExtractRegion) :
  SharpSquoosh.extractRegion cfg md = Some region ->
  exists W, md_width md = Some W
            /\ W > SharpSquoosh.crop_width (SharpSquoosh.crop cfg)
            /\ region = mkExtractRegion
                          (centerOffset W (SharpSquoosh.crop_width (SharpSquoosh.crop cfg)))
                          0 (SharpSquoosh.crop_width (SharpSquoosh.crop cfg))
                          (md_height md).
Proof.
  unfold SharpSquoosh.extractRegion, SharpSquoosh.noCropNeeded.
  destruct (md_width md) as [W|]; [|discriminate].
  destruct (W =? 0); [discriminate|]. simpl.
  destruct (W <=? SharpSquoosh.crop_width (SharpSquoosh.crop cfg)) eqn:Hw;
    [discriminate|].
  intros H. injection H as <-. exists W. apply Z.leb_gt in Hw.
  repeat split. lia.
Qed.

Lemma extractRegion_none (cfg : SharpSquoosh.Config) (md : Metadata) (W : Z) :
  md_width md = Some W ->
  W <= SharpSquoosh.crop_width (SharpSquoosh.crop cfg) ->
  SharpSquoosh.extractRegion cfg md = None.
Proof.
  intros Hmd Hle. unfold SharpSquoosh.extractRegion, SharpSquoosh.noCropNeeded.
  rewrite Hmd.
  assert (Hb : (W <=? SharpSquoosh.crop_width (SharpSquoosh.crop cfg)) = true)
    by (apply Z.leb_le; lia).
  now rewrite Hb, orb_true_r.
Qed.

(** What [cropImage] does, by the answer of [metadata()]. *)
Lemma cropImage_run (cfg : SharpSquoosh.Config) (inputBuffer : bytes) (s : St) :
  SharpSquoosh.cropImage cfg inputBuffer s
  = match sharp_metadata inputBuffer with
    | Throws msg =>
        (Throw (SharpSquoosh.cropFailed ++ msg),
         mkSt (st_world s) (st_stats s) (st_trace s ++ [SharpMetadata]))
    | Returns md =>
        match SharpSquoosh.extractRegion cfg md with
        | None =>
            (Ok inputBuffer,
             mkSt (st_world s) (st_stats s) (st_trace s ++ [SharpMetadata]))
        | Some region =>
            (match sharp_extract region inputBuffer with
             | Returns out => Ok out
             | Throws msg => Throw (SharpSquoosh.cropFailed ++ msg)
             end,
             mkSt (st_world s) (st_stats s)
               (st_trace s ++ [SharpMetadata; SharpExtract region]))
        end
    end.
Proof.
  unfold SharpSquoosh.cropImage, tryCatch, bind, emit, liftF, ret, throw.
  destruct (sharp_metadata inputBuffer) as [md | msg]; [|reflexivity].
  destruct (SharpSquoosh.extractRegion cfg md) as [region|]; [|reflexivity].
  cbn [st_world st_stats st_trace]. rewrite <- app_assoc.
  destruct (sharp_extract region inputBuffer); reflexivity.
Qed.

End CropFacts.

(** C2: in both scripts a crop rectangle is computed only for an image
    strictly wider than the crop target, and in the sharp script [extract]
    is called only then.  For an image whose width is at most the target,
    [cropImage] returns the buffer it was given after asking for the
    metadata and nothing else, and the squoosh-only script builds the
    preprocess options it builds with cropping switched off. *)
Theorem crop_only_for_wider_images {E : Externals}
  (cfgA : SquooshOnly.Config) (cfgB : SharpSquoosh.Config) :
  let TA := SquooshOnly.crop_width (SquooshOnly.cropOptions cfgA) in
  let TB := SharpSquoosh.crop_width (SharpSquoosh.crop cfgB) in
  (forall W H plan, SquooshOnly.cropPlan cfgA W H = Some plan -> W > TA)
  /\ (forall W H, W <= TA ->
        SquooshOnly.cropPlan cfgA W H = None
        /\ SquooshOnly.buildPreprocessOpts cfgA W H
           = SquooshOnly.buildPreprocessOpts (SquooshOnly.withoutCrop cfgA) W H)
  /\ (forall md region, SharpSquoosh.extractRegion cfgB md = Some region ->
        exists W, md_width md = Some W /\ W > TB)
  /\ (forall inputBuffer s region,
        In (SharpExtract region)
          (st_trace (snd (SharpSquoosh.cropImage cfgB inputBuffer s))) ->
        ~ In (SharpExtract region) (st_trace s) ->
        exists md W, sharp_metadata inputBuffer = Returns md
                     /\ md_width md = Some W /\ W > TB
                     /\ SharpSquoosh.extractRegion cfgB md = Some region)
  /\ (forall inputBuffer s md W,
        sharp_metadata inputBuffer = Returns md ->
        md_width md = Some W -> W <= TB ->
        SharpSquoosh.cropImage cfgB inputBuffer s
        = (Ok inputBuffer,
           mkSt (st_world s) (st_stats s) (st_trace s ++ [SharpMetadata]))).
Proof.
  intros TA TB. repeat apply conj.
  - intros W H plan Hp. now destruct (cropPlan_some cfgA W H plan Hp).
  - intros W H Hle. pose proof (cropPlan_none cfgA W H Hle) as Hn.
    split; [exact Hn|]. unfold SquooshOnly.buildPreprocessOpts. now rewrite Hn.
  - intros md region Hr.
    destruct (extractRegion_some cfgB md region Hr) as (W & Hw & Hgt & _).
    now exists W.
  - intros inputBuffer s region Hin Hnot. rewrite cropImage_run in Hin.
    destruct (sharp_metadata inputBuffer) as [md | msg].
    + destruct (SharpSquoosh.extractRegion cfgB md) as [r|] eqn:Hr.
      * cbn [snd st_trace] in Hin. apply in_app_or in Hin as [Hin | Hin];
          [contradiction|].
        destruct Hin as [Hin | [Hin | []]]; [discriminate|].
        injection Hin as ->.
        destruct (extractRegion_some cfgB md region Hr) as (W & Hw & Hgt & _).
        exists md, W. auto.
      * cbn [snd st_trace] in Hin. apply in_app_or in Hin as [Hin | Hin];
          [contradiction|].
        destruct Hin as [Hin | []]. discriminate.
    + cbn [snd st_trace] in Hin. apply in_app_or in Hin as [Hin | Hin];
        [contradiction|].
      destruct Hin as [Hin | []]. discriminate.
  - intros inputBuffer s md W Hmd Hw Hle. rewrite cropImage_run, Hmd.
    now rewrite (extractRegion_none cfgB md W Hw Hle).
Qed.

Lemma crop_only_for_wider_images_witness :
  200 > 50
  /\ @SharpSquoosh.cropImage (Demo.externals false) Demo.sharpConfig
       [Demo.b 20; Demo.b 15; Demo.b 7; Demo.b 7] (Demo.start Demo.openWorld)
     = (Ok [Demo.b 20; Demo.b 15; Demo.b 7; Demo.b 7],
        @mkSt (Demo.externals false) Demo.openWorld (mkStats 0 0 0 0 0)
          [SharpMetadata]).
Proof.
  pose proof (@crop_only_for_wider_images (Demo.externals false)
                Demo.squooshConfig Demo.sharpConfig) as (HA & _ & _ & _ & HB).
  split.
  - exact (HA 200 100 (SquooshOnly.mkCropPlan 50 100 75) eq_refl).
  - refine (HB [Demo.b 20; Demo.b 15; Demo.b 7; Demo.b 7]
              (Demo.start Demo.openWorld)
              (mkMetadata (Some 20) (Some 15)) 20 eq_refl eq_refl _).
    simpl. lia.
Defined.

Section StretchFacts.
Context {E : Externals}.

Lemma readFileSync_run (p : string) (s : St) (data : bytes) :
  fs_readFileSync p (st_world s) = Returns data ->
  readFileSync p s
  = (Ok data, mkSt (st_world s) (st_stats s) (st_trace s ++ [FsRead p])).
Proof.
  intros H. unfold readFileSync, bind, emit, readWorld.
  cbn [st_world]. now rewrite H.
Qed.

Lemma awaitDecoded_run (image : Image) (s : St) (bitmap : Bitmap) :
  decoded image = Returns bitmap ->
  awaitDecoded image s
  = (Ok bitmap, mkSt (st_world s) (st_stats s) (st_trace s ++ [CodecDecode])).
Proof. intros H. unfold awaitDecoded, bind, emit. now rewrite H. Qed.

Lemma modifyStats_run (f : Stats -> Stats) (s : St) :
  modifyStats f s = (Ok tt, mkSt (st_world s) (f (st_stats s)) (st_trace s)).
Proof. reflexivity. Qed.

Lemma squoosh_loop_never_extracts (cfg : SquooshOnly.Config) (n : Z)
  (files : list string) :
  forall i, preserves (traceGrows notExtract) (SquooshOnly.loop cfg i n files).
Proof.
  induction files as [|f files IH]; intros i; simpl.
  - apply preserves_ret.
  - apply preserves_bind; [| intros _; apply IH].
    unfold SquooshOnly.iteration, SquooshOnly.processFile. preserves_tac.
Qed.

(** No run of the squoosh-only [compressImages] calls [extract]. *)
Lemma squoosh_never_extracts (cfg : SquooshOnly.Config) (files : list string) :
  preserves (traceGrows notExtract) (SquooshOnly.compressImages cfg files).
Proof.
  unfold SquooshOnly.compressImages. cbv zeta.
  apply preserves_bind; [preserves_tac | intros _].
  apply preserves_bind; [preserves_tac | intros _].
  apply preserves_bind; [apply squoosh_loop_never_extracts | intros _; preserves_tac].
Qed.

Lemma bind_emit {A B} (e : Event) (f : unit -> M A) (k : A -> M B) (s : St) :
  bind (bind (emit e) f) k s = bind (f tt) k (snd (emit e s)).
Proof. reflexivity. Qed.

Lemma stretch_options (cfg : SquooshOnly.Config) (W H : Z) :
  SquooshOnly.crop_enabled (SquooshOnly.cropOptions cfg) = true ->
  W > SquooshOnly.crop_width (SquooshOnly.cropOptions cfg) ->
  SquooshOnly.cropPlan cfg W H
  = Some (SquooshOnly.mkCropPlan
            (SquooshOnly.crop_width (SquooshOnly.cropOptions cfg))
            (if SquooshOnly.keepHeight (SquooshOnly.cropOptions cfg) then H
             else resize_height
                    (cfg_resize (preprocessOptions (SquooshOnly.common cfg))))
            (centerOffset W (SquooshOnly.crop_width (SquooshOnly.cropOptions cfg)))).
Proof.
  intros Hen Hgt. unfold SquooshOnly.cropPlan. rewrite Hen.
  assert (Hb : (W >? SquooshOnly.crop_width (SquooshOnly.cropOptions cfg)) = true)
    by (apply Z.gtb_lt; lia).
  now rewrite Hb.
Qed.

(** The first events of the [try] block for an image wider than the crop
    target: the offset goes to the console, the options to the codec. *)
Lemma squoosh_processFile_trace (cfg : SquooshOnly.Config) (i n : Z)
  (inputPath relativePath : string) (s : St) (data : bytes) (W H : Z) :
  fs_readFileSync inputPath (st_world s) = Returns data ->
  decoded (ingestImage data) = Returns (mkBitmap W H) ->
  SquooshOnly.crop_enabled (SquooshOnly.cropOptions cfg) = true ->
  W > SquooshOnly.crop_width (SquooshOnly.cropOptions cfg) ->
  exists rest,
    st_trace (snd (SquooshOnly.processFile cfg i n inputPath relativePath s))
    = (st_trace s
       ++ [ConsoleLog (LProgress (i + 1) n relativePath);
           FsRead inputPath;
           CodecDecode;
           ConsoleLog (LOriginalSize W H);
           ConsoleLog
             (LCrop (SquooshOnly.crop_width (SquooshOnly.cropOptions cfg))
                (centerOffset W
                   (SquooshOnly.crop_width (SquooshOnly.cropOptions cfg))));
           CodecPreprocess (SquooshOnly.buildPreprocessOpts cfg W H)]
       ++ rest)%list
    /\ Forall notExtract rest.
Proof.
  intros Hread Hdec Hen Hgt. unfold SquooshOnly.processFile.
  erewrite bind_Ok by apply consoleLog_run.
  erewrite bind_Ok by (apply readFileSync_run; exact Hread).
  cbv zeta.
  erewrite bind_Ok by apply modifyStats_run.
  erewrite bind_Ok by (apply awaitDecoded_run; exact Hdec).
  cbn [bm_width bm_height].
  erewrite bind_Ok by apply consoleLog_run.
  rewrite (stretch_options cfg W H Hen Hgt).
  cbn [SquooshOnly.cropWidth SquooshOnly.cropLeft].
  erewrite bind_Ok by apply consoleLog_run.
  assert (Hk : hasKeys (SquooshOnly.buildPreprocessOpts cfg W H) = true).
  { unfold SquooshOnly.buildPreprocessOpts.
    now rewrite (stretch_options cfg W H Hen Hgt). }
  rewrite Hk. unfold awaitPreprocess. rewrite bind_emit.
  match goal with
  | |- context [bind ?m ?k ?st] =>
      assert (Hp : preserves (traceGrows notExtract) (bind m k))
        by (apply preserves_bind; [apply preserves_liftF | intros ?; preserves_tac]);
      destruct (Hp st) as [_ (rest & Hrest & Hall)]
  end.
  exists rest. split; [|exact Hall].
  rewrite Hrest. cbn [emit snd st_trace]. now rewrite <- !app_assoc.
Qed.

(** The codec is handed the whole ingested input together with these
    options: when it rejects the pair, that is the error of the file. *)
Lemma squoosh_processFile_preprocess (cfg : SquooshOnly.Config) (i n : Z)
  (inputPath relativePath : string) (s : St) (data : bytes) (W H : Z)
  (msg : string) :
  fs_readFileSync inputPath (st_world s) = Returns data ->
  decoded (ingestImage data) = Returns (mkBitmap W H) ->
  SquooshOnly.crop_enabled (SquooshOnly.cropOptions cfg) = true ->
  W > SquooshOnly.crop_width (SquooshOnly.cropOptions cfg) ->
  preprocess (SquooshOnly.buildPreprocessOpts cfg W H) (ingestImage data)
  = Throws msg ->
  fst (SquooshOnly.processFile cfg i n inputPath relativePath s) = Throw msg.
Proof.
  intros Hread Hdec Hen Hgt Hpre. unfold SquooshOnly.processFile.
  erewrite bind_Ok by apply consoleLog_run.
  erewrite bind_Ok by (apply readFileSync_run; exact Hread).
  cbv zeta.
  erewrite bind_Ok by apply modifyStats_run.
  erewrite bind_Ok by (apply awaitDecoded_run; exact Hdec).
  cbn [bm_width bm_height].
  erewrite bind_Ok by apply consoleLog_run.
  rewrite (stretch_options cfg W H Hen Hgt).
  cbn [SquooshOnly.cropWidth SquooshOnly.cropLeft].
  erewrite bind_Ok by apply consoleLog_run.
  assert (Hk : hasKeys (SquooshOnly.buildPreprocessOpts cfg W H) = true).
  { unfold SquooshOnly.buildPreprocessOpts.
    now rewrite (stretch_options cfg W H Hen Hgt). }
  rewrite Hk. unfold awaitPreprocess. rewrite bind_emit.
  rewrite fst_bind. now rewrite Hpre.
Qed.

End StretchFacts.

(** C3: in the squoosh-only script, for an image wider than the crop
    target (cropping enabled), the [resize] entry handed to the codec is a
    resize of the whole image to the target width with [fitMethod]
    ["stretch"]; the options do not depend on the width of the image, hence
    not on the centred left offset, which only appears in a console line;
    the codec is handed these options together with the whole ingested
    input buffer, and no run of [compressImages] ever calls an extract
    operation. *)
Theorem squoosh_crop_is_stretch_resize {E : Externals}
  (cfg : SquooshOnly.Config) (W H : Z) :
  SquooshOnly.crop_enabled (SquooshOnly.cropOptions cfg) = true ->
  W > SquooshOnly.crop_width (SquooshOnly.cropOptions cfg) ->
  let T := SquooshOnly.crop_width (SquooshOnly.cropOptions cfg) in
  let opts := SquooshOnly.buildPreprocessOpts cfg W H in
  po_resize opts
  = Some (mkResizeOptions true T
            (if SquooshOnly.keepHeight (SquooshOnly.cropOptions cfg) then H
             else resize_height
                    (cfg_resize (preprocessOptions (SquooshOnly.common cfg))))
            (Some "lanczos3") (Some "stretch") (Some true) (Some true))
  /\ hasKeys opts = true
  /\ (forall W', W' > T -> SquooshOnly.buildPreprocessOpts cfg W' H = opts)
  /\ (forall i n inputPath relativePath s data,
        fs_readFileSync inputPath (st_world s) = Returns data ->
        decoded (ingestImage data) = Returns (mkBitmap W H) ->
        exists rest,
          st_trace (snd (SquooshOnly.processFile cfg i n inputPath relativePath s))
          = (st_trace s
             ++ [ConsoleLog (LProgress (i + 1) n relativePath);
                 FsRead inputPath;
                 CodecDecode;
                 ConsoleLog (LOriginalSize W H);
                 ConsoleLog (LCrop T (centerOffset W T));
                 CodecPreprocess opts]
             ++ rest)%list
          /\ Forall notExtract rest)
  /\ (forall i n inputPath relativePath s data msg,
        fs_readFileSync inputPath (st_world s) = Returns data ->
        decoded (ingestImage data) = Returns (mkBitmap W H) ->
        preprocess opts (ingestImage data) = Throws msg ->
        fst (SquooshOnly.processFile cfg i n inputPath relativePath s) = Throw msg)
  /\ (forall files s,
        traceGrows notExtract s (snd (SquooshOnly.compressImages cfg files s))).
Proof.
  intros Hen Hgt T opts. subst opts. repeat apply conj.
  - unfold SquooshOnly.buildPreprocessOpts.
    now rewrite (stretch_options cfg W H Hen Hgt).
  - unfold SquooshOnly.buildPreprocessOpts.
    now rewrite (stretch_options cfg W H Hen Hgt).
  - intros W' Hgt'. unfold SquooshOnly.buildPreprocessOpts.
    now rewrite (stretch_options cfg W H Hen Hgt),
      (stretch_options cfg W' H Hen Hgt').
  - intros i n inputPath relativePath s data Hread Hdec.
    exact (squoosh_processFile_trace cfg i n inputPath relativePath s data W H
             Hread Hdec Hen Hgt).
  - intros i n inputPath relativePath s data msg Hread Hdec Hpre.
    exact (squoosh_processFile_preprocess cfg i n inputPath relativePath s data
             W H msg Hread Hdec Hen Hgt Hpre).
  - intros files s. apply squoosh_never_extracts.
Qed.

Lemma squoosh_crop_is_stretch_resize_witness :
  po_resize (SquooshOnly.buildPreprocessOpts SquooshOnly.CONFIG 600 400)
  = Some (mkResizeOptions true 338 400
            (Some "lanczos3") (Some "stretch") (Some true) (Some true))
  /\ SquooshOnly.buildPreprocessOpts SquooshOnly.CONFIG 1000 400
     = SquooshOnly.buildPreprocessOpts SquooshOnly.CONFIG 600 400.
Proof.
  pose proof (@squoosh_crop_is_stretch_resize (Demo.externals false)
                SquooshOnly.CONFIG 600 400 eq_refl ltac:(simpl; lia))
    as (H1 & _ & H2 & _).
  split; [exact H1 | apply H2; simpl; lia].
Defined.

(** ** The displayed reduction *)

Lemma reductionNumber_finite (inputSize outputSize : Z) :
  0 < inputSize ->
  reductionNumber inputSize outputSize
  = Finite ((1 - inject_Z outputSize / inject_Z inputSize) * 100)%Q.
Proof.
  intros Hin. unfold reductionNumber, ofZ, jsDiv, jsSub, jsMul, Qsign.
  cbn [Qnum inject_Z]. destruct inputSize; try lia. reflexivity.
Qed.

Lemma toFixed2_nearest (q : Q) :
  exists neg n,
    toFixed2 (Finite q) = Hundredths neg n
    /\ (Qabs (fixed2Value neg n - q) <= 1 # 200)%Q.
Proof.
  unfold toFixed2, fixed2Value, Qsign.
  set (n := Qfloor (Qabs q * 100 + (1 # 2))).
  pose proof (Qfloor_le (Qabs q * 100 + (1 # 2))) as Hlo.
  pose proof (Qlt_floor (Qabs q * 100 + (1 # 2))) as Hhi.
  fold n in Hlo, Hhi.
  assert (Hn1 : (inject_Z (n + 1) == inject_Z n + 1)%Q)
    by (rewrite inject_Z_plus; reflexivity).
  rewrite Hn1 in Hhi.
  destruct (Z.compare_spec (Qnum q) 0) as [Hz | Hneg | Hpos].
  - exists false, n. split; [reflexivity|]. clearbody n.
    assert (Hq : (q == 0)%Q) by (destruct q; unfold Qeq; simpl in *; lia).
    rewrite Hq in *. change (Qabs 0) with 0%Q in *.
    unfold Qdiv. change (/ 100)%Q with (1 # 100)%Q.
    apply Qabs_Qle_condition. split; lra.
  - exists true, n. split; [reflexivity|]. clearbody n.
    assert (Hq : (q < 0)%Q) by (destruct q; unfold Qlt; simpl in *; lia).
    assert (Ha : (Qabs q == - q)%Q) by (apply Qabs_neg; lra).
    rewrite Ha in *. unfold Qdiv. change (/ 100)%Q with (1 # 100)%Q.
    apply Qabs_Qle_condition. split; lra.
  - exists false, n. split; [reflexivity|]. clearbody n.
    assert (Hq : (0 < q)%Q) by (destruct q; unfold Qlt; simpl in *; lia).
    assert (Ha : (Qabs q == q)%Q) by (apply Qabs_pos; lra).
    rewrite Ha in *. unfold Qdiv. change (/ 100)%Q with (1 # 100)%Q.
    apply Qabs_Qle_condition. split; lra.
Qed.

(** For a file that is not empty the displayed reduction is
    [(1 - outputSize / inputSize) * 100] rounded to two decimals. *)
Lemma reduction_rounds_to_two_decimals (inputSize outputSize : Z) :
  0 < inputSize ->
  exists neg n,
    reductionText inputSize outputSize = Hundredths neg n
    /\ (Qabs (fixed2Value neg n
              - (1 - inject_Z outputSize / inject_Z inputSize) * 100)
        <= 1 # 200)%Q.
Proof.
  intros Hin. unfold reductionText. rewrite reductionNumber_finite by assumption.
  apply toFixed2_nearest.
Qed.

(** Whatever a file of no bytes is encoded to, its reduction is displayed
    as ["-Infinity"]. *)
Lemma reduction_of_empty_input (outputSize : Z) :
  0 < outputSize -> reductionText 0 outputSize = FixedNegInfinity.
Proof.
  intros Hout. unfold reductionText, reductionNumber, ofZ, jsDiv, jsSub,
    jsMul, Qsign. cbn [Qnum inject_Z].
  destruct outputSize; try lia. reflexivity.
Qed.


(** ** Discovery feeds the path mirror *)

Section DiscoveryFacts.
Context {E : Externals}.
Hypothesis cwd_absolute : NodePath.isAbsolute cwd = true.

(** Directory listings consist of names. *)
Hypothesis listings_are_names :
  forall p w items,
    fs_readdirSync p w = Returns items ->
    Forall (fun x => isName x = true) items.

Lemma bind_inv_Ok {A B} (m : M A) (k : A -> M B) (s s' : St) (b : B) :
  bind m k s = (Ok b, s') ->
  exists a s1, m s = (Ok a, s1) /\ k a s1 = (Ok b, s').
Proof.
  unfold bind. destruct (m s) as [[a | msg | c] s1]; try discriminate.
  intros H. now exists a, s1.
Qed.

Lemma forEach_invariant {A B} (P : B -> Prop) (f : A -> B -> M B)
  (items : list A) :
  (forall a b s b' s', In a items -> P b -> f a b s = (Ok b', s') -> P b') ->
  forall acc s r s', P acc -> forEach f items acc s = (Ok r, s') -> P r.
Proof.
  induction items as [|x items IH]; intros Hf acc s r s' Hacc Hrun; simpl in Hrun.
  - injection Hrun as <- _. exact Hacc.
  - apply bind_inv_Ok in Hrun as (b1 & s1 & H1 & H2).
    apply (IH (fun a b s0 b' s0' Hin => Hf a b s0 b' s0' (or_intror Hin))
              b1 s1 r s'); [|exact H2].
    exact (Hf x acc s b1 s1 (or_introl eq_refl) Hacc H1).
Qed.

Lemma descendant_step (root p x : string) (names : list string) :
  isName x = true ->
  NodePath.resolveSegs cwd p = (NodePath.resolveSegs cwd root ++ names)%list ->
  Forall (fun s => isName s = true) names ->
  descendantBy cwd root (NodePath.join [p; x]) (names ++ [x]).
Proof.
  intros Hx Hp Hn. repeat split.
  - now destruct names.
  - apply Forall_app; split; [assumption | now repeat constructor].
  - change x with (String.concat "/" [x]) at 1.
    rewrite (resolveSegs_join cwd cwd_absolute p [x])
      by (discriminate || now repeat constructor).
    now rewrite Hp, app_assoc.
Qed.

(** Every path [readDir] adds to [files] lies below the directory it was
    started in. *)
Lemma readDir_below (formats : list string) (depth : nat) :
  forall (root currentPath : string) (above files : list string) s files' s',
    NodePath.resolveSegs cwd currentPath
    = (NodePath.resolveSegs cwd root ++ above)%list ->
    Forall (fun x => isName x = true) above ->
    readDir formats depth currentPath files s = (Ok files', s') ->
    forall f, In f files' ->
      In f files \/ exists names, descendantBy cwd root f names.
Proof.
  induction depth as [|depth IH];
    intros root currentPath above files s files' s' Hcur Habove Hrun;
    simpl in Hrun; [discriminate|].
  apply bind_inv_Ok in Hrun as (items & s1 & Hitems & Hrun).
  unfold readdirSync, bind, emit, readWorld in Hitems. cbn [st_world] in Hitems.
  destruct (fs_readdirSync currentPath (st_world s)) as [items0 | msg] eqn:Hls;
    [|discriminate].
  cbn [liftF] in Hitems. injection Hitems as <- _.
  pose proof (listings_are_names _ _ _ Hls) as Hnames.
  revert Hrun.
  apply (forEach_invariant
           (fun acc => forall f, In f acc ->
              In f files \/ exists names, descendantBy cwd root f names)).
  - intros item acc s0 acc' s0' Hin Hacc Hstep f Hf.
    assert (Hitem : isName item = true)
      by (rewrite Forall_forall in Hnames; now apply Hnames).
    pose proof (descendant_step root currentPath item above Hitem Hcur Habove)
      as Hdesc.
    apply bind_inv_Ok in Hstep as (isDir & s2 & _ & Hstep).
    destruct isDir.
    + destruct Hdesc as (_ & Hall & Hseg).
      destruct (IH root _ _ acc s2 acc' s0' Hseg Hall Hstep f Hf) as [Hold | Hnew];
        [now apply Hacc | now right].
    + destruct (includes formats (toLowerCase (NodePath.extname item))).
      * injection Hstep as <- _. apply in_app_or in Hf as [Hf | [<- | []]].
        -- now apply Hacc.
        -- right. now exists (above ++ [item])%list.
      * injection Hstep as <- _. now apply Hacc.
  - intros f Hf. now left.
Qed.

(** Every file [getImageFiles] returns lies below the input directory, and
    [getOutputPath] places it at the same relative path below the output
    directory. *)
Lemma discovered_files_are_mirrored (cfg : BaseConfig) (s s' : St)
  (imageFiles : list string) :
  getImageFiles cfg (inputDir cfg) s = (Ok imageFiles, s') ->
  forall f, In f imageFiles ->
    exists names,
      descendantBy cwd (inputDir cfg) f names
      /\ descendantBy cwd (outputDir cfg) (getOutputPath cwd cfg f None) names.
Proof.
  intros Hrun f Hf. unfold getImageFiles in Hrun.
  destruct (readDir_below (formats cfg) stackDepth (inputDir cfg) (inputDir cfg)
              [] [] s imageFiles s' (eq_sym (app_nil_r _)) (Forall_nil _)
              Hrun f Hf) as [[] | (names & Hdesc)].
  exists names. split; [exact Hdesc|].
  destruct (getOutputPath_join cwd cfg f None names cwd_absolute Hdesc eq_refl)
    as (Hout & Hne & Hnames).
  repeat split; try assumption.
  rewrite Hout. now apply resolveSegs_join.
Qed.

End DiscoveryFacts.

(** ** Byte accounting *)

Section AccountingFacts.
Context {E : Externals}.

#[export] Instance sameInputTotal_frame :
  Frame sameInputTotal (fun _ => True) keepsInputTotal.
Proof.
  split; unfold sameInputTotal.
  - reflexivity.
  - intros s1 s2 s3 H1 H2. now rewrite H2.
  - reflexivity.
  - reflexivity.
  - intros s f Hf. exact (Hf (st_stats s)).
Qed.

Lemma readFileSync_throws (p : string) (s : St) (msg : string) :
  fs_readFileSync p (st_world s) = Throws msg ->
  readFileSync p s
  = (Throw msg, mkSt (st_world s) (st_stats s) (st_trace s ++ [FsRead p])).
Proof.
  intros H. unfold readFileSync, bind, emit, readWorld.
  cbn [st_world]. now rewrite H.
Qed.

Lemma bind_Throw {A B} (m : M A) (k : A -> M B) (s s1 : St) (msg : string) :
  m s = (Throw msg, s1) -> bind m k s = (Throw msg, s1).
Proof. intros H. unfold bind. now rewrite H. Qed.

(** The [try] block adds to [totalInputSize] the bytes it read, whether it
    goes on to succeed or not. *)
Lemma squoosh_processFile_input (cfg : SquooshOnly.Config) (i n : Z)
  (inputPath relativePath : string) (s : St) :
  totalInputSize
    (st_stats (snd (SquooshOnly.processFile cfg i n inputPath relativePath s)))
  = totalInputSize (st_stats s) + readSize inputPath s.
Proof.
  unfold SquooshOnly.processFile, readSize.
  erewrite bind_Ok by apply consoleLog_run.
  destruct (fs_readFileSync inputPath (st_world s)) as [data | msg] eqn:Hr.
  - erewrite bind_Ok by (apply readFileSync_run; exact Hr).
    cbv zeta. erewrite bind_Ok by apply modifyStats_run.
    match goal with
    | |- context [bind ?m ?k ?st] =>
        assert (Hp : preserves sameInputTotal (bind m k)) by preserves_tac;
        destruct (Hp st) as [_ Hsame]
    end.
    unfold sameInputTotal in Hsame. rewrite Hsame. reflexivity.
  - erewrite bind_Throw by (apply readFileSync_throws; exact Hr).
    cbn. lia.
Qed.

Lemma sharp_processFile_input (cfg : SharpSquoosh.Config) (i n : Z)
  (inputPath relativePath : string) (s : St) :
  totalInputSize
    (st_stats (snd (SharpSquoosh.processFile cfg i n inputPath relativePath s)))
  = totalInputSize (st_stats s) + readSize inputPath s.
Proof.
  unfold SharpSquoosh.processFile, readSize.
  erewrite bind_Ok by apply consoleLog_run.
  destruct (fs_readFileSync inputPath (st_world s)) as [data | msg] eqn:Hr.
  - erewrite bind_Ok by (apply readFileSync_run; exact Hr).
    cbv zeta. erewrite bind_Ok by apply modifyStats_run.
    match goal with
    | |- context [bind ?m ?k ?st] =>
        assert (Hp : preserves sameInputTotal (bind m k))
          by (unfold SharpSquoosh.cropImage; preserves_tac);
        destruct (Hp st) as [_ Hsame]
    end.
    unfold sameInputTotal in Hsame. rewrite Hsame. reflexivity.
  - erewrite bind_Throw by (apply readFileSync_throws; exact Hr).
    cbn. lia.
Qed.

Lemma squoosh_iteration_input (cfg : SquooshOnly.Config) (i n : Z)
  (inputPath : string) (s : St) :
  totalInputSize (st_stats (snd (SquooshOnly.iteration cfg i n inputPath s)))
  = totalInputSize (st_stats s) + readSize inputPath s.
Proof.
  unfold SquooshOnly.iteration. cbv zeta.
  unfold bind at 1. unfold tryCatchFinally, tryCatch. cbn [emit].
  match goal with
  | |- context [SquooshOnly.processFile ?c ?i ?n ?p ?r ?st] =>
      pose proof (squoosh_processFile_input c i n p r st) as Hc;
      destruct (SquooshOnly.processFile c i n p r st) as [[[] | msg | c'] s1]
  end; cbn in Hc |- *; exact Hc.
Qed.

Lemma sharp_iteration_input (cfg : SharpSquoosh.Config) (i n : Z)
  (inputPath : string) (s : St) :
  totalInputSize (st_stats (snd (SharpSquoosh.iteration cfg i n inputPath s)))
  = totalInputSize (st_stats s) + readSize inputPath s.
Proof.
  unfold SharpSquoosh.iteration. cbv zeta. unfold tryCatch.
  match goal with
  | |- context [SharpSquoosh.processFile ?c ?i ?n ?p ?r ?st] =>
      pose proof (sharp_processFile_input c i n p r st) as Hc;
      destruct (SharpSquoosh.processFile c i n p r st) as [[[] | msg | c'] s1]
  end; cbn in Hc |- *; exact Hc.
Qed.

Lemma squoosh_loop_input (cfg : SquooshOnly.Config) (n : Z) (files : list string) :
  forall i s,
    totalInputSize (st_stats (snd (SquooshOnly.loop cfg i n files s)))
    = totalInputSize (st_stats s) + sumZ (SquooshOnly.inputSizes cfg i n files s).
Proof.
  induction files as [|f files IH]; intros i s.
  - simpl. lia.
  - cbn [SquooshOnly.loop SquooshOnly.inputSizes sumZ fold_right].
    destruct (squoosh_iteration_counts cfg i n f s) as (s1 & H1 & _).
    rewrite (bind_Ok _ _ _ _ _ H1).
    pose proof (squoosh_iteration_input cfg i n f s) as Hi.
    rewrite H1 in *. cbn [snd] in *. rewrite IH, Hi. unfold sumZ. lia.
Qed.

Lemma sharp_loop_input (cfg : SharpSquoosh.Config) (n : Z) (files : list string) :
  forall i s,
    totalInputSize (st_stats (snd (SharpSquoosh.loop cfg i n files s)))
    = totalInputSize (st_stats s) + sumZ (SharpSquoosh.inputSizes cfg i n files s).
Proof.
  induction files as [|f files IH]; intros i s.
  - simpl. lia.
  - cbn [SharpSquoosh.loop SharpSquoosh.inputSizes sumZ fold_right].
    destruct (sharp_iteration_counts cfg i n f s) as (s1 & H1 & _).
    rewrite (bind_Ok _ _ _ _ _ H1).
    pose proof (sharp_iteration_input cfg i n f s) as Hi.
    rewrite H1 in *. cbn [snd] in *. rewrite IH, Hi. unfold sumZ. lia.
Qed.

(** X17: what [compressImages] returns as [totalInputSize] is the sum of
    the bytes of every file it could read, whether the file went on to
    fail or not. *)
Lemma input_total_counts_every_file_read
  (cfgA : SquooshOnly.Config) (cfgB : SharpSquoosh.Config)
  (imageFiles : list string) (s : St) :
  (exists st s',
      SquooshOnly.compressImages cfgA imageFiles s = (Ok st, s')
      /\ totalInputSize st
         = sumZ (SquooshOnly.inputSizes cfgA 0 (Z.of_nat (List.length imageFiles))
                   imageFiles (SquooshOnly.loopStart imageFiles s)))
  /\ (exists st s',
        SharpSquoosh.compressImages cfgB imageFiles s = (Ok st, s')
        /\ totalInputSize st
           = sumZ (SharpSquoosh.inputSizes cfgB 0
                     (Z.of_nat (List.length imageFiles))
                     imageFiles (SharpSquoosh.loopStart cfgB imageFiles s))).
Proof.
  set (n := Z.of_nat (List.length imageFiles)). split.
  - destruct (squoosh_loop_counts cfgA n imageFiles 0
                (SquooshOnly.loopStart imageFiles s)) as (s1 & H1 & _).
    pose proof (squoosh_loop_input cfgA n imageFiles 0
                  (SquooshOnly.loopStart imageFiles s)) as Hin.
    rewrite H1 in Hin. cbn in Hin.
    exists (st_stats s1), s1. split; [|exact Hin].
    change (SquooshOnly.compressImages cfgA imageFiles s)
      with (bind (SquooshOnly.loop cfgA 0 n imageFiles) (fun _ => getStats)
              (SquooshOnly.loopStart imageFiles s)).
    unfold bind. now rewrite H1.
  - destruct (sharp_loop_counts cfgB n imageFiles 0
                (SharpSquoosh.loopStart cfgB imageFiles s)) as (s1 & H1 & _).
    pose proof (sharp_loop_input cfgB n imageFiles 0
                  (SharpSquoosh.loopStart cfgB imageFiles s)) as Hin.
    rewrite H1 in Hin. cbn in Hin.
    exists (st_stats s1), (snd (emit PoolClose s1)). split; [|exact Hin].
    change (SharpSquoosh.compressImages cfgB imageFiles s)
      with (bind (SharpSquoosh.loop cfgB 0 n imageFiles)
              (fun _ => bind (emit PoolClose) (fun _ => getStats))
              (SharpSquoosh.loopStart cfgB imageFiles s)).
    unfold bind at 1. now rewrite H1.
Qed.

End AccountingFacts.

(** C4, on the code: [totalInputSize] is increased as soon as a file is
    read and [totalOutputSize] as soon as it is encoded, before the steps
    that can still fail.  Of the two files of the first batch only
    [photo.png] (6 bytes in, 6 bytes out) succeeds, yet the input total is
    7: it contains the byte of [broken.png], which cannot be decoded.  In
    the second batch [icon.jpg] (4 bytes) is encoded but cannot be
    written; the output total is 10, not 6. *)
Theorem totals_include_failed_files :
  fst (@SquooshOnly.compressImages (Demo.externals false) Demo.squooshConfig
         ["jump/a/photo.png"; "jump/broken.png"] (Demo.start Demo.openWorld))
  = Ok (mkStats 2 1 1 7 6)
  /\ fst (@SharpSquoosh.compressImages (Demo.externals false) Demo.sharpConfig
            ["jump/a/photo.png"; "jump/broken.png"] (Demo.start Demo.openWorld))
     = Ok (mkStats 2 1 1 7 6)
  /\ fst (@SquooshOnly.compressImages (Demo.externals false) Demo.squooshConfig
            ["jump/a/photo.png"; "jump/b/icon.jpg"] (Demo.start Demo.world))
     = Ok (mkStats 2 1 1 10 10)
  /\ fst (@SharpSquoosh.compressImages (Demo.externals false) Demo.sharpConfig
            ["jump/a/photo.png"; "jump/b/icon.jpg"] (Demo.start Demo.world))
     = Ok (mkStats 2 1 1 10 10).
Proof. repeat split; vm_compute; reflexivity. Qed.

(* ================================================================= *)
(** * Further properties of the code *)

(** ** The encoder and the extension of the output file *)

Section EncoderFacts.

Lemma lowerAscii_idempotent (c : ascii) : lowerAscii (lowerAscii c) = lowerAscii c.
Proof. destruct c as [[] [] [] [] [] [] [] []]; reflexivity. Qed.

Lemma toLowerCase_idempotent (s : string) :
  toLowerCase (toLowerCase s) = toLowerCase s.
Proof.
  induction s as [|c s IH]; [reflexivity|].
  simpl. now rewrite lowerAscii_idempotent, IH.
Qed.

Lemma nonEmpty_toLowerCase (s : string) :
  NodePath.nonEmpty (toLowerCase s) = NodePath.nonEmpty s.
Proof. now destruct s. Qed.

(** The extension of the path [getOutputPath] builds under an override. *)
Lemma getOutputPath_extname (cwd : string) (cfg : BaseConfig) (p : string)
  (names : list string) (fmt : string) :
  NodePath.isAbsolute cwd = true ->
  descendantBy cwd (inputDir cfg) p names ->
  isExtension fmt = true ->
  NodePath.extname (getOutputPath cwd cfg p (Some fmt)) = fmt.
Proof.
  intros Hcwd Hdesc Hfmt.
  assert (Hne : NodePath.nonEmpty fmt = true) by (now destruct fmt).
  assert (Hwf : wellFormedOverride (Some fmt) = true)
    by (simpl; rewrite Hfmt; apply orb_true_r).
  destruct (getOutputPath_join cwd cfg p (Some fmt) names Hcwd Hdesc Hwf)
    as (-> & _ & Hnames).
  destruct Hdesc as (Hnn & Hin & _).
  destruct names as [|b ds] using rev_ind; [congruence|]. clear IHds.
  rewrite withExtension_snoc in *.
  apply Forall_app in Hnames as [Hds Hb']. inversion Hb' as [|? ? Hb _]; subst.
  rewrite extname_join by assumption.
  unfold overrideBase. rewrite Hne.
  apply Forall_app in Hin as [_ Hb0]. inversion Hb0 as [|? ? Hbn _]; subst.
  destruct (isName_inv b Hbn) as (H1 & H2 & _).
  destruct (splitExt_name b H1 H2) as [Hn _].
  now rewrite splitExt_with_extension.
Qed.

End EncoderFacts.

(** X1: under an override that is an extension, the encoder
    [getEncoder(inputPath, CONFIG.outputFormat)] picks is the encoder of
    the extension the output file gets; it does not depend on the input
    file, nor on the case the override is written in. *)
Theorem encoder_matches_output_extension
  (cwd : string) (cfg : BaseConfig) (p : string) (names : list string)
  (fmt : string) :
  NodePath.isAbsolute cwd = true ->
  descendantBy cwd (inputDir cfg) p names ->
  isExtension fmt = true ->
  getEncoder p (Some fmt)
  = getEncoder (getOutputPath cwd cfg p (Some fmt)) None
  /\ (forall q, getEncoder q (Some fmt) = getEncoder p (Some fmt))
  /\ getEncoder p (Some (toLowerCase fmt)) = getEncoder p (Some fmt).
Proof.
  intros Hcwd Hdesc Hfmt.
  assert (Hne : NodePath.nonEmpty fmt = true) by (now destruct fmt).
  repeat split.
  - unfold getEncoder, orElse.
    rewrite (getOutputPath_extname cwd cfg p names fmt Hcwd Hdesc Hfmt).
    now rewrite Hne.
  - intros q. unfold getEncoder, orElse. now rewrite Hne.
  - unfold getEncoder, orElse.
    now rewrite nonEmpty_toLowerCase, Hne, toLowerCase_idempotent.
Qed.

Lemma encoder_matches_output_extension_witness :
  getEncoder "jump/a/photo.png" (Some ".WebP")
  = getEncoder
      (getOutputPath "/home/user" (SquooshOnly.common SquooshOnly.CONFIG)
         "jump/a/photo.png" (Some ".WebP")) None
  /\ (forall q, getEncoder q (Some ".WebP")
                = getEncoder "jump/a/photo.png" (Some ".WebP"))
  /\ getEncoder "jump/a/photo.png" (Some (toLowerCase ".WebP"))
     = getEncoder "jump/a/photo.png" (Some ".WebP").
Proof.
  refine (encoder_matches_output_extension "/home/user"
            (SquooshOnly.common SquooshOnly.CONFIG)
            "jump/a/photo.png" ["a"; "photo.png"] ".WebP" eq_refl _ eq_refl).
  split; [discriminate|]. split; [repeat constructor | reflexivity].
Defined.

(** ** [cropImage] at its edges *)

(** X2: an image whose metadata carries no width, or the width 0, is not
    cropped: [cropImage] returns the buffer it was given and never calls
    [extract], whatever the configured crop width. *)
Theorem cropImage_without_width_returns_input {E : Externals}
  (cfg : SharpSquoosh.Config) (inputBuffer : bytes) (md : Metadata) (s : St) :
  sharp_metadata inputBuffer = Returns md ->
  md_width md = None \/ md_width md = Some 0 ->
  SharpSquoosh.extractRegion cfg md = None
  /\ SharpSquoosh.cropImage cfg inputBuffer s
     = (Ok inputBuffer,
        mkSt (st_world s) (st_stats s) (st_trace s ++ [SharpMetadata])).
Proof.
  intros Hmd Hw.
  assert (Hnone : SharpSquoosh.extractRegion cfg md = None).
  { unfold SharpSquoosh.extractRegion, SharpSquoosh.noCropNeeded.
    destruct Hw as [-> | ->]; reflexivity. }
  split; [exact Hnone|].
  now rewrite cropImage_run, Hmd, Hnone.
Qed.

Lemma cropImage_without_width_returns_input_witness :
  SharpSquoosh.extractRegion Demo.sharpConfig (mkMetadata (Some 0) (Some 0)) = None
  /\ @SharpSquoosh.cropImage (Demo.externals true) Demo.sharpConfig []
       (Demo.startLenient Demo.openWorld)
     = (Ok [],
        @mkSt (Demo.externals true) Demo.openWorld (mkStats 0 0 0 0 0)
          [SharpMetadata]).
Proof.
  exact (@cropImage_without_width_returns_input (Demo.externals true)
           Demo.sharpConfig [] (mkMetadata (Some 0) (Some 0))
           (Demo.startLenient Demo.openWorld) eq_refl (or_intror eq_refl)).
Defined.

(** X3: [cropImage] touches neither the file system nor [stats] and never
    ends the process; when it throws, the message is the message of the
    failing sharp call ([metadata] or [extract]) behind the prefix of the
    [catch] clause. *)
Theorem cropImage_errors_are_wrapped {E : Externals}
  (cfg : SharpSquoosh.Config) (inputBuffer : bytes) (s : St) :
  st_world (snd (SharpSquoosh.cropImage cfg inputBuffer s)) = st_world s
  /\ st_stats (snd (SharpSquoosh.cropImage cfg inputBuffer s)) = st_stats s
  /\ (forall code, fst (SharpSquoosh.cropImage cfg inputBuffer s) <> Exit code)
  /\ (forall message,
        fst (SharpSquoosh.cropImage cfg inputBuffer s) = Throw message ->
        exists cause,
          message = (SharpSquoosh.cropFailed ++ cause)%string
          /\ (sharp_metadata inputBuffer = Throws cause
              \/ exists md region,
                   sharp_metadata inputBuffer = Returns md
                   /\ SharpSquoosh.extractRegion cfg md = Some region
                   /\ sharp_extract region inputBuffer = Throws cause)).
Proof.
  rewrite cropImage_run.
  destruct (sharp_metadata inputBuffer) as [md | cause] eqn:Hmd.
  - destruct (SharpSquoosh.extractRegion cfg md) as [region|] eqn:Hreg.
    + destruct (sharp_extract region inputBuffer) as [out | cause] eqn:Hex;
        cbn [fst snd st_world st_stats]; repeat split; try discriminate.
      intros message Hm. injection Hm as <-. exists cause. split; [reflexivity|].
      right. now exists md, region.
    + cbn [fst snd st_world st_stats]. repeat split; discriminate.
  - cbn [fst snd st_world st_stats]. repeat split; try discriminate.
    intros message Hm. injection Hm as <-. exists cause. now split; [|left].
Qed.

(** ** The directory walk *)

Section ScanFacts.
Context {E : Externals}.

Lemma onlyScans_ret {A} (a : A) : onlyScans (ret a).
Proof.
  intros s. cbn. repeat split. exists []. split; [now rewrite app_nil_r | constructor].
Qed.

Lemma onlyScans_throw {A} (msg : string) : onlyScans (@throw E A msg).
Proof.
  intros s. cbn. repeat split. exists []. split; [now rewrite app_nil_r | constructor].
Qed.

Lemma onlyScans_bind {A B} (m : M A) (k : A -> M B) :
  onlyScans m -> (forall a, onlyScans (k a)) -> onlyScans (bind m k).
Proof.
  intros Hm Hk s. unfold bind.
  destruct (Hm s) as (Hw & Hs & l & Hl & HF).
  destruct (m s) as [[a | msg | c] s1]; cbn [snd] in *.
  - destruct (Hk a s1) as (Hw' & Hs' & l' & Hl' & HF').
    rewrite Hw', Hs', Hl', Hw, Hs, Hl. repeat split.
    exists (l ++ l')%list. split; [now rewrite app_assoc | now apply Forall_app].
  - repeat split; try assumption. now exists l.
  - repeat split; try assumption. now exists l.
Qed.

Lemma onlyScans_readdirSync (p : string) : onlyScans (readdirSync p).
Proof.
  intros s. unfold readdirSync, bind, emit, readWorld. cbn [st_world].
  destruct (fs_readdirSync p (st_world s)); cbn; repeat split;
    exists [FsReaddir p]; split; try reflexivity; repeat constructor.
Qed.

Lemma onlyScans_statIsDirectory (p : string) : onlyScans (statIsDirectory p).
Proof.
  intros s. unfold statIsDirectory, bind, emit, readWorld. cbn [st_world].
  destruct (fs_statIsDirectory p (st_world s)); cbn; repeat split;
    exists [FsStat p]; split; try reflexivity; repeat constructor.
Qed.

Lemma onlyScans_forEach {A B} (f : A -> B -> M B) (items : list A) :
  (forall a b, onlyScans (f a b)) ->
  forall acc, onlyScans (forEach f items acc).
Proof.
  intros Hf. induction items as [|x items IH]; intros acc; simpl.
  - apply onlyScans_ret.
  - apply onlyScans_bind; [apply Hf | exact IH].
Qed.

Lemma onlyScans_readDir (formats : list string) (depth : nat) :
  forall currentPath files, onlyScans (readDir formats depth currentPath files).
Proof.
  induction depth as [|depth IH]; intros currentPath files; simpl.
  - apply onlyScans_throw.
  - apply onlyScans_bind; [apply onlyScans_readdirSync|]. intros items.
    apply onlyScans_forEach. intros item acc. cbv zeta.
    apply onlyScans_bind; [apply onlyScans_statIsDirectory|]. intros [|].
    + apply IH.
    + destruct (includes formats _); apply onlyScans_ret.
Qed.

Lemma readDir_world (formats : list string) (depth : nat)
  (currentPath : string) (files files' : list string) (s s' : St) :
  readDir formats depth currentPath files s = (Ok files', s') ->
  st_world s' = st_world s.
Proof.
  intros Hrun.
  destruct (onlyScans_readDir formats depth currentPath files s) as [Hw _].
  now rewrite Hrun in Hw.
Qed.

Lemma readdirSync_inv (p : string) (s s' : St) (items : list string) :
  readdirSync p s = (Ok items, s') ->
  fs_readdirSync p (st_world s) = Returns items /\ st_world s' = st_world s.
Proof.
  unfold readdirSync, bind, emit, readWorld. cbn [st_world].
  destruct (fs_readdirSync p (st_world s)); cbn [liftF]; [|discriminate].
  intros H. injection H as <- <-. now split.
Qed.

Lemma statIsDirectory_inv (p : string) (s s' : St) (isDir : bool) :
  statIsDirectory p s = (Ok isDir, s') ->
  fs_statIsDirectory p (st_world s) = Returns isDir /\ st_world s' = st_world s.
Proof.
  unfold statIsDirectory, bind, emit, readWorld. cbn [st_world].
  destruct (fs_statIsDirectory p (st_world s)); cbn [liftF]; [|discriminate].
  intros H. injection H as <- <-. now split.
Qed.

Lemma forEach_invariant_st {A B} (P : B -> St -> Prop) (f : A -> B -> M B)
  (items : list A) :
  (forall a b s b' s', In a items -> P b s -> f a b s = (Ok b', s') -> P b' s') ->
  forall acc s r s', P acc s -> forEach f items acc s = (Ok r, s') -> P r s'.
Proof.
  induction items as [|x items IH]; intros Hf acc s r s' Hacc Hrun; simpl in Hrun.
  - injection Hrun as <- <-. exact Hacc.
  - apply bind_inv_Ok in Hrun as (b1 & s1 & H1 & H2).
    apply (IH (fun a b s0 b' s0' Hin => Hf a b s0 b' s0' (or_intror Hin))
              b1 s1 r s'); [|exact H2].
    exact (Hf x acc s b1 s1 (or_introl eq_refl) Hacc H1).
Qed.

(** Each item of a [forEach] whose steps only add to the array is visited
    in the world the loop started in, and what its step leaves in the
    array stays there. *)
Lemma forEach_visits {A} (f : A -> list string -> M (list string))
  (items : list A) :
  (forall a b s b' s',
      f a b s = (Ok b', s') -> incl b b' /\ st_world s' = st_world s) ->
  forall acc s r s',
    forEach f items acc s = (Ok r, s') ->
    incl acc r /\ st_world s' = st_world s
    /\ forall a, In a items ->
         exists b s1 b' s1',
           f a b s1 = (Ok b', s1') /\ st_world s1 = st_world s /\ incl b' r.
Proof.
  intros Hf. induction items as [|x items IH]; intros acc s r s' Hrun;
    simpl in Hrun.
  - injection Hrun as <- <-. repeat split; [apply incl_refl | intros a []].
  - apply bind_inv_Ok in Hrun as (b1 & s1 & H1 & H2).
    destruct (Hf _ _ _ _ _ H1) as [Hi1 Hw1].
    destruct (IH _ _ _ _ H2) as (Hi2 & Hw2 & Hall).
    repeat split.
    + eapply incl_tran; eassumption.
    + congruence.
    + intros a [<- | Hin].
      * exists acc, s, b1, s1. now repeat split.
      * destruct (Hall a Hin) as (b & s2 & b' & s2' & Hrun' & Hw' & Hi').
        exists b, s2, b', s2'. repeat split; [assumption | congruence | assumption].
Qed.

(** [readDir] only adds to [files]. *)
Lemma readDir_grows (formats : list string) (depth : nat) :
  forall currentPath files s files' s',
    readDir formats depth currentPath files s = (Ok files', s') ->
    incl files files' /\ st_world s' = st_world s.
Proof.
  induction depth as [|depth IH]; intros currentPath files s files' s' Hrun;
    [discriminate|].
  split; [|exact (readDir_world _ _ _ _ _ _ _ Hrun)].
  simpl in Hrun.
  apply bind_inv_Ok in Hrun as (items & s1 & _ & Hrun).
  revert Hrun.
  apply (forEach_invariant (fun acc => incl files acc)); [|apply incl_refl].
  intros item acc s0 acc' s0' _ Hacc Hstep.
  apply bind_inv_Ok in Hstep as ([|] & s2 & _ & Hstep).
  - apply IH in Hstep as [Hi _]. eapply incl_tran; eassumption.
  - destruct (includes formats _); injection Hstep as <- _;
      [now apply incl_appl | assumption].
Qed.

End ScanFacts.

Section WalkFacts.
Context {E : Externals}.

(** What one call of [readDir] does with an entry of the directory it
    lists. *)
Lemma readDir_visits (formats : list string) (depth : nat)
  (currentPath : string) (files files' : list string) (s s' : St) :
  readDir formats depth currentPath files s = (Ok files', s') ->
  forall items item,
    fs_readdirSync currentPath (st_world s) = Returns items ->
    In item items ->
    (fs_statIsDirectory (NodePath.join [currentPath; item]) (st_world s)
     = Returns false ->
     includes formats (toLowerCase (NodePath.extname item)) = true ->
     In (NodePath.join [currentPath; item]) files')
    /\ (fs_statIsDirectory (NodePath.join [currentPath; item]) (st_world s)
        = Returns true ->
        exists d f1 s1 f2 s2,
          readDir formats d (NodePath.join [currentPath; item]) f1 s1 = (Ok f2, s2)
          /\ st_world s1 = st_world s /\ incl f2 files').
Proof.
  intros Hrun items item Hls Hin.
  destruct depth as [|depth]; [discriminate|]. simpl in Hrun.
  apply bind_inv_Ok in Hrun as (items0 & s1 & Hitems & Hrun).
  apply readdirSync_inv in Hitems as [Hls0 Hw1].
  rewrite Hls in Hls0. injection Hls0 as <-.
  apply forEach_visits in Hrun as (_ & _ & Hall).
  - destruct (Hall item Hin) as (acc & s2 & acc' & s2' & Hstep & Hw2 & Hincl).
    apply bind_inv_Ok in Hstep as (isDir & s3 & Hstat & Hstep).
    apply statIsDirectory_inv in Hstat as [Hstat Hw3].
    rewrite Hw2, Hw1 in Hstat. split; intros Hdir; rewrite Hdir in Hstat;
      injection Hstat as <-.
    + intros Hfmt. rewrite Hfmt in Hstep. injection Hstep as <- _.
      apply Hincl, in_or_app. right. now left.
    + exists depth, acc, s3, acc', s2'. repeat split; [assumption | congruence | assumption].
  - intros a acc s0 acc' s0' Hstep.
    apply bind_inv_Ok in Hstep as ([|] & s2 & Hstat & Hstep);
      apply statIsDirectory_inv in Hstat as [_ Hw].
    + apply readDir_grows in Hstep as [Hi Hw']. split; [assumption | congruence].
    + destruct (includes formats _); injection Hstep as <- <-;
        (split; [|assumption]); [now apply incl_appl | apply incl_refl].
Qed.

(** Every directory of the tree is walked by a call of [readDir] whose
    results end up in the result of the walk. *)
Lemma reaches_visited (formats : list string) (depth : nat) (root : string)
  (files0 files : list string) (s s' : St) :
  readDir formats depth root files0 s = (Ok files, s') ->
  forall cur, reaches (st_world s) root cur ->
    exists d f1 s1 f2 s2,
      readDir formats d cur f1 s1 = (Ok f2, s2)
      /\ st_world s1 = st_world s /\ incl f2 files.
Proof.
  intros Hrun cur Hreach.
  induction Hreach as [|cur items item _ IH Hls Hin Hdir].
  - exists depth, files0, s, files, s'. repeat split; [assumption | apply incl_refl].
  - destruct IH as (d & f1 & s1 & f2 & s2 & Hsub & Hw & Hincl).
    rewrite <- Hw in Hls, Hdir.
    destruct (readDir_visits _ _ _ _ _ _ _ Hsub items item Hls Hin) as [_ Hsubdir].
    destruct (Hsubdir Hdir) as (d' & g1 & t1 & g2 & t2 & Hrun' & Hw' & Hincl').
    exists d', g1, t1, g2, t2.
    repeat split; [assumption | congruence | eapply incl_tran; eassumption].
Qed.

(** Every path [readDir] adds to [files] is a matching file of the tree. *)
Lemma readDir_matching (formats : list string) (root : string) (w : World)
  (depth : nat) :
  forall currentPath files s files' s',
    st_world s = w ->
    reaches w root currentPath ->
    readDir formats depth currentPath files s = (Ok files', s') ->
    forall f, In f files' -> In f files \/ matchingFile formats w root f.
Proof.
  induction depth as [|depth IH];
    intros currentPath files s files' s' Hw Hreach Hrun; [discriminate|].
  simpl in Hrun.
  apply bind_inv_Ok in Hrun as (items & s1 & Hitems & Hrun).
  apply readdirSync_inv in Hitems as [Hls Hw1]. rewrite Hw in Hls, Hw1.
  assert (Hgoal : st_world s' = w
                  /\ forall f, In f files' ->
                       In f files \/ matchingFile formats w root f);
    [|exact (proj2 Hgoal)].
  revert Hrun.
  apply (forEach_invariant_st
           (fun acc st => st_world st = w
                          /\ forall f, In f acc ->
                               In f files \/ matchingFile formats w root f));
    [|split; [assumption | now left]].
  intros item acc s0 acc' s0' Hin [Hw0 Hacc] Hstep.
  apply bind_inv_Ok in Hstep as (isDir & s2 & Hstat & Hstep).
  apply statIsDirectory_inv in Hstat as [Hstat Hw2]. rewrite Hw0 in Hstat, Hw2.
  destruct isDir.
  - split; [rewrite (readDir_world _ _ _ _ _ _ _ Hstep); exact Hw2|].
    intros f Hf.
    destruct (IH _ _ _ _ _ Hw2 (reaches_sub w root _ _ _ Hreach Hls Hin Hstat)
                Hstep f Hf) as [Hold | Hnew]; [now apply Hacc | now right].
  - destruct (includes formats (toLowerCase (NodePath.extname item))) eqn:Hfmt;
      injection Hstep as <- <-; (split; [assumption|]); [|exact Hacc].
    intros f Hf. apply in_app_or in Hf as [Hf | [<- | []]]; [now apply Hacc|].
    right. exists currentPath, items, item. now repeat split.
Qed.

End WalkFacts.

(** X4: [getImageFiles] leaves the file system and [stats] as they are:
    all it does is list directories and stat their entries, and it never
    ends the process. *)
Theorem discovery_only_scans {E : Externals} (cfg : BaseConfig) (dir : string) :
  onlyScans (getImageFiles cfg dir)
  /\ forall s, noExit (getImageFiles cfg dir s).
Proof.
  split.
  - apply onlyScans_readDir.
  - intros s. apply (getImageFiles_preserves cfg dir s).
Qed.

(** X5: when [getImageFiles] returns, it returns exactly the matching
    files of the tree below [dir]: the entries of [dir] and of its
    subdirectories, at any depth, that are not directories and whose
    extension, in lower case, is one of [CONFIG.formats]. *)
Theorem discovery_finds_exactly_the_matching_files {E : Externals}
  (cfg : BaseConfig) (dir : string) (s s' : St) (imageFiles : list string) :
  getImageFiles cfg dir s = (Ok imageFiles, s') ->
  forall f, In f imageFiles <-> matchingFile (formats cfg) (st_world s) dir f.
Proof.
  intros Hrun f. unfold getImageFiles in Hrun. split.
  - intros Hf.
    destruct (readDir_matching (formats cfg) dir (st_world s) stackDepth dir []
                s imageFiles s' eq_refl (reaches_root _ _) Hrun f Hf)
      as [[] | Hm].
    exact Hm.
  - intros (cur & items & item & Hreach & Hls & Hin & -> & Hstat & Hfmt).
    destruct (reaches_visited _ _ _ _ _ _ _ Hrun cur Hreach)
      as (d & f1 & s1 & f2 & s2 & Hsub & Hw & Hincl).
    rewrite <- Hw in Hls, Hstat.
    destruct (readDir_visits _ _ _ _ _ _ _ Hsub items item Hls Hin) as [Hfile _].
    apply Hincl. now apply Hfile.
Qed.

Lemma discovery_finds_exactly_the_matching_files_witness :
  @matchingFile (Demo.externals false) [".jpg"; ".jpeg"; ".png"]
    Demo.openWorld "./jump" "jump/b/icon.jpg"
  /\ ~ @matchingFile (Demo.externals false) [".jpg"; ".jpeg"; ".png"]
        Demo.openWorld "./jump" "jump/notes.txt".
Proof.
  assert (Hrun : @getImageFiles (Demo.externals false)
                   (SquooshOnly.common SquooshOnly.CONFIG) "./jump"
                   (Demo.start Demo.openWorld)
                 = (Ok ["jump/a/photo.png"; "jump/b/icon.jpg"; "jump/broken.png"],
                    snd (@getImageFiles (Demo.externals false)
                           (SquooshOnly.common SquooshOnly.CONFIG) "./jump"
                           (Demo.start Demo.openWorld))))
    by (vm_compute; reflexivity).
  pose proof (@discovery_finds_exactly_the_matching_files (Demo.externals false)
                (SquooshOnly.common SquooshOnly.CONFIG) "./jump"
                (Demo.start Demo.openWorld) _ _ Hrun) as H.
  split.
  - apply (proj1 (H "jump/b/icon.jpg")). right. left. reflexivity.
  - intros Hm. apply (proj2 (H "jump/notes.txt")) in Hm.
    destruct Hm as [Hm | [Hm | [Hm | []]]]; discriminate Hm.
Defined.

Section NamedListings.
Context {E : Externals}.
Hypothesis cwd_absolute : NodePath.isAbsolute cwd = true.
Variable w : World.
Hypothesis w_lists_names : listsNames w.

Lemma reaches_below (root cur : string) :
  reaches w root cur ->
  exists above,
    Forall (fun x => isName x = true) above
    /\ NodePath.resolveSegs cwd cur
       = (NodePath.resolveSegs cwd root ++ above)%list.
Proof.
  induction 1 as [|cur items item _ IH Hls Hin Hdir].
  - exists []. split; [constructor | now rewrite app_nil_r].
  - destruct IH as (above & Habove & Hseg).
    assert (Hitem : isName item = true).
    { pose proof (w_lists_names _ _ Hls) as Hn.
      rewrite Forall_forall in Hn. now apply Hn. }
    destruct (descendant_step cwd_absolute root cur item above Hitem Hseg Habove)
      as (_ & Hall & Hseg').
    now exists (above ++ [item])%list.
Qed.

Lemma matchingFile_below (formats : list string) (root f : string) :
  matchingFile formats w root f ->
  exists names,
    descendantBy cwd root f names
    /\ NodePath.extname f = snd (NodePath.splitExt true (last names ""))
    /\ In (toLowerCase (NodePath.extname f)) formats.
Proof.
  intros (cur & items & item & Hreach & Hls & Hin & -> & _ & Hfmt).
  destruct (reaches_below root cur Hreach) as (above & Habove & Hseg).
  assert (Hitem : isName item = true).
  { pose proof (w_lists_names _ _ Hls) as Hn.
    rewrite Forall_forall in Hn. now apply Hn. }
  assert (Hext : NodePath.extname (NodePath.join [cur; item])
                 = snd (NodePath.splitExt true item))
    by exact (extname_join cur [] item (Forall_nil _) Hitem).
  assert (Hext' : NodePath.extname item = snd (NodePath.splitExt true item)).
  { destruct (isName_inv item Hitem) as (Hn & Hs & _).
    exact (extname_shape "" [] item (or_introl eq_refl) (Forall_nil _) Hs Hn). }
  exists (above ++ [item])%list. split; [|split].
  - now apply descendant_step.
  - now rewrite last_last.
  - rewrite Hext, <- Hext'. unfold includes in Hfmt.
    apply existsb_exists in Hfmt as (x & Hx & Heq).
    apply String.eqb_eq in Heq. now subst x.
Qed.

End NamedListings.

Lemma demo_lists_names : @listsNames (Demo.externals false) Demo.openWorld.
Proof.
  intros p items. cbn. unfold Demo.readdir. cbn.
  repeat (destruct (String.eqb p _);
          [intros H; injection H as <-; repeat constructor|]).
  discriminate.
Qed.

(** X6: where directory listings consist of names, every file
    [getImageFiles] returns lies below the directory it was given, at one
    name or more, and the extension of the returned path itself, in lower
    case, is one of [CONFIG.formats]. *)
Theorem discovered_files_lie_below_input {E : Externals}
  (cfg : BaseConfig) (dir : string) (s s' : St) (imageFiles : list string)
  (f : string) :
  NodePath.isAbsolute cwd = true ->
  listsNames (st_world s) ->
  getImageFiles cfg dir s = (Ok imageFiles, s') ->
  In f imageFiles ->
  exists names,
    descendantBy cwd dir f names
    /\ NodePath.extname f = snd (NodePath.splitExt true (last names ""))
    /\ In (toLowerCase (NodePath.extname f)) (formats cfg).
Proof.
  intros Hcwd Hnames Hrun Hf.
  apply (matchingFile_below Hcwd (st_world s) Hnames).
  unfold getImageFiles in Hrun.
  destruct (readDir_matching (formats cfg) dir (st_world s) stackDepth dir []
              s imageFiles s' eq_refl (reaches_root _ _) Hrun f Hf)
    as [[] | Hm].
  exact Hm.
Qed.

Lemma discovered_files_lie_below_input_witness :
  exists names,
    descendantBy "/home/user" "./jump" "jump/a/photo.png" names
    /\ NodePath.extname "jump/a/photo.png"
       = snd (NodePath.splitExt true (last names ""))
    /\ In (toLowerCase (NodePath.extname "jump/a/photo.png"))
         [".jpg"; ".jpeg"; ".png"].
Proof.
  refine (@discovered_files_lie_below_input (Demo.externals false)
            (SquooshOnly.common SquooshOnly.CONFIG) "./jump"
            (Demo.start Demo.openWorld) _
            ["jump/a/photo.png"; "jump/b/icon.jpg"; "jump/broken.png"]
            "jump/a/photo.png" eq_refl demo_lists_names _ (or_introl eq_refl)).
  vm_compute. reflexivity.
Defined.

(** ** Projections of the trace of a batch *)

Section TracePartFacts.
Context {E : Externals} {X : Type} (g : Event -> list X).

#[export] Instance tracePart_frame :
  Frame (tracePart g []) (fun e => g e = []) (fun _ => True).
Proof.
  split; unfold tracePart.
  - intros s. exists []. split; [now rewrite app_nil_r | reflexivity].
  - intros s1 s2 s3 (l1 & H1 & F1) (l2 & H2 & F2).
    exists (l1 ++ l2)%list. split.
    + now rewrite H2, H1, app_assoc.
    + now rewrite flat_map_app, F1, F2.
  - intros s w. exists []. split; [now rewrite app_nil_r | reflexivity].
  - intros s e He. exists [e]. split; [reflexivity|]. simpl.
    now rewrite He.
  - intros s f _. exists []. split; [now rewrite app_nil_r | reflexivity].
Qed.

Lemma tracePart_trans (xs ys : list X) (s1 s2 s3 : St) :
  tracePart g xs s1 s2 -> tracePart g ys s2 s3 ->
  tracePart g (xs ++ ys) s1 s3.
Proof.
  intros (l1 & H1 & F1) (l2 & H2 & F2). exists (l1 ++ l2)%list. split.
  - now rewrite H2, H1, app_assoc.
  - now rewrite flat_map_app, F1, F2.
Qed.

Lemma tracePart_emit (e : Event) : preserves (tracePart g (g e)) (emit e).
Proof.
  intros s. split; [exact I|]. exists [e]. split; [reflexivity|].
  simpl. apply app_nil_r.
Qed.

(** [m], which always returns, then [k]. *)
Lemma tracePart_seq {A B} (m : M A) (k : A -> M B) (xs ys : list X) :
  preserves (tracePart g xs) m -> returns m ->
  (forall a, preserves (tracePart g ys) (k a)) ->
  preserves (tracePart g (xs ++ ys)) (bind m k).
Proof.
  intros Hm Hret Hk s. unfold bind.
  destruct (Hm s) as [_ H1]. destruct (Hret s) as [a Ha].
  destruct (m s) as [[a' | msg | c] s1]; cbn [fst snd] in *; try discriminate.
  destruct (Hk a' s1) as [He H2]. split; [exact He|].
  eapply tracePart_trans; eassumption.
Qed.

(** [m], which may throw, then a [k] that adds nothing under [g]. *)
Lemma tracePart_then_none {A B} (m : M A) (k : A -> M B) (xs : list X) :
  preserves (tracePart g xs) m ->
  (forall a, preserves (tracePart g []) (k a)) ->
  preserves (tracePart g xs) (bind m k).
Proof.
  intros Hm Hk s. unfold bind.
  destruct (Hm s) as [He H1].
  destruct (m s) as [[a | msg | c] s1]; cbn [fst snd] in *;
    [| now split | destruct He].
  destruct (Hk a s1) as [He' H2]. split; [exact He'|].
  rewrite <- (app_nil_r xs). eapply tracePart_trans; eassumption.
Qed.

Lemma tracePart_tryCatch {A} (body : M A) (handler : string -> M A)
  (xs : list X) :
  preserves (tracePart g xs) body ->
  (forall msg, preserves (tracePart g []) (handler msg)) ->
  preserves (tracePart g xs) (tryCatch body handler).
Proof.
  intros Hb Hh s. unfold tryCatch.
  destruct (Hb s) as [He H1].
  destruct (body s) as [[a | msg | c] s1]; cbn [fst snd] in *;
    [now split | | destruct He].
  destruct (Hh msg s1) as [He' H2]. split; [exact He'|].
  rewrite <- (app_nil_r xs). eapply tracePart_trans; eassumption.
Qed.

(** The [finally] clause runs whatever the [try] and [catch] did. *)
Lemma tracePart_finally {A} (body : M A) (handler : string -> M A)
  (fin : M unit) (xs ys : list X) :
  preserves (tracePart g xs) (tryCatch body handler) ->
  preserves (tracePart g ys) fin ->
  preserves (tracePart g (xs ++ ys)) (tryCatchFinally body handler fin).
Proof.
  intros Ht Hf s. unfold tryCatchFinally.
  destruct (Ht s) as [He H1].
  destruct (tryCatch body handler s) as [[a | msg | c] s1];
    cbn [fst snd] in *; [| | destruct He];
    destruct (Hf s1) as [He' H2];
    destruct (fin s1) as [[[] | msg' | c'] s2]; cbn [fst snd] in *;
    try destruct He';
    (split; [exact I | eapply tracePart_trans; eassumption]).
Qed.

End TracePartFacts.

Section ReturnsFacts.
Context {E : Externals}.

Lemma returns_emit (e : Event) : returns (emit e).
Proof. intros s. now exists tt. Qed.

Lemma returns_consoleLog (l : LogLine) : returns (consoleLog l).
Proof. intros s. now exists tt. Qed.

Lemma returns_modifyStats (f : Stats -> Stats) : returns (modifyStats f).
Proof. intros s. now exists tt. Qed.

Lemma returns_bind {A B} (m : M A) (k : A -> M B) :
  returns m -> (forall a, returns (k a)) -> returns (bind m k).
Proof.
  intros Hm Hk s. unfold bind. destruct (Hm s) as [a Ha].
  destruct (m s) as [[a' | msg | c] s1]; cbn [fst] in Ha; try discriminate.
  apply Hk.
Qed.

Lemma squoosh_iteration_returns (cfg : SquooshOnly.Config) (i n : Z)
  (inputPath : string) : returns (SquooshOnly.iteration cfg i n inputPath).
Proof.
  intros s. destruct (squoosh_iteration_counts cfg i n inputPath s) as (s' & H & _).
  exists tt. now rewrite H.
Qed.

Lemma sharp_iteration_returns (cfg : SharpSquoosh.Config) (i n : Z)
  (inputPath : string) : returns (SharpSquoosh.iteration cfg i n inputPath).
Proof.
  intros s. destruct (sharp_iteration_counts cfg i n inputPath s) as (s' & H & _).
  exists tt. now rewrite H.
Qed.

Lemma squoosh_loop_returns (cfg : SquooshOnly.Config) (n : Z) (files : list string) :
  forall i, returns (SquooshOnly.loop cfg i n files).
Proof.
  intros i s. destruct (squoosh_loop_counts cfg n files i s) as (s' & H & _).
  exists tt. now rewrite H.
Qed.

Lemma sharp_loop_returns (cfg : SharpSquoosh.Config) (n : Z) (files : list string) :
  forall i, returns (SharpSquoosh.loop cfg i n files).
Proof.
  intros i s. destruct (sharp_loop_counts cfg n files i s) as (s' & H & _).
  exists tt. now rewrite H.
Qed.

End ReturnsFacts.

Ltac adds_nothing := preserves_tac; try reflexivity.

Section BatchParts.
Context {E : Externals} {X : Type} (g : Event -> list X).
Hypothesis log_is_silent : forall l, g (ConsoleLog l) = [].
Hypothesis error_is_silent : forall l, g (ConsoleError l) = [].

(** What the iterations of the two loops add, given what their [try]
    blocks add. *)
Lemma squoosh_iteration_part (cfg : SquooshOnly.Config) (i n : Z)
  (inputPath : string) (xs : list X) :
  (forall relativePath,
      preserves (tracePart g xs)
        (SquooshOnly.processFile cfg i n inputPath relativePath)) ->
  preserves
    (tracePart g
       (g (PoolOpen (maxConcurrent (SquooshOnly.common cfg)))
        ++ xs ++ g PoolClose)%list)
    (SquooshOnly.iteration cfg i n inputPath).
Proof.
  intros Hbody. unfold SquooshOnly.iteration.
  apply tracePart_seq; [apply tracePart_emit | apply returns_emit | intros _].
  cbv zeta. apply tracePart_finally; [|apply tracePart_emit].
  apply tracePart_tryCatch; [apply Hbody|]. intros msg.
  unfold consoleError. preserves_tac. apply error_is_silent.
Qed.

Lemma sharp_iteration_part (cfg : SharpSquoosh.Config) (i n : Z)
  (inputPath : string) (xs : list X) :
  (forall relativePath,
      preserves (tracePart g xs)
        (SharpSquoosh.processFile cfg i n inputPath relativePath)) ->
  preserves (tracePart g xs) (SharpSquoosh.iteration cfg i n inputPath).
Proof.
  intros Hbody. unfold SharpSquoosh.iteration. cbv zeta.
  apply tracePart_tryCatch; [apply Hbody|]. intros msg.
  unfold consoleError. preserves_tac. apply error_is_silent.
Qed.

Lemma squoosh_loop_part (cfg : SquooshOnly.Config) (n : Z)
  (per : string -> list X) :
  (forall i p, preserves (tracePart g (per p)) (SquooshOnly.iteration cfg i n p)) ->
  forall files i,
    preserves (tracePart g (flat_map per files)) (SquooshOnly.loop cfg i n files).
Proof.
  intros Hit. induction files as [|f files IH]; intros i; simpl.
  - apply preserves_ret.
  - apply tracePart_seq;
      [apply Hit | apply squoosh_iteration_returns | intros _; apply IH].
Qed.

Lemma sharp_loop_part (cfg : SharpSquoosh.Config) (n : Z)
  (per : string -> list X) :
  (forall i p, preserves (tracePart g (per p)) (SharpSquoosh.iteration cfg i n p)) ->
  forall files i,
    preserves (tracePart g (flat_map per files)) (SharpSquoosh.loop cfg i n files).
Proof.
  intros Hit. induction files as [|f files IH]; intros i; simpl.
  - apply preserves_ret.
  - apply tracePart_seq;
      [apply Hit | apply sharp_iteration_returns | intros _; apply IH].
Qed.

Lemma squoosh_batch_part (cfg : SquooshOnly.Config) (per : string -> list X)
  (files : list string) :
  (forall i n p relativePath,
      preserves (tracePart g (per p))
        (SquooshOnly.processFile cfg i n p relativePath)) ->
  preserves
    (tracePart g
       (flat_map
          (fun p => (g (PoolOpen (maxConcurrent (SquooshOnly.common cfg)))
                     ++ per p ++ g PoolClose)%list) files))
    (SquooshOnly.compressImages cfg files).
Proof.
  intros Hbody. unfold SquooshOnly.compressImages. cbv zeta.
  apply (tracePart_seq g _ _ []);
    [preserves_tac | apply returns_modifyStats | intros _].
  apply (tracePart_seq g _ _ []);
    [unfold consoleLog; preserves_tac; apply log_is_silent
    | apply returns_consoleLog | intros _].
  apply tracePart_then_none; [|intros _; preserves_tac].
  apply squoosh_loop_part. intros i p.
  apply squoosh_iteration_part. intros rel. apply Hbody.
Qed.

Lemma sharp_batch_part (cfg : SharpSquoosh.Config) (per : string -> list X)
  (files : list string) :
  (forall i n p relativePath,
      preserves (tracePart g (per p))
        (SharpSquoosh.processFile cfg i n p relativePath)) ->
  preserves
    (tracePart g
       (g (PoolOpen (maxConcurrent (SharpSquoosh.common cfg)))
        ++ flat_map per files ++ g PoolClose)%list)
    (SharpSquoosh.compressImages cfg files).
Proof.
  intros Hbody. unfold SharpSquoosh.compressImages. cbv zeta.
  apply (tracePart_seq g _ _ []);
    [preserves_tac | apply returns_modifyStats | intros _].
  apply (tracePart_seq g _ _ []);
    [unfold consoleLog; preserves_tac; apply log_is_silent
    | apply returns_consoleLog | intros _].
  apply tracePart_seq; [apply tracePart_emit | apply returns_emit | intros _].
  apply tracePart_seq; [| apply sharp_loop_returns | intros _].
  - apply sharp_loop_part. intros i p.
    apply sharp_iteration_part. intros rel. apply Hbody.
  - rewrite <- (app_nil_r (g PoolClose)).
    apply tracePart_seq; [apply tracePart_emit | apply returns_emit | intros _].
    preserves_tac.
Qed.

End BatchParts.

Section ReadAndPoolFacts.
Context {E : Externals}.

Lemma readFileSync_reads (p : string) :
  preserves (tracePart readOf [p]) (readFileSync p).
Proof.
  unfold readFileSync. apply tracePart_then_none.
  - apply (tracePart_emit readOf (FsRead p)).
  - intros _. preserves_tac.
Qed.

Lemma squoosh_processFile_reads (cfg : SquooshOnly.Config) (i n : Z)
  (inputPath relativePath : string) :
  preserves (tracePart readOf [inputPath])
    (SquooshOnly.processFile cfg i n inputPath relativePath).
Proof.
  unfold SquooshOnly.processFile.
  apply (tracePart_seq readOf _ _ [] [inputPath]);
    [adds_nothing | apply returns_consoleLog | intros _].
  apply tracePart_then_none; [apply readFileSync_reads|].
  intros inputBuffer. adds_nothing.
Qed.

Lemma sharp_processFile_reads (cfg : SharpSquoosh.Config) (i n : Z)
  (inputPath relativePath : string) :
  preserves (tracePart readOf [inputPath])
    (SharpSquoosh.processFile cfg i n inputPath relativePath).
Proof.
  unfold SharpSquoosh.processFile.
  apply (tracePart_seq readOf _ _ [] [inputPath]);
    [adds_nothing | apply returns_consoleLog | intros _].
  apply tracePart_then_none; [apply readFileSync_reads|].
  intros inputBuffer. unfold SharpSquoosh.cropImage. adds_nothing.
Qed.

Lemma squoosh_processFile_pool (cfg : SquooshOnly.Config) (i n : Z)
  (inputPath relativePath : string) :
  preserves (tracePart poolOf [])
    (SquooshOnly.processFile cfg i n inputPath relativePath).
Proof. unfold SquooshOnly.processFile. adds_nothing. Qed.

Lemma sharp_processFile_pool (cfg : SharpSquoosh.Config) (i n : Z)
  (inputPath relativePath : string) :
  preserves (tracePart poolOf [])
    (SharpSquoosh.processFile cfg i n inputPath relativePath).
Proof.
  unfold SharpSquoosh.processFile, SharpSquoosh.cropImage. adds_nothing.
Qed.

Lemma flat_map_singleton {A} (l : list A) : flat_map (fun x => [x]) l = l.
Proof. induction l as [|x l IH]; [reflexivity | simpl; now rewrite IH]. Qed.

Lemma flat_map_constant {A B} (c : list B) (l : list A) :
  flat_map (fun _ => c) l = repeatList (List.length l) c.
Proof. induction l as [|x l IH]; [reflexivity | simpl; now rewrite IH]. Qed.

Lemma flat_map_nothing {A B} (l : list A) :
  flat_map (fun _ => @nil B) l = [].
Proof. induction l as [|x l IH]; [reflexivity | exact IH]. Qed.

End ReadAndPoolFacts.

(** X7: a batch reads each file of [imageFiles] once, in the order of the
    list, and reads nothing else: that holds in both scripts, whatever
    fails on the way. *)
Theorem batch_reads_each_listed_file_once {E : Externals}
  (cfgA : SquooshOnly.Config) (cfgB : SharpSquoosh.Config)
  (imageFiles : list string) (s : St) :
  (exists l,
      st_trace (snd (SquooshOnly.compressImages cfgA imageFiles s))
      = (st_trace s ++ l)%list
      /\ flat_map readOf l = imageFiles)
  /\ (exists l,
        st_trace (snd (SharpSquoosh.compressImages cfgB imageFiles s))
        = (st_trace s ++ l)%list
        /\ flat_map readOf l = imageFiles).
Proof.
  split.
  - destruct (squoosh_batch_part readOf (fun _ => eq_refl) (fun _ => eq_refl)
                cfgA (fun p => [p]) imageFiles
                (squoosh_processFile_reads cfgA) s) as [_ (l & Hl & Hr)].
    exists l. split; [exact Hl|]. rewrite Hr. apply flat_map_singleton.
  - destruct (sharp_batch_part readOf (fun _ => eq_refl) (fun _ => eq_refl)
                cfgB (fun p => [p]) imageFiles
                (sharp_processFile_reads cfgB) s) as [_ (l & Hl & Hr)].
    exists l. split; [exact Hl|]. rewrite Hr. cbn [readOf app].
    rewrite app_nil_r. apply flat_map_singleton.
Qed.

(** X8: the squoosh-only script opens one image pool per file and closes
    it before the next is opened, also when the file fails; the sharp
    script opens one pool for the whole batch and closes it after the last
    file.  No pool is left open. *)
Theorem every_pool_is_closed {E : Externals}
  (cfgA : SquooshOnly.Config) (cfgB : SharpSquoosh.Config)
  (imageFiles : list string) (s : St) :
  (exists l,
      st_trace (snd (SquooshOnly.compressImages cfgA imageFiles s))
      = (st_trace s ++ l)%list
      /\ flat_map poolOf l
         = repeatList (List.length imageFiles)
             [PoolOpen (maxConcurrent (SquooshOnly.common cfgA)); PoolClose])
  /\ (exists l,
        st_trace (snd (SharpSquoosh.compressImages cfgB imageFiles s))
        = (st_trace s ++ l)%list
        /\ flat_map poolOf l
           = [PoolOpen (maxConcurrent (SharpSquoosh.common cfgB)); PoolClose]).
Proof.
  split.
  - destruct (squoosh_batch_part poolOf (fun _ => eq_refl) (fun _ => eq_refl)
                cfgA (fun _ => []) imageFiles
                (squoosh_processFile_pool cfgA) s) as [_ (l & Hl & Hr)].
    exists l. split; [exact Hl|]. rewrite Hr.
    apply (flat_map_constant
             [PoolOpen (maxConcurrent (SquooshOnly.common cfgA)); PoolClose]).
  - destruct (sharp_batch_part poolOf (fun _ => eq_refl) (fun _ => eq_refl)
                cfgB (fun _ => []) imageFiles
                (sharp_processFile_pool cfgB) s) as [_ (l & Hl & Hr)].
    exists l. split; [exact Hl|]. rewrite Hr.
    rewrite flat_map_nothing. reflexivity.
Qed.

(** ** Where a batch writes *)

Lemma names_last_noSlashEnd (names : list string) :
  names <> [] -> Forall (fun s => isName s = true) names ->
  NodePath.endsWithSlash (String.concat "/" names) = false.
Proof.
  intros Hne Hnames.
  pose proof (names_noSlash _ Hnames) as Hns.
  pose proof (names_nonEmpty _ Hnames) as Hnn.
  destruct names as [|d ds] using rev_ind; [congruence|]. clear IHds.
  apply Forall_app in Hns as [_ Hb]. apply Forall_app in Hnn as [_ Hb'].
  inversion Hb; inversion Hb'; subst.
  destruct ds as [|d' ds]; [now apply noSlash_endsWithSlash|].
  rewrite concat_app by discriminate.
  change (String "/" ?q) with ("/" ++ q). rewrite <- append_assoc.
  rewrite endsWithSlash_append by assumption.
  now apply noSlash_endsWithSlash.
Qed.

Lemma join_segments (a : string) (names : list string) :
  names <> [] -> Forall (fun s => isName s = true) names ->
  NodePath.join [a; String.concat "/" names]
  = (if NodePath.isAbsolute a then "/" else "")
    ++ String.concat "/"
         (NodePath.normalizeSegs (negb (NodePath.isAbsolute a)) (NodePath.split a)
          ++ names)%list.
Proof.
  intros Hne Hnames.
  pose proof (names_noSlash _ Hnames) as Hns.
  pose proof (names_nonEmpty _ Hnames) as Hnn.
  pose proof (names_regular _ Hnames) as Hreg.
  pose proof (names_last_noSlashEnd names Hne Hnames) as Hlast.
  pose proof (concat_nonEmpty names Hne Hnn) as Hc.
  unfold NodePath.join. simpl filter. rewrite Hc.
  destruct (NodePath.nonEmpty a) eqn:Ha.
  - change (String.concat "/" [a; String.concat "/" names])
      with (a ++ String "/" (String.concat "/" names)).
    unfold NodePath.normalize, NodePath.normalizeString.
    rewrite (nonEmpty_append_l _ _ Ha). simpl negb. cbv iota.
    rewrite isAbsolute_append by assumption.
    assert (Hend : NodePath.endsWithSlash (a ++ String "/" (String.concat "/" names))
                   = false).
    { change (String "/" ?q) with ("/" ++ q). rewrite <- append_assoc.
      now rewrite endsWithSlash_append by assumption. }
    rewrite Hend, split_app_slash, split_concat by assumption.
    assert (Hseg : forall x,
               NodePath.normalizeSegs x (NodePath.split a ++ names)
               = (NodePath.normalizeSegs x (NodePath.split a) ++ names)%list).
    { intros x. unfold NodePath.normalizeSegs. rewrite fold_left_app.
      now apply fold_regular. }
    rewrite !Hseg, concat_nonEmpty.
    + simpl negb. cbv iota. now destruct (NodePath.isAbsolute a).
    + now destruct (NodePath.normalizeSegs _ _).
    + apply Forall_app. split; [apply normalizeSegs_nonEmpty | assumption].
  - destruct a; [|discriminate]. simpl NodePath.isAbsolute. cbv iota.
    change (String.concat "/" [String.concat "/" names])
      with (String.concat "/" names).
    unfold NodePath.normalize, NodePath.normalizeString.
    rewrite Hc, Hlast. simpl negb. cbv iota.
    rewrite concat_not_absolute by assumption. simpl negb.
    assert (Hn : NodePath.normalizeSegs true names = names)
      by (unfold NodePath.normalizeSegs; now apply fold_regular).
    rewrite split_concat, Hn, Hc by assumption. reflexivity.
Qed.

Section DirnameFacts.
Variable wd : string.
Hypothesis wd_absolute : NodePath.isAbsolute wd = true.

Lemma dirname_join (a : string) (ds : list string) (b : string) :
  Forall (fun s => isName s = true) ds -> isName b = true ->
  NodePath.resolveSegs wd
    (NodePath.dirname (NodePath.join [a; String.concat "/" (ds ++ [b])]))
  = (NodePath.resolveSegs wd a ++ ds)%list.
Proof.
  intros Hds Hb.
  assert (Hall : Forall (fun s => isName s = true) (ds ++ [b]))
    by (apply Forall_app; split; [assumption | now repeat constructor]).
  assert (Hne : (ds ++ [b])%list <> []) by (now destruct ds).
  destruct (isName_inv b Hb) as (Hbn & Hbs & _).
  rewrite join_segments by assumption.
  remember (NodePath.normalizeSegs (negb (NodePath.isAbsolute a)) (NodePath.split a))
    as ra eqn:Era.
  assert (Hra_ns : Forall (fun s => hasSlash s = false) ra)
    by (subst ra; apply normalizeSegs_noSlash).
  assert (Hra_ne : Forall (fun s => NodePath.nonEmpty s = true) ra)
    by (subst ra; apply normalizeSegs_nonEmpty).
  pose proof (names_noSlash _ Hds) as Hds_ns.
  pose proof (names_nonEmpty _ Hds) as Hds_ne.
  pose proof (names_regular _ Hds) as Hds_reg.
  assert (Hrd_ns : Forall (fun s => hasSlash s = false) (ra ++ ds))
    by (now apply Forall_app).
  assert (Hrd_ne : Forall (fun s => NodePath.nonEmpty s = true) (ra ++ ds))
    by (now apply Forall_app).
  assert (Hq_ns : Forall (fun s => hasSlash s = false) ((ra ++ ds) ++ [b]))
    by (apply Forall_app; split; [assumption | now repeat constructor]).
  assert (Hq_ne : Forall (fun s => NodePath.nonEmpty s = true) ((ra ++ ds) ++ [b]))
    by (apply Forall_app; split; [assumption | now repeat constructor]).
  assert (Hq : ((ra ++ ds) ++ [b])%list <> []) by (now destruct (ra ++ ds)%list).
  rewrite app_assoc.
  assert (Hcq : NodePath.nonEmpty (String.concat "/" ((ra ++ ds) ++ [b])) = true)
    by (now apply concat_nonEmpty).
  unfold NodePath.dirname.
  destruct (NodePath.isAbsolute a) eqn:Habs.
  - change ("/" ++ ?q) with (String "/" q).
    cbn [NodePath.nonEmpty negb NodePath.isAbsolute].
    change (NodePath.isSlash "/") with true. cbv iota.
    rewrite split_slash_cons. cbn [tl].
    rewrite split_concat, dropTrailingEmpty_snoc, rev_app_distr by assumption.
    cbn [rev app].
    destruct (rev (ra ++ ds)) as [|x before] eqn:Erev.
    + apply (f_equal (@rev string)) in Erev. rewrite rev_involutive in Erev.
      cbn in Erev. apply app_eq_nil in Erev as [Hra0 Hds0]. subst ds.
      rewrite app_nil_r, (resolveSegs_spec wd wd_absolute a), Habs.
      cbn [negb] in Era. rewrite <- Era, Hra0. reflexivity.
    + rewrite <- Erev, rev_involutive.
      assert (Hrd : (ra ++ ds)%list <> []).
      { intros H0. rewrite H0 in Erev. discriminate. }
      rewrite (concat_nonEmpty (ra ++ ds)) by assumption.
      rewrite !(resolveSegs_spec wd wd_absolute), Habs.
      change ("/" ++ ?q) with (String "/" q).
      cbn [NodePath.isAbsolute].
      change (NodePath.isSlash "/") with true. cbv iota.
      rewrite split_slash_cons, split_concat by assumption.
      unfold NodePath.normalizeSegs. cbn [fold_left].
      rewrite (normStep_skip false [] "") by now left.
      rewrite fold_left_app.
      cbn [negb] in Era.
      rewrite (fold_regular false ra [])
        by (subst ra; apply normalizeSegs_false_regular).
      cbn [app]. rewrite fold_regular by assumption.
      subst ra. reflexivity.
  - cbn [append]. rewrite Hcq. cbn [negb]. cbv iota.
    rewrite concat_not_absolute by assumption.
    rewrite split_concat, dropTrailingEmpty_snoc, rev_app_distr by assumption.
    cbn [rev app].
    destruct (rev (ra ++ ds)) as [|x before] eqn:Erev.
    + apply (f_equal (@rev string)) in Erev. rewrite rev_involutive in Erev.
      cbn in Erev. apply app_eq_nil in Erev as [Hra0 Hds0]. subst ds.
      rewrite app_nil_r, !(resolveSegs_spec wd wd_absolute), Habs.
      cbn [NodePath.isAbsolute].
      change (NodePath.isSlash ".") with false. cbv iota.
      rewrite <- (fold_normalized false (NodePath.split a)).
      cbn [negb] in Era. rewrite <- Era, Hra0. reflexivity.
    + rewrite <- Erev, rev_involutive.
      assert (Hrd : (ra ++ ds)%list <> []).
      { intros H0. rewrite H0 in Erev. discriminate. }
      rewrite !(resolveSegs_spec wd wd_absolute), Habs.
      rewrite concat_not_absolute by assumption.
      rewrite split_concat by assumption.
      rewrite fold_left_app. cbn [negb] in Era. subst ra.
      rewrite fold_normalized. now apply fold_regular.
Qed.

End DirnameFacts.

Lemma getOutputPath_dirname (cwd : string) (cfg : BaseConfig) (p : string)
  (customFormat : option string) (names : list string) :
  NodePath.isAbsolute cwd = true ->
  descendantBy cwd (inputDir cfg) p names ->
  wellFormedOverride customFormat = true ->
  NodePath.resolveSegs cwd
    (NodePath.dirname (getOutputPath cwd cfg p customFormat))
  = (NodePath.resolveSegs cwd (outputDir cfg) ++ removelast names)%list
  /\ NodePath.resolveSegs cwd (getOutputPath cwd cfg p customFormat)
     = (NodePath.resolveSegs cwd (outputDir cfg)
        ++ removelast names ++ [overrideBase customFormat (last names "")])%list.
Proof.
  intros Hcwd Hdesc Hfmt.
  destruct (getOutputPath_join cwd cfg p customFormat names Hcwd Hdesc Hfmt)
    as (-> & Hne & Hnames).
  destruct Hdesc as (Hnn & _ & _).
  destruct names as [|b ds] using rev_ind; [congruence|]. clear IHds.
  rewrite withExtension_snoc in *.
  rewrite removelast_last, last_last.
  apply Forall_app in Hnames as [Hds Hb]. inversion Hb as [|? ? Hb' _]; subst.
  split.
  - now apply dirname_join.
  - apply resolveSegs_join; try assumption.
    apply Forall_app; split; [assumption | now repeat constructor].
Qed.

(** X9: the directory [compressImages] ensures before it writes,
    [path.dirname(outputPath)], is the directory that holds the output
    file: the output directory itself for a file directly in the input
    directory, and otherwise the directory below it with the names of the
    file's directories. *)
Theorem output_directory_holds_the_output_file
  (cwd : string) (cfg : BaseConfig) (p : string) (names : list string)
  (customFormat : option string) :
  NodePath.isAbsolute cwd = true ->
  descendantBy cwd (inputDir cfg) p names ->
  wellFormedOverride customFormat = true ->
  let outputPath := getOutputPath cwd cfg p customFormat in
  NodePath.resolveSegs cwd (NodePath.dirname outputPath)
  = (NodePath.resolveSegs cwd (outputDir cfg) ++ removelast names)%list
  /\ NodePath.resolveSegs cwd outputPath
     = (NodePath.resolveSegs cwd (NodePath.dirname outputPath)
        ++ [overrideBase customFormat (last names "")])%list.
Proof.
  intros Hcwd Hdesc Hfmt outputPath. subst outputPath.
  destruct (getOutputPath_dirname cwd cfg p customFormat names Hcwd Hdesc Hfmt)
    as [Hdir Hout].
  split; [exact Hdir|]. now rewrite Hout, Hdir, app_assoc.
Qed.

Lemma output_directory_holds_the_output_file_witness :
  NodePath.resolveSegs "/home/user"
    (NodePath.dirname
       (getOutputPath "/home/user" (SquooshOnly.common SquooshOnly.CONFIG)
          "jump/icon.jpg" None))
  = (NodePath.resolveSegs "/home/user" "./jumpCompress" ++ removelast ["icon.jpg"])%list
  /\ NodePath.resolveSegs "/home/user"
       (getOutputPath "/home/user" (SquooshOnly.common SquooshOnly.CONFIG)
          "jump/icon.jpg" None)
     = (NodePath.resolveSegs "/home/user"
          (NodePath.dirname
             (getOutputPath "/home/user" (SquooshOnly.common SquooshOnly.CONFIG)
                "jump/icon.jpg" None))
        ++ [overrideBase None (last ["icon.jpg"] "")])%list.
Proof.
  refine (output_directory_holds_the_output_file "/home/user"
            (SquooshOnly.common SquooshOnly.CONFIG)
            "jump/icon.jpg" ["icon.jpg"] None eq_refl _ eq_refl).
  split; [discriminate|]. split; [repeat constructor | reflexivity].
Defined.

Section BatchEvents.
Context {E : Externals} (P : Event -> Prop).
Hypothesis log_ok : forall l, P (ConsoleLog l).
Hypothesis error_ok : forall l, P (ConsoleError l).
Hypothesis open_ok : forall k, P (PoolOpen k).
Hypothesis close_ok : P PoolClose.

(** A property of events that holds of what the [try] block of every
    listed file adds to the trace holds of what the batch adds. *)
Lemma squoosh_loop_events (cfg : SquooshOnly.Config) (n : Z)
  (files : list string) :
  (forall i p relativePath,
      In p files ->
      preserves (traceGrows P) (SquooshOnly.processFile cfg i n p relativePath)) ->
  forall rest i,
    incl rest files -> preserves (traceGrows P) (SquooshOnly.loop cfg i n rest).
Proof.
  intros Hbody. induction rest as [|f rest IH]; intros i Hincl; simpl.
  - apply preserves_ret.
  - apply preserves_bind;
      [| intros _; apply IH; intros x Hx; apply Hincl; now right].
    unfold SquooshOnly.iteration. cbv zeta.
    apply preserves_bind; [apply preserves_emit, open_ok | intros _].
    apply preserves_tryCatchFinally.
    + apply Hbody, Hincl. now left.
    + intros msg. unfold consoleError.
      apply preserves_bind; [apply preserves_emit, error_ok | intros _].
      now apply preserves_modifyStats.
    + apply preserves_emit, close_ok.
Qed.

Lemma sharp_loop_events (cfg : SharpSquoosh.Config) (n : Z)
  (files : list string) :
  (forall i p relativePath,
      In p files ->
      preserves (traceGrows P) (SharpSquoosh.processFile cfg i n p relativePath)) ->
  forall rest i,
    incl rest files -> preserves (traceGrows P) (SharpSquoosh.loop cfg i n rest).
Proof.
  intros Hbody. induction rest as [|f rest IH]; intros i Hincl; simpl.
  - apply preserves_ret.
  - apply preserves_bind;
      [| intros _; apply IH; intros x Hx; apply Hincl; now right].
    unfold SharpSquoosh.iteration. cbv zeta.
    apply preserves_tryCatch.
    + apply Hbody, Hincl. now left.
    + intros msg. unfold consoleError.
      apply preserves_bind; [apply preserves_emit, error_ok | intros _].
      now apply preserves_modifyStats.
Qed.

Lemma squoosh_batch_events (cfg : SquooshOnly.Config) (files : list string) :
  (forall i n p relativePath,
      In p files ->
      preserves (traceGrows P) (SquooshOnly.processFile cfg i n p relativePath)) ->
  preserves (traceGrows P) (SquooshOnly.compressImages cfg files).
Proof.
  intros Hbody. unfold SquooshOnly.compressImages, consoleLog. cbv zeta.
  apply preserves_bind; [now apply preserves_modifyStats | intros _].
  apply preserves_bind; [apply preserves_emit, log_ok | intros _].
  apply preserves_bind; [| intros _; apply preserves_getStats].
  apply (squoosh_loop_events cfg _ files); [intros; now apply Hbody | apply incl_refl].
Qed.

Lemma sharp_batch_events (cfg : SharpSquoosh.Config) (files : list string) :
  (forall i n p relativePath,
      In p files ->
      preserves (traceGrows P) (SharpSquoosh.processFile cfg i n p relativePath)) ->
  preserves (traceGrows P) (SharpSquoosh.compressImages cfg files).
Proof.
  intros Hbody. unfold SharpSquoosh.compressImages, consoleLog. cbv zeta.
  apply preserves_bind; [now apply preserves_modifyStats | intros _].
  apply preserves_bind; [apply preserves_emit, log_ok | intros _].
  apply preserves_bind; [apply preserves_emit, open_ok | intros _].
  apply preserves_bind;
    [apply (sharp_loop_events cfg _ files);
       [intros; now apply Hbody | apply incl_refl]
    | intros _].
  apply preserves_bind; [apply preserves_emit, close_ok | intros _].
  apply preserves_getStats.
Qed.

End BatchEvents.

Section MirrorFacts.
Context {E : Externals}.






End MirrorFacts.



(** ** What a successful iteration leaves behind *)

Section SuccessFacts.
Context {E : Externals}.




End SuccessFacts.






(** ** Which inputs share an output path *)

(** X13: two files below the input directory get the same output path
    exactly when their relative paths agree once the extension of the
    file name is replaced by the override.  Without an override distinct
    files never share an output path; with one, files of one directory
    that differ only in their extension do. *)
Theorem output_paths_coincide_by_stem
  (cwd : string) (cfg : BaseConfig) (p q : string) (np nq : list string)
  (customFormat : option string) :
  NodePath.isAbsolute cwd = true ->
  descendantBy cwd (inputDir cfg) p np ->
  descendantBy cwd (inputDir cfg) q nq ->
  wellFormedOverride customFormat = true ->
  (getOutputPath cwd cfg p customFormat = getOutputPath cwd cfg q customFormat
   <-> withExtension customFormat np = withExtension customFormat nq)
  /\ (truthy customFormat = false ->
      getOutputPath cwd cfg p customFormat = getOutputPath cwd cfg q customFormat ->
      np = nq)
  /\ (truthy customFormat = true ->
      removelast np = removelast nq ->
      fst (NodePath.splitExt true (last np ""))
      = fst (NodePath.splitExt true (last nq "")) ->
      getOutputPath cwd cfg p customFormat = getOutputPath cwd cfg q customFormat).
Proof.
  intros Hcwd Hp Hq Hfmt.
  destruct (getOutputPath_join cwd cfg p customFormat np Hcwd Hp Hfmt)
    as (Ep & Hnep & Hnp).
  destruct (getOutputPath_join cwd cfg q customFormat nq Hcwd Hq Hfmt)
    as (Eq & Hneq & Hnq).
  assert (Hiff : getOutputPath cwd cfg p customFormat
                 = getOutputPath cwd cfg q customFormat
                 <-> withExtension customFormat np = withExtension customFormat nq).
  { split.
    - intros Heq. apply (f_equal (NodePath.resolveSegs cwd)) in Heq.
      rewrite Ep, Eq in Heq.
      rewrite !(resolveSegs_join cwd Hcwd) in Heq by assumption.
      now apply app_inv_head in Heq.
    - intros Heq. now rewrite Ep, Eq, Heq. }
  split; [exact Hiff|]. split.
  - intros Ht Heq. apply Hiff in Heq. revert Heq. unfold withExtension.
    destruct customFormat as [fmt|]; [|easy]. cbn in Ht. now rewrite Ht.
  - intros Ht Hdir Hstem. apply Hiff. unfold withExtension.
    destruct customFormat as [fmt|]; [|discriminate]. cbn in Ht.
    now rewrite Ht, Hdir, Hstem.
Qed.

Lemma output_paths_coincide_by_stem_witness :
  getOutputPath "/home/user" (SquooshOnly.common SquooshOnly.CONFIG)
    "jump/a/photo.png" (Some ".webp")
  = getOutputPath "/home/user" (SquooshOnly.common SquooshOnly.CONFIG)
      "jump/a/photo.jpg" (Some ".webp").
Proof.
  refine (proj2 (proj2
            (output_paths_coincide_by_stem "/home/user"
               (SquooshOnly.common SquooshOnly.CONFIG)
               "jump/a/photo.png" "jump/a/photo.jpg"
               ["a"; "photo.png"] ["a"; "photo.jpg"] (Some ".webp")
               eq_refl _ _ eq_refl)) eq_refl eq_refl eq_refl);
    (split; [discriminate|]; split; [repeat constructor | reflexivity]).
Defined.

(** ** [main] before the batch *)

Section DiscoveryPhase.
Context {E : Externals}.





End DiscoveryPhase.


(** ** Preprocessing with nothing to do *)

Section PreprocessFacts.
Context {E : Externals}.

Lemma squoosh_no_keys (cfg : SquooshOnly.Config) (W H : Z) :
  SquooshOnly.crop_enabled (SquooshOnly.cropOptions cfg) = false ->
  resize_enabled (cfg_resize (preprocessOptions (SquooshOnly.common cfg))) = false ->
  quant_enabled (cfg_quant (preprocessOptions (SquooshOnly.common cfg))) = false ->
  hasKeys (SquooshOnly.buildPreprocessOpts cfg W H) = false.
Proof.
  intros Hc Hr Hq.
  unfold SquooshOnly.buildPreprocessOpts, SquooshOnly.cropPlan.
  now rewrite Hc, Hr, Hq.
Qed.

Lemma sharp_no_keys (cfg : SharpSquoosh.Config) :
  resize_enabled (cfg_resize (preprocessOptions (SharpSquoosh.common cfg))) = false ->
  quant_enabled (cfg_quant (preprocessOptions (SharpSquoosh.common cfg))) = false ->
  hasKeys (SharpSquoosh.buildPreprocessOpts cfg) = false.
Proof.
  intros Hr Hq. unfold SharpSquoosh.buildPreprocessOpts. now rewrite Hr, Hq.
Qed.

Lemma squoosh_processFile_skips (cfg : SquooshOnly.Config) (i n : Z)
  (inputPath relativePath : string) :
  (forall W H, hasKeys (SquooshOnly.buildPreprocessOpts cfg W H) = false) ->
  preserves (traceGrows notPreprocess)
    (SquooshOnly.processFile cfg i n inputPath relativePath).
Proof.
  intros Hk. unfold SquooshOnly.processFile. run_unfold. cbv zeta.
  repeat first [rewrite Hk; cbv iota | preserves_step]; exact I.
Qed.

Lemma sharp_processFile_skips (cfg : SharpSquoosh.Config) (i n : Z)
  (inputPath relativePath : string) :
  hasKeys (SharpSquoosh.buildPreprocessOpts cfg) = false ->
  preserves (traceGrows notPreprocess)
    (SharpSquoosh.processFile cfg i n inputPath relativePath).
Proof.
  intros Hk. unfold SharpSquoosh.processFile, SharpSquoosh.cropImage.
  run_unfold. cbv zeta.
  repeat first [rewrite Hk; cbv iota | preserves_step]; exact I.
Qed.

End PreprocessFacts.

(** X15: [image.preprocess] is called only when there is something to
    do.  With resizing and palette reduction switched off (and, in the
    squoosh-only script, cropping too) no image of a batch is
    preprocessed. *)
Theorem nothing_enabled_means_no_preprocess {E : Externals}
  (cfgA : SquooshOnly.Config) (cfgB : SharpSquoosh.Config)
  (imageFiles : list string) (s : St) :
  (SquooshOnly.crop_enabled (SquooshOnly.cropOptions cfgA) = false ->
   resize_enabled (cfg_resize (preprocessOptions (SquooshOnly.common cfgA))) = false ->
   quant_enabled (cfg_quant (preprocessOptions (SquooshOnly.common cfgA))) = false ->
   exists l,
     st_trace (snd (SquooshOnly.compressImages cfgA imageFiles s))
     = (st_trace s ++ l)%list
     /\ forall opts, ~ In (CodecPreprocess opts) l)
  /\ (resize_enabled (cfg_resize (preprocessOptions (SharpSquoosh.common cfgB))) = false ->
      quant_enabled (cfg_quant (preprocessOptions (SharpSquoosh.common cfgB))) = false ->
      exists l,
        st_trace (snd (SharpSquoosh.compressImages cfgB imageFiles s))
        = (st_trace s ++ l)%list
        /\ forall opts, ~ In (CodecPreprocess opts) l).
Proof.
  split.
  - intros Hc Hr Hq.
    destruct (squoosh_batch_events notPreprocess (fun _ => I) (fun _ => I)
                (fun _ => I) I cfgA imageFiles
                (fun i n p rel _ =>
                   squoosh_processFile_skips cfgA i n p rel
                     (fun W H => squoosh_no_keys cfgA W H Hc Hr Hq)) s)
      as [_ (l & Hl & HF)].
    exists l. split; [exact Hl|]. intros opts Hin.
    rewrite Forall_forall in HF. exact (HF _ Hin).
  - intros Hr Hq.
    destruct (sharp_batch_events notPreprocess (fun _ => I) (fun _ => I)
                (fun _ => I) I cfgB imageFiles
                (fun i n p rel _ =>
                   sharp_processFile_skips cfgB i n p rel
                     (sharp_no_keys cfgB Hr Hq)) s)
      as [_ (l & Hl & HF)].
    exists l. split; [exact Hl|]. intros opts Hin.
    rewrite Forall_forall in HF. exact (HF _ Hin).
Qed.

Lemma nothing_enabled_means_no_preprocess_witness :
  exists l,
    st_trace
      (snd (@SharpSquoosh.compressImages (Demo.externals false)
              (SharpSquoosh.mkConfig
                 (mkBaseConfig "./jump" "./jumpCompress" defaultEncodeOptions
                    (mkPreprocessConfig (mkResizeConfig false 338 280)
                       (mkQuantConfig false 64 1))
                    [".jpg"; ".jpeg"; ".png"] None 4)
                 (SharpSquoosh.mkCropConfig true 50))
              ["jump/a/photo.png"; "jump/broken.png"]
              (Demo.start Demo.openWorld)))
    = ([] ++ l)%list
    /\ forall opts, ~ In (CodecPreprocess opts) l.
Proof.
  exact (proj2
           (@nothing_enabled_means_no_preprocess (Demo.externals false)
              Demo.squooshConfig
              (SharpSquoosh.mkConfig
                 (mkBaseConfig "./jump" "./jumpCompress" defaultEncodeOptions
                    (mkPreprocessConfig (mkResizeConfig false 338 280)
                       (mkQuantConfig false 64 1))
                    [".jpg"; ".jpeg"; ".png"] None 4)
                 (SharpSquoosh.mkCropConfig true 50))
              ["jump/a/photo.png"; "jump/broken.png"]
              (Demo.start Demo.openWorld))
           eq_refl eq_refl).
Defined.

(** ** The report of [main] *)


(** ** The encoder of a discovered file *)

(** X18: when [CONFIG.formats] holds only extensions [getEncoder] knows,
    as the shipped list does, a file [getImageFiles] found is encoded,
    without an override, by the encoder of its own extension, whatever
    its letter case: the [default] branch of [getEncoder] is not what
    picks it. *)
Theorem discovered_file_has_the_encoder_of_its_extension {E : Externals}
  (cfg : BaseConfig) (dir : string) (s s' : St) (imageFiles : list string)
  (f : string) :
  NodePath.isAbsolute cwd = true ->
  listsNames (st_world s) ->
  Forall (fun x => In x [".jpg"; ".jpeg"; ".png"; ".webp"]) (formats cfg) ->
  getImageFiles cfg dir s = (Ok imageFiles, s') ->
  In f imageFiles ->
  let ext := toLowerCase (NodePath.extname f) in
  ((ext = ".jpg" \/ ext = ".jpeg") /\ getEncoder f None = mozjpeg)
  \/ (ext = ".png" /\ getEncoder f None = oxipng)
  \/ (ext = ".webp" /\ getEncoder f None = webp).
Proof.
  intros Hcwd Hnames Hknown Hrun Hf ext.
  assert (Hext : In ext (formats cfg)).
  { unfold getImageFiles in Hrun.
    destruct (readDir_matching (formats cfg) dir (st_world s) stackDepth dir []
                s imageFiles s' eq_refl (reaches_root _ _) Hrun f Hf)
      as [[] | Hm].
    now destruct (matchingFile_below Hcwd (st_world s) Hnames _ _ _ Hm)
      as (names & _ & _ & Hin). }
  rewrite Forall_forall in Hknown. specialize (Hknown ext Hext).
  unfold getEncoder, orElse. fold ext.
  destruct Hknown as [H | [H | [H | [H | []]]]]; rewrite <- H; cbn; auto.
Qed.

Lemma discovered_file_has_the_encoder_of_its_extension_witness :
  ((toLowerCase (NodePath.extname "jump/b/icon.jpg") = ".jpg"
    \/ toLowerCase (NodePath.extname "jump/b/icon.jpg") = ".jpeg")
   /\ getEncoder "jump/b/icon.jpg" None = mozjpeg)
  \/ (toLowerCase (NodePath.extname "jump/b/icon.jpg") = ".png"
      /\ getEncoder "jump/b/icon.jpg" None = oxipng)
  \/ (toLowerCase (NodePath.extname "jump/b/icon.jpg") = ".webp"
      /\ getEncoder "jump/b/icon.jpg" None = webp).
Proof.
  refine (@discovered_file_has_the_encoder_of_its_extension
            (Demo.externals false)
            (SquooshOnly.common SquooshOnly.CONFIG) "./jump"
            (Demo.start Demo.openWorld) _
            ["jump/a/photo.png"; "jump/b/icon.jpg"; "jump/broken.png"]
            "jump/b/icon.jpg" eq_refl demo_lists_names _ _
            (or_intror (or_introl eq_refl))).
  - repeat (apply Forall_cons; [cbn; auto 10|]). apply Forall_nil.
  - vm_compute. reflexivity.
Defined.
